(** * party-parrot: the Director, the hype endpoints and the DMX clamp

    A shallow embedding of
      - [parrot/utils/dmx_utils.py]   ([dmx_clamp]),
      - [parrot/director/director.py] (class [Director]),
      - [parrot/vj/vj_director.py]    (the part of [VJDirector] the Director drives),
      - [parrot/api/web_server.py]    (the hype and manual dimmer routes),
    with the properties of the specification stated and proved over it.

    Conventions.
      - Python [float] values that the program only compares, adds and
        subtracts (clock readings, signal intensities, hype) are rationals
        [Q]: every double is one, and comparison is exact on them.  The
        division and the product of the warm-up, whose rounding decides the
        gate of the scheduled shift, are operations of the collaborators
        ([float_div], [frame_mul]) and not the exact quotient and product.
        [dmx_clamp], whose behaviour on NaN and the infinities matters, uses
        the type [PyFloat] that has them.
      - A call either returns a value or raises; both carry the state the
        object is left in ([Outcome]).
      - [random] and [time.time] are read from tapes held in the state: every
        sequence of draws and clock readings is a possible run.
      - [print] and the diagnostic tree dump produce console text only and are
        left out; so are the fixtures' own state and the VJ concert stage,
        which the Director drives but never reads. *)

From stdpp Require Import base option list gmap finite strings.
From Stdlib Require Import ZArith QArith Qround Qminmax Lqa.

Set Default Proof Using "Type".

(** ** Exceptions and outcomes *)

Inductive Exn : Type :=
  | ValueError
  | IndexError
  | AttributeError
  | OverflowError.

Inductive Outcome (S A : Type) : Type :=
  | Returns (a : A) (s : S)
  | Raises (e : Exn) (s : S).
Arguments Returns {S A} a s.
Arguments Raises {S A} e s.

Definition final_state {S A} (o : Outcome S A) : S :=
  match o with Returns _ s => s | Raises _ s => s end.

(** ** Rational helpers: Python's comparisons, [min] and [max] *)

Definition Qltb (x y : Q) : bool :=
  match (x ?= y)%Q with Lt => true | _ => false end.

Definition Qeqb (x y : Q) : bool :=
  match (x ?= y)%Q with Eq => true | _ => false end.

(** [max(a, b)] returns [b] only when it is strictly larger, [min(a, b)]
    returns [b] only when it is strictly smaller. *)
Definition py_max (a b : Q) : Q := if Qltb a b then b else a.
Definition py_min (a b : Q) : Q := if Qltb b a then b else a.

(** ** parrot/utils/dmx_utils.py *)

Module DmxUtils.

(** A Python float: NaN, the two infinities, or a finite value.  Every finite
    double is a rational, so a statement for all [FFinite q] covers them. *)
Inductive PyFloat : Type :=
  | FNaN
  | FPosInf
  | FNegInf
  | FFinite (q : Q).

(** What [clamp] may hand to [int]: one of its integer bounds or the float. *)
Inductive PyNum : Type :=
  | PyInt (z : Z)
  | PyFloatV (x : PyFloat).

Definition isnan (n : PyFloat) : bool :=
  match n with FNaN => true | _ => false end.

(** [n < z] and [n > z] as Python compares a float with an int. *)
Definition float_lt_int (n : PyFloat) (z : Z) : bool :=
  match n with
  | FNaN => false
  | FPosInf => false
  | FNegInf => true
  | FFinite q => Qltb q (inject_Z z)
  end.

Definition float_gt_int (n : PyFloat) (z : Z) : bool :=
  match n with
  | FNaN => false
  | FPosInf => true
  | FNegInf => false
  | FFinite q => Qltb (inject_Z z) q
  end.

(** [int(x)] on a finite float truncates toward zero. *)
Definition Qtrunc (q : Q) : Z :=
  if Qltb q 0 then Qceiling q else Qfloor q.

Definition py_int (x : PyNum) : Outcome unit Z :=
  match x with
  | PyInt z => Returns z tt
  | PyFloatV FNaN => Raises ValueError tt
  | PyFloatV FPosInf => Raises OverflowError tt
  | PyFloatV FNegInf => Raises OverflowError tt
  | PyFloatV (FFinite q) => Returns (Qtrunc q) tt
  end.

(** The number a [PyNum] denotes, when it is finite. *)
Definition num_value (x : PyNum) : option Q :=
  match x with
  | PyInt z => Some (inject_Z z)
  | PyFloatV (FFinite q) => Some q
  | PyFloatV _ => None
  end.

(** The value a saturating clamp denotes on a float that is not NaN. *)
Definition saturate (n : PyFloat) (lo hi : Z) : Q :=
  match n with
  | FNaN => inject_Z lo
  | FNegInf => inject_Z lo
  | FPosInf => inject_Z hi
  | FFinite q =>
      if Qltb q (inject_Z lo) then inject_Z lo
      else if Qltb (inject_Z hi) q then inject_Z hi
      else q
  end.

(** One way to write the helper: [max(lo, min(n, hi))]. *)
Definition clamp_minmax (n : PyFloat) (lo hi : Z) : PyNum :=
  let m := if float_gt_int n hi then PyInt hi else PyFloatV n in
  match m with
  | PyInt z => if (lo <? z)%Z then PyInt z else PyInt lo
  | PyFloatV x => if float_gt_int x lo then PyFloatV x else PyInt lo
  end.

Section WithClamp.

(** [clamp] is imported from [parrot/utils/math.py], which is not among the
    sources: it is a parameter, known only to be a saturating clamp. *)
Variable clamp : PyFloat -> Z -> Z -> PyNum.

Definition saturating : Prop :=
  forall n lo hi, isnan n = false -> (lo <= hi)%Z ->
    exists r, num_value (clamp n lo hi) = Some r /\ (r == saturate n lo hi)%Q.

Definition dmx_clamp (n : PyFloat) : Outcome unit Z :=
  if isnan n then Returns 0%Z tt
  else py_int (clamp n 0 255).

(** [[int(clamp(item, 0, 255)) for item in items]]: the first element whose
    conversion raises ends the comprehension. *)
Fixpoint dmx_clamp_list (items : list PyFloat) : Outcome unit (list Z) :=
  match items with
  | [] => Returns [] tt
  | item :: rest =>
      match py_int (clamp item 0 255) with
      | Raises e _ => Raises e tt
      | Returns z _ =>
          match dmx_clamp_list rest with
          | Returns zs _ => Returns (z :: zs) tt
          | Raises e _ => Raises e tt
          end
      end
  end.

End WithClamp.

(** *** Universes and controllers *)

Inductive Universe : Type := default | art1.

#[global] Instance Universe_eq_dec : EqDecision Universe.
Proof. intros [] []; first [left; reflexivity | right; discriminate]. Defined.

#[global] Instance Universe_countable : Countable Universe :=
  {| encode u := match u with default => 1%positive | art1 => 2%positive end;
     decode p := match p with 1%positive => Some default
                            | 2%positive => Some art1
                            | _ => None end;
     decode_encode u := match u with default => eq_refl | art1 => eq_refl end |}.

(** [class ArtNetController].  The StupidArtnet sender is outside the model:
    [sent] lists the frames [submit] handed to it. *)
Module ArtNetController.

Record t : Type := {
  artnet_ip : string;
  artnet_universe : Z;
  dmx_data : list Z;
  sent : list (list Z);
}.

Definition init (ip : string) (universe : Z) : t :=
  {| artnet_ip := ip; artnet_universe := universe;
     dmx_data := replicate 512 0%Z; sent := [] |}.

(** [if 1 <= channel <= 512: self.dmx_data[channel - 1] = int(value)]. *)
Definition set_channel (channel : Z) (value : PyNum) (self : t) : Outcome t unit :=
  if ((1 <=? channel) && (channel <=? 512))%Z then
    match py_int value with
    | Raises e _ => Raises e self
    | Returns z _ =>
        if (Z.to_nat (channel - 1) <? length (dmx_data self))%nat
        then Returns tt
               {| artnet_ip := artnet_ip self; artnet_universe := artnet_universe self;
                  dmx_data := <[Z.to_nat (channel - 1) := z]> (dmx_data self);
                  sent := sent self |}
        else Raises IndexError self
    end
  else Returns tt self.

Definition submit (self : t) : t :=
  {| artnet_ip := artnet_ip self; artnet_universe := artnet_universe self;
     dmx_data := dmx_data self; sent := sent self ++ [dmx_data self] |}.

End ArtNetController.

(** The controllers a universe can be routed to.  The Enttec [Controller] and
    [MockDmxController] are libraries outside the sources: what is kept of
    them is the [set_channel] calls they received. *)
Inductive Controller : Type :=
  | Entec (port : string) (calls : list (Z * PyNum))
  | MockDmxController (calls : list (Z * PyNum))
  | ArtNet (c : ArtNetController.t).

Definition is_entec (c : Controller) : bool :=
  match c with Entec _ _ => true | _ => false end.

Definition controller_set_channel (channel : Z) (value : PyNum) (c : Controller)
    : Outcome Controller unit :=
  match c with
  | Entec port calls => Returns tt (Entec port (calls ++ [(channel, value)]))
  | MockDmxController calls => Returns tt (MockDmxController (calls ++ [(channel, value)]))
  | ArtNet a =>
      match ArtNetController.set_channel channel value a with
      | Returns _ a' => Returns tt (ArtNet a')
      | Raises e a' => Raises e (ArtNet a')
      end
  end.

(** [controller.submit()] when it does not raise. *)
Definition controller_submit (c : Controller) : Controller :=
  match c with
  | ArtNet a => ArtNet (ArtNetController.submit a)
  | _ => c
  end.

(** *** Finding the Enttec controller *)

(** What [get_entec_controller] asks of the machine: the environment variable
    MOCK_DMX, the answer of [find_entec_port] ([None] when it raised), whether
    [Controller(path)] connects, and [os.path.exists]. *)
Record Host : Type := {
  MOCK_DMX : option string;
  find_entec_port : option (option string);
  connects : string -> bool;
  path_exists : string -> bool;
}.

(** [s.replace(old, new)] for a non-empty [old]; [skip] counts the characters
    of a matched occurrence still to pass over. *)
Fixpoint replace_from (old new : string) (skip : nat) (s : string) : string :=
  match s with
  | EmptyString => EmptyString
  | String c rest =>
      match skip with
      | S k => replace_from old new k rest
      | O =>
          if String.prefix old s
          then String.append new (replace_from old new (String.length old - 1) rest)
          else String c (replace_from old new 0 rest)
      end
  end.

Definition tty_variant (port_path : string) : string :=
  replace_from "/dev/cu." "/dev/tty." 0 port_path.

(** [get_entec_controller()]: the controller, or [None] when
    [find_entec_port] raised. *)
Definition get_entec_controller (host : Host) : option Controller :=
  match MOCK_DMX host with
  | Some _ => Some (MockDmxController [])
  | None =>
      match find_entec_port host with
      | None => None
      | Some None => Some (MockDmxController [])
      | Some (Some port_path) =>
          if connects host port_path then Some (Entec port_path [])
          else if String.prefix "/dev/cu." port_path
               then
                 let tty_path := tty_variant port_path in
                 if path_exists host tty_path && connects host tty_path
                 then Some (Entec tty_path [])
                 else Some (MockDmxController [])
               else Some (MockDmxController [])
      end
  end.

(** *** [class SwitchController] *)

Module SwitchController.

(** [controller_map] is a dict: its entries in insertion order, keys unique.
    Every universe is routed to a controller object of its own, as
    [get_controller] builds them. *)
Record t : Type := {
  controller_map : list (Universe * Controller);
  _entec_universes : gset Universe;
}.

(** [d.get(universe)]. *)
Definition dict_get (universe : Universe) (d : list (Universe * Controller))
    : option Controller :=
  snd <$> List.find (fun entry => bool_decide (fst entry = universe)) d.

(** [d[universe] = c]: in place for a key of the dict, at the end otherwise. *)
Fixpoint dict_set (universe : Universe) (c : Controller)
    (d : list (Universe * Controller)) : list (Universe * Controller) :=
  match d with
  | [] => [(universe, c)]
  | (u, c') :: rest =>
      if bool_decide (u = universe) then (u, c) :: rest
      else (u, c') :: dict_set universe c rest
  end.

Definition init (controller_map : list (Universe * Controller)) : t :=
  {| controller_map := controller_map; _entec_universes := ∅ |}.

Definition _mark_entec_universe (universe : Universe) (self : t) : t :=
  {| controller_map := controller_map self;
     _entec_universes := {[universe]} ∪ _entec_universes self |}.

Definition set_channel (channel : Z) (value : PyNum) (universe : Universe) (self : t)
    : Outcome t unit :=
  match dict_get universe (controller_map self) with
  | None => Returns tt self
  | Some controller =>
      match controller_set_channel channel value controller with
      | Returns _ c' =>
          Returns tt {| controller_map := dict_set universe c' (controller_map self);
                        _entec_universes := _entec_universes self |}
      | Raises e c' =>
          Raises e {| controller_map := dict_set universe c' (controller_map self);
                      _entec_universes := _entec_universes self |}
      end
  end.

Definition _reconnect_entec (host : Host) (universe : Universe) (self : t) : bool * t :=
  if bool_decide (universe ∈ _entec_universes self) then
    match get_entec_controller host with
    | Some new_controller =>
        if is_entec new_controller
        then (true,
              {| controller_map := dict_set universe new_controller (controller_map self);
                 _entec_universes := _entec_universes self |})
        else (false,
              {| controller_map := dict_set universe new_controller (controller_map self);
                 _entec_universes := _entec_universes self ∖ {[universe]} |})
    | None =>
        (false,
         {| controller_map := dict_set universe (MockDmxController []) (controller_map self);
            _entec_universes := _entec_universes self ∖ {[universe]} |})
    end
  else (false, self).

(** How one [controller.submit()] can fail: with SerialException or OSError,
    which [submit] catches, or with anything else, which it does not. *)
Inductive SubmitFault : Type := SerialOrOSError | OtherError.

Inductive SubmitResult : Type :=
  | Submitted (self : t)
  | Propagated (self : t).

Definition after_submit (r : SubmitResult) : t :=
  match r with Submitted s => s | Propagated s => s end.

(** The loop of [submit] over the universes still to visit; [faults] tells
    which controllers raise in this call. *)
Fixpoint submit_loop (host : Host) (faults : Universe -> option SubmitFault)
    (universes : list Universe) (self : t) : SubmitResult :=
  match universes with
  | [] => Submitted self
  | universe :: rest =>
      match dict_get universe (controller_map self) with
      | None => submit_loop host faults rest self
      | Some controller =>
          match faults universe with
          | None =>
              submit_loop host faults rest
                {| controller_map :=
                     dict_set universe (controller_submit controller) (controller_map self);
                   _entec_universes := _entec_universes self |}
          | Some SerialOrOSError =>
              if bool_decide (universe ∈ _entec_universes self)
              then submit_loop host faults rest (snd (_reconnect_entec host universe self))
              else submit_loop host faults rest self
          | Some OtherError => Propagated self
          end
      end
  end.

Definition submit (host : Host) (faults : Universe -> option SubmitFault) (self : t)
    : SubmitResult :=
  submit_loop host faults (fst <$> controller_map self) self.

End SwitchController.

(** Per-venue Art-Net configuration. *)
Definition artnet_config : list (string * (string * Z)) :=
  [("mtn_lotus", ("192.168.100.113", 0%Z))].

Definition config_get (venue_name : string) : option (string * Z) :=
  snd <$> List.find (fun entry => String.eqb (fst entry) venue_name) artnet_config.

(** [get_controller(venue)]; [venue] is the venue's name, [None] for no
    venue.  [None] when [get_entec_controller] raised. *)
Definition get_controller (host : Host) (venue : option string)
    : option SwitchController.t :=
  match get_entec_controller host with
  | None => None
  | Some entec =>
      let switch_controller :=
        SwitchController.init [(default, entec)] in
      let switch_controller :=
        if is_entec entec
        then SwitchController._mark_entec_universe default switch_controller
        else switch_controller in
      match venue with
      | None => Some switch_controller
      | Some venue_name =>
          match config_get venue_name with
          | Some (ip, universe) =>
              Some {| SwitchController.controller_map :=
                        SwitchController.dict_set art1
                          (ArtNet (ArtNetController.init ip universe))
                          (SwitchController.controller_map switch_controller);
                      SwitchController._entec_universes :=
                        SwitchController._entec_universes switch_controller |}
          | None => Some switch_controller
          end
      end
  end.

(** A clamp written as a chain of comparisons: it hands NaN back. *)
Definition clamp_chain (n : PyFloat) (lo hi : Z) : PyNum :=
  if float_lt_int n lo then PyInt lo
  else if float_gt_int n hi then PyInt hi
  else PyFloatV n.

(** What holds of every switch controller built by [get_controller]: unique
    universes, every universe marked as Enttec routed to an Enttec
    controller, and every Art-Net controller holding 512 channels. *)
Definition well_routed (s : SwitchController.t) : Prop :=
  NoDup (fst <$> SwitchController.controller_map s) /\
  (forall u, u ∈ SwitchController._entec_universes s ->
     exists c, SwitchController.dict_get u (SwitchController.controller_map s) = Some c /\
               is_entec c = true) /\
  (forall u a, SwitchController.dict_get u (SwitchController.controller_map s) = Some (ArtNet a) ->
     length (ArtNetController.dmx_data a) = 512%nat).

End DmxUtils.

(** ** The external collaborators

    The Director is written against modules that are not among the sources:
    the signal enumeration and [Frame] ([parrot/director/frame.py]), [Mode],
    the fixtures, [ColorScheme], [LerpAnimator], the interpreter registry and
    the interpreters it hands out.  Their types are the fields of [Domain];
    their operations are the fields of [Director.Collaborators]. *)

Class Domain : Type := {
  (** [FrameSignal]: a fixed enumeration; [for signal in FrameSignal] visits
      [enum Signal]. *)
  Signal : Type;
  Signal_eq_dec :: EqDecision Signal;
  Signal_finite :: Finite Signal;
  sustained_low : Signal;
  Mode : Type;
  VJMode : Type;
  Venue : Type;
  Fixture : Type;
  Color : Type;
  (** [LerpAnimator] objects. *)
  Animator : Type;
  (** What an interpreter object holds besides its signal switch. *)
  Behaviour : Type;
  (** The object [Director.deploy_hype] expects in [self.mode_machine]. *)
  ModeMachine : Type;
}.

(** ** parrot/director/director.py *)

Module Director.

Section Model.
Context `{Domain}.

Definition SHIFT_AFTER : Q := 60.

Definition HYPE_BUCKETS : list Q := [10; 40; 70]%Q.

(** The classes [group_fixtures] clusters by, in its order. *)
Inductive FixtureClass : Type :=
  | Par
  | MovingHead
  | Motionstrip
  | Laser
  | ChauvetRotosphere_28Ch
  | ChauvetDerby.

Definition to_group : list FixtureClass :=
  [Par; MovingHead; Motionstrip; Laser; ChauvetRotosphere_28Ch; ChauvetDerby].

(** An entry of a venue patch: a fixture, or a [FixtureGroup] (a [ManualGroup]
    when [manual] is set). *)
Inductive PatchEntry : Type :=
  | PatchFixture (f : Fixture)
  | PatchGroup (manual : bool) (fixtures : list Fixture).

(** Modelled from the spec: [ColorScheme] is "an ordered, fixed-length tuple of
    color values"; the partial shift splices one of its three axes. *)
Definition ColorScheme : Type := Color * Color * Color.

(** Modelled from the spec: a [Frame] maps every signal to its intensity. *)
Definition Frame : Type := Signal -> Q.

Record InterpreterArgs : Type := {
  args_hype : Q;
  args_allow_rainbows : bool;
  args_hype_min : Q;
  args_hype_max : Q;
}.

Record Theme : Type := {
  allow_rainbows : bool;
  color_scheme : list ColorScheme;
}.

(** The shared [State] object, as far as the Director reads it. *)
Record State : Type := {
  mode : Mode;
  vj_mode : VJMode;
  venue : Venue;
  theme : Theme;
  hype : Q;
  hype_limiter : bool;
  manual_dimmer : Q;
}.

(** An interpreter object.  [responds_to] is [None] when the object has no such
    attribute; [has_set_enabled] is [hasattr(i, "set_enabled")]. *)
Record Interpreter : Type := {
  responds_to : option (gmap Signal bool);
  has_set_enabled : bool;
  behaviour : Behaviour;
}.

(** The part of [VJDirector] (parrot/vj/vj_director.py) that [shift] and
    [step] write; the concert stage it regenerates is not modelled. *)
Record VJDirector : Type := {
  vj_last_shift_time : Q;
  vj_shift_count : nat;
  vj_latest_frame : option Frame;
  vj_latest_scheme : option ColorScheme;
}.

(** References to interpreter objects. *)
Definition loc : Type := nat.

(** A call [get_interpreter(mode, group, args)]. *)
Definition RegistryCall : Type := Mode * list Fixture * InterpreterArgs.

(** What [render] asks of the device layer. *)
Inductive DeviceCall : Type :=
  | ManualRender (dimmer : Q) (fixtures : list Fixture)
  | EntryRender (e : PatchEntry)
  | Submit.

(** The Director object (first block), the interpreter objects its list refers
    to, the random and clock tapes, and the calls made to the registry and to
    the device. *)
Record World : Type := {
  scheme : Animator;
  last_shift_time : Q;
  shift_count : nat;
  start_time : Q;
  state : State;
  vj_director : option VJDirector;
  fixture_groups : list (list Fixture);
  interpreters : list loc;
  warmup_complete : bool;
  last_frame : option Frame;
  mode_machine : option ModeMachine;
  heap : gmap loc Interpreter;
  next_loc : loc;
  rng_tape : nat -> nat;
  rng_pos : nat;
  clock_tape : nat -> Q;
  clock_pos : nat;
  registry_calls : list RegistryCall;
  dmx_calls : list DeviceCall;
}.

Definition set_scheme (v : Animator) (w : World) : World :=
  {| scheme := v; last_shift_time := last_shift_time w;
     shift_count := shift_count w; start_time := start_time w;
     state := state w; vj_director := vj_director w;
     fixture_groups := fixture_groups w; interpreters := interpreters w;
     warmup_complete := warmup_complete w; last_frame := last_frame w;
     mode_machine := mode_machine w; heap := heap w; next_loc := next_loc w;
     rng_tape := rng_tape w; rng_pos := rng_pos w;
     clock_tape := clock_tape w; clock_pos := clock_pos w;
     registry_calls := registry_calls w; dmx_calls := dmx_calls w |}.

Definition set_last_shift_time (v : Q) (w : World) : World :=
  {| scheme := scheme w; last_shift_time := v; shift_count := shift_count w;
     start_time := start_time w; state := state w;
     vj_director := vj_director w; fixture_groups := fixture_groups w;
     interpreters := interpreters w; warmup_complete := warmup_complete w;
     last_frame := last_frame w; mode_machine := mode_machine w;
     heap := heap w; next_loc := next_loc w; rng_tape := rng_tape w;
     rng_pos := rng_pos w; clock_tape := clock_tape w;
     clock_pos := clock_pos w; registry_calls := registry_calls w;
     dmx_calls := dmx_calls w |}.

Definition set_shift_count (v : nat) (w : World) : World :=
  {| scheme := scheme w; last_shift_time := last_shift_time w;
     shift_count := v; start_time := start_time w; state := state w;
     vj_director := vj_director w; fixture_groups := fixture_groups w;
     interpreters := interpreters w; warmup_complete := warmup_complete w;
     last_frame := last_frame w; mode_machine := mode_machine w;
     heap := heap w; next_loc := next_loc w; rng_tape := rng_tape w;
     rng_pos := rng_pos w; clock_tape := clock_tape w;
     clock_pos := clock_pos w; registry_calls := registry_calls w;
     dmx_calls := dmx_calls w |}.

Definition set_state (v : State) (w : World) : World :=
  {| scheme := scheme w; last_shift_time := last_shift_time w;
     shift_count := shift_count w; start_time := start_time w; state := v;
     vj_director := vj_director w; fixture_groups := fixture_groups w;
     interpreters := interpreters w; warmup_complete := warmup_complete w;
     last_frame := last_frame w; mode_machine := mode_machine w;
     heap := heap w; next_loc := next_loc w; rng_tape := rng_tape w;
     rng_pos := rng_pos w; clock_tape := clock_tape w;
     clock_pos := clock_pos w; registry_calls := registry_calls w;
     dmx_calls := dmx_calls w |}.

Definition set_vj_director (v : option VJDirector) (w : World) : World :=
  {| scheme := scheme w; last_shift_time := last_shift_time w;
     shift_count := shift_count w; start_time := start_time w;
     state := state w; vj_director := v; fixture_groups := fixture_groups w;
     interpreters := interpreters w; warmup_complete := warmup_complete w;
     last_frame := last_frame w; mode_machine := mode_machine w;
     heap := heap w; next_loc := next_loc w; rng_tape := rng_tape w;
     rng_pos := rng_pos w; clock_tape := clock_tape w;
     clock_pos := clock_pos w; registry_calls := registry_calls w;
     dmx_calls := dmx_calls w |}.

Definition set_fixture_groups (v : list (list Fixture)) (w : World) : World :=
  {| scheme := scheme w; last_shift_time := last_shift_time w;
     shift_count := shift_count w; start_time := start_time w;
     state := state w; vj_director := vj_director w; fixture_groups := v;
     interpreters := interpreters w; warmup_complete := warmup_complete w;
     last_frame := last_frame w; mode_machine := mode_machine w;
     heap := heap w; next_loc := next_loc w; rng_tape := rng_tape w;
     rng_pos := rng_pos w; clock_tape := clock_tape w;
     clock_pos := clock_pos w; registry_calls := registry_calls w;
     dmx_calls := dmx_calls w |}.

Definition set_interpreters (v : list loc) (w : World) : World :=
  {| scheme := scheme w; last_shift_time := last_shift_time w;
     shift_count := shift_count w; start_time := start_time w;
     state := state w; vj_director := vj_director w;
     fixture_groups := fixture_groups w; interpreters := v;
     warmup_complete := warmup_complete w; last_frame := last_frame w;
     mode_machine := mode_machine w; heap := heap w; next_loc := next_loc w;
     rng_tape := rng_tape w; rng_pos := rng_pos w;
     clock_tape := clock_tape w; clock_pos := clock_pos w;
     registry_calls := registry_calls w; dmx_calls := dmx_calls w |}.

Definition set_warmup_complete (v : bool) (w : World) : World :=
  {| scheme := scheme w; last_shift_time := last_shift_time w;
     shift_count := shift_count w; start_time := start_time w;
     state := state w; vj_director := vj_director w;
     fixture_groups := fixture_groups w; interpreters := interpreters w;
     warmup_complete := v; last_frame := last_frame w;
     mode_machine := mode_machine w; heap := heap w; next_loc := next_loc w;
     rng_tape := rng_tape w; rng_pos := rng_pos w;
     clock_tape := clock_tape w; clock_pos := clock_pos w;
     registry_calls := registry_calls w; dmx_calls := dmx_calls w |}.

Definition set_last_frame (v : option Frame) (w : World) : World :=
  {| scheme := scheme w; last_shift_time := last_shift_time w;
     shift_count := shift_count w; start_time := start_time w;
     state := state w; vj_director := vj_director w;
     fixture_groups := fixture_groups w; interpreters := interpreters w;
     warmup_complete := warmup_complete w; last_frame := v;
     mode_machine := mode_machine w; heap := heap w; next_loc := next_loc w;
     rng_tape := rng_tape w; rng_pos := rng_pos w;
     clock_tape := clock_tape w; clock_pos := clock_pos w;
     registry_calls := registry_calls w; dmx_calls := dmx_calls w |}.

Definition set_mode_machine (v : option ModeMachine) (w : World) : World :=
  {| scheme := scheme w; last_shift_time := last_shift_time w;
     shift_count := shift_count w; start_time := start_time w;
     state := state w; vj_director := vj_director w;
     fixture_groups := fixture_groups w; interpreters := interpreters w;
     warmup_complete := warmup_complete w; last_frame := last_frame w;
     mode_machine := v; heap := heap w; next_loc := next_loc w;
     rng_tape := rng_tape w; rng_pos := rng_pos w;
     clock_tape := clock_tape w; clock_pos := clock_pos w;
     registry_calls := registry_calls w; dmx_calls := dmx_calls w |}.

Definition set_heap (v : gmap loc Interpreter) (w : World) : World :=
  {| scheme := scheme w; last_shift_time := last_shift_time w;
     shift_count := shift_count w; start_time := start_time w;
     state := state w; vj_director := vj_director w;
     fixture_groups := fixture_groups w; interpreters := interpreters w;
     warmup_complete := warmup_complete w; last_frame := last_frame w;
     mode_machine := mode_machine w; heap := v; next_loc := next_loc w;
     rng_tape := rng_tape w; rng_pos := rng_pos w;
     clock_tape := clock_tape w; clock_pos := clock_pos w;
     registry_calls := registry_calls w; dmx_calls := dmx_calls w |}.

Definition set_next_loc (v : loc) (w : World) : World :=
  {| scheme := scheme w; last_shift_time := last_shift_time w;
     shift_count := shift_count w; start_time := start_time w;
     state := state w; vj_director := vj_director w;
     fixture_groups := fixture_groups w; interpreters := interpreters w;
     warmup_complete := warmup_complete w; last_frame := last_frame w;
     mode_machine := mode_machine w; heap := heap w; next_loc := v;
     rng_tape := rng_tape w; rng_pos := rng_pos w;
     clock_tape := clock_tape w; clock_pos := clock_pos w;
     registry_calls := registry_calls w; dmx_calls := dmx_calls w |}.

Definition set_rng_pos (v : nat) (w : World) : World :=
  {| scheme := scheme w; last_shift_time := last_shift_time w;
     shift_count := shift_count w; start_time := start_time w;
     state := state w; vj_director := vj_director w;
     fixture_groups := fixture_groups w; interpreters := interpreters w;
     warmup_complete := warmup_complete w; last_frame := last_frame w;
     mode_machine := mode_machine w; heap := heap w; next_loc := next_loc w;
     rng_tape := rng_tape w; rng_pos := v; clock_tape := clock_tape w;
     clock_pos := clock_pos w; registry_calls := registry_calls w;
     dmx_calls := dmx_calls w |}.

Definition set_clock_pos (v : nat) (w : World) : World :=
  {| scheme := scheme w; last_shift_time := last_shift_time w;
     shift_count := shift_count w; start_time := start_time w;
     state := state w; vj_director := vj_director w;
     fixture_groups := fixture_groups w; interpreters := interpreters w;
     warmup_complete := warmup_complete w; last_frame := last_frame w;
     mode_machine := mode_machine w; heap := heap w; next_loc := next_loc w;
     rng_tape := rng_tape w; rng_pos := rng_pos w;
     clock_tape := clock_tape w; clock_pos := v;
     registry_calls := registry_calls w; dmx_calls := dmx_calls w |}.

Definition set_registry_calls (v : list RegistryCall) (w : World) : World :=
  {| scheme := scheme w; last_shift_time := last_shift_time w;
     shift_count := shift_count w; start_time := start_time w;
     state := state w; vj_director := vj_director w;
     fixture_groups := fixture_groups w; interpreters := interpreters w;
     warmup_complete := warmup_complete w; last_frame := last_frame w;
     mode_machine := mode_machine w; heap := heap w; next_loc := next_loc w;
     rng_tape := rng_tape w; rng_pos := rng_pos w;
     clock_tape := clock_tape w; clock_pos := clock_pos w;
     registry_calls := v; dmx_calls := dmx_calls w |}.

Definition set_dmx_calls (v : list DeviceCall) (w : World) : World :=
  {| scheme := scheme w; last_shift_time := last_shift_time w;
     shift_count := shift_count w; start_time := start_time w;
     state := state w; vj_director := vj_director w;
     fixture_groups := fixture_groups w; interpreters := interpreters w;
     warmup_complete := warmup_complete w; last_frame := last_frame w;
     mode_machine := mode_machine w; heap := heap w; next_loc := next_loc w;
     rng_tape := rng_tape w; rng_pos := rng_pos w;
     clock_tape := clock_tape w; clock_pos := clock_pos w;
     registry_calls := registry_calls w; dmx_calls := v |}.

Class Collaborators : Type := {
  (** [venue_patches[venue]] of [parrot/patch_bay.py]. *)
  venue_patches : Venue -> list PatchEntry;
  isinstance : Fixture -> FixtureClass -> bool;
  (** The module-level list [color_schemes]. *)
  color_schemes : list ColorScheme;
  (** The integer read from the environment variable WARMUP_TIME (1 when it
      is unset). *)
  WARMUP_TIME : Z;
  (** [LerpAnimator(scheme, duration)], [push] and [render]. *)
  lerp_new : ColorScheme -> Q -> Animator;
  lerp_push : Animator -> ColorScheme -> Animator;
  lerp_render : Animator -> ColorScheme;
  (** Modelled from the spec: the registry "returns one interpreter instance
      bound to that group".  The last argument is the randomness it uses. *)
  get_interpreter : Mode -> list Fixture -> InterpreterArgs -> nat -> Interpreter;
  (** [i.step(frame, scheme)] and [i.exit(frame, scheme)] on one object. *)
  interp_step : Frame -> ColorScheme -> Interpreter -> Interpreter;
  interp_exit : Frame -> ColorScheme -> Interpreter -> Interpreter;
  (** [mode_machine.deploy_hype(frame)]. *)
  mode_machine_deploy_hype : ModeMachine -> Frame -> ModeMachine;
  (** [get_manual_group(venue)] of [parrot/patch_bay.py]. *)
  get_manual_group : Venue -> option (list Fixture);
  (** Floating point.  [float_div x n] is the double [x / n] for a float [x]
      and an int [n]; [frame_mul frame k] is [frame * k] ([Frame.__mul__] of
      [parrot/director/frame.py]: every intensity multiplied by [k]).  Both
      round, so neither is the exact quotient or product.  Two facts of
      double arithmetic are all that is known of them: dividing by
      WARMUP_SECONDS gives at least 1 exactly when the dividend is at least
      WARMUP_SECONDS, and multiplying by 1 changes no intensity. *)
  float_div : Q -> Z -> Q;
  frame_mul : Frame -> Q -> Frame;
  float_div_warmup : forall r : Q,
    (inject_Z (Z.max WARMUP_TIME 1) <= r)%Q <->
    (1 <= float_div r (Z.max WARMUP_TIME 1))%Q;
  frame_mul_1 : forall (f : Frame) (s : Signal), (frame_mul f 1 s == f s)%Q;
}.
Context `{Collaborators}.

Definition WARMUP_SECONDS : Z := Z.max WARMUP_TIME 1.

(** *** Calls that return or raise *)

Definition M (A : Type) : Type := World -> Outcome World A.

Definition ret {A} (a : A) : M A := fun w => Returns a w.

Definition bind {A B} (m : M A) (k : A -> M B) : M B :=
  fun w =>
    match m w with
    | Returns a w' => k a w'
    | Raises e w' => Raises e w'
    end.

Definition raise {A} (e : Exn) : M A := fun w => Raises e w.

Definition get : M World := fun w => Returns w w.

Definition modify (f : World -> World) : M unit := fun w => Returns tt (f w).

Notation "x <- m ;; k" := (bind m (fun x => k))
  (at level 100, m at next level, k at level 200, right associativity).
Notation "m ;;; k" := (bind m (fun _ => k))
  (at level 100, k at level 200, right associativity).

(** *** [time] and [random] *)

Definition time_time : M Q :=
  fun w => Returns (clock_tape w (clock_pos w)) (set_clock_pos (S (clock_pos w)) w).

Definition draw : M nat :=
  fun w => Returns (rng_tape w (rng_pos w)) (set_rng_pos (S (rng_pos w)) w).

(** [random.randint(a, b)]: ValueError on an empty range. *)
Definition randint (a b : Z) : M Z :=
  if (b <? a)%Z then raise ValueError
  else r <- draw ;; ret (a + Z.of_nat r mod (b - a + 1))%Z.

(** [random.choice(seq)]: IndexError on an empty sequence. *)
Definition choice {A} (l : list A) : M A :=
  match l with
  | [] => raise IndexError
  | x :: _ => r <- draw ;; ret (nth (r mod length l) l x)
  end.

(** *** Fixture grouping *)

Definition group_fixtures : M unit :=
  w <- get ;;
  let all_fixtures := venue_patches (venue (state w)) in
  let explicit :=
    omap (fun e => match e with PatchGroup false fs => Some fs | _ => None end)
         all_fixtures in
  let ungrouped_fixtures :=
    omap (fun e => match e with PatchFixture f => Some f | _ => None end)
         all_fixtures in
  let clustered :=
    omap (fun cls =>
            let fixtures := List.filter (fun i => isinstance i cls) ungrouped_fixtures in
            if (0 <? length fixtures)%nat then Some fixtures else None)
         to_group in
  modify (set_fixture_groups (explicit ++ clustered)).

(** *** Interpreter generation *)

Definition hype_bracket (st : State) : Q * Q :=
  (if negb (hype_limiter st) then 0 else py_max 0 (hype st - 30),
   if negb (hype_limiter st) then 100 else py_min 100 (hype st + 30))%Q.

(** The arguments of the list comprehension of [generate_interpreters] and
    [shift_lighting_only] at index [idx]. *)
Definition bucket_args (st : State) (idx : nat) : InterpreterArgs :=
  {| args_hype := nth (idx mod length HYPE_BUCKETS) HYPE_BUCKETS 0%Q;
     args_allow_rainbows := allow_rainbows (theme st);
     args_hype_min := fst (hype_bracket st);
     args_hype_max := snd (hype_bracket st) |}.

(** The arguments [shift_interpreter] passes. *)
Definition live_args (st : State) : InterpreterArgs :=
  {| args_hype := hype st;
     args_allow_rainbows := allow_rainbows (theme st);
     args_hype_min := fst (hype_bracket st);
     args_hype_max := snd (hype_bracket st) |}.

(** One call of the registry: the new object gets a fresh reference. *)
Definition call_get_interpreter (group : list Fixture) (args : InterpreterArgs) : M loc :=
  w <- get ;;
  entropy <- draw ;;
  let obj := get_interpreter (mode (state w)) group args entropy in
  modify (fun w' =>
    set_registry_calls (registry_calls w' ++ [(mode (state w), group, args)])
      (set_next_loc (S (next_loc w'))
        (set_heap (<[next_loc w' := obj]> (heap w')) w'))) ;;;
  ret (next_loc w).

(** [[get_interpreter(...) for idx, group in enumerate(groups)]], from [idx]. *)
Fixpoint comprehension (idx : nat) (groups : list (list Fixture)) : M (list loc) :=
  match groups with
  | [] => ret []
  | group :: rest =>
      w <- get ;;
      i <- call_get_interpreter group (bucket_args (state w) idx) ;;
      others <- comprehension (S idx) rest ;;
      ret (i :: others)
  end.

Definition generate_interpreters : M unit :=
  w <- get ;;
  created <- comprehension 0 (fixture_groups w) ;;
  modify (set_interpreters created).

(** [VJDirector.shift(vj_mode, threshold)], when there is a VJ director. *)
Definition vj_shift (threshold : Q) : M unit :=
  w <- get ;;
  match vj_director w with
  | None => ret tt
  | Some vj =>
      t <- time_time ;;
      modify (set_vj_director (Some
        {| vj_last_shift_time := t;
           vj_shift_count := S (vj_shift_count vj);
           vj_latest_frame := vj_latest_frame vj;
           vj_latest_scheme := vj_latest_scheme vj |}))
  end.

Definition generate_all : M unit :=
  generate_interpreters ;;; vj_shift 1.

Definition setup_patch : M unit :=
  group_fixtures ;;; generate_all.

(** *** Colour scheme *)

Definition generate_color_scheme : M unit :=
  w <- get ;;
  s <- choice (color_scheme (theme (state w))) ;;
  modify (fun w' => set_scheme (lerp_push (scheme w') s) w').

(** [ct[idx] = st[idx]] on the three axes. *)
Definition splice (idx : Z) (st ct : ColorScheme) : ColorScheme :=
  match st, ct with
  | (s0, s1, s2), (c0, c1, c2) =>
      if (idx =? 0)%Z then (s0, c1, c2)
      else if (idx =? 1)%Z then (c0, s1, c2)
      else (c0, c1, s2)
  end.

Definition shift_color_scheme : M unit :=
  w <- get ;;
  s <- choice (color_scheme (theme (state w))) ;;
  let ct := lerp_render (scheme w) in
  idx <- randint 0 2 ;;
  let new_scheme := splice idx s ct in
  modify (fun w' => set_scheme (lerp_push (scheme w') new_scheme) w').

(** *** Single-group reshuffle *)

Definition shift_interpreter : M unit :=
  w <- get ;;
  k <- randint 0 (Z.of_nat (length (interpreters w)) - 1) ;;
  let eviction_index := Z.to_nat k in
  match fixture_groups w !! eviction_index with
  | None => raise IndexError
  | Some eviction_group =>
      i <- call_get_interpreter eviction_group (live_args (state w)) ;;
      if (eviction_index <? length (interpreters w))%nat
      then modify (fun w' => set_interpreters (<[eviction_index := i]> (interpreters w')) w')
      else raise IndexError
  end.

(** *** Signal coverage *)

(** [hasattr(i, "responds_to") and hasattr(i, "set_enabled")]. *)
Definition signal_switch (o : Interpreter) : bool :=
  match responds_to o with
  | Some _ => has_set_enabled o
  | None => false
  end.

Definition is_signal_switch (h : gmap loc Interpreter) (l : loc) : bool :=
  match h !! l with
  | Some o => signal_switch o
  | None => false
  end.

(** [i.responds_to.get(signal, False)]. *)
Definition responds (o : Interpreter) (signal : Signal) : bool :=
  match responds_to o with
  | Some d => default false (d !! signal)
  | None => false
  end.

Definition responds_at (h : gmap loc Interpreter) (signal : Signal) (l : loc) : bool :=
  match h !! l with
  | Some o => responds o signal
  | None => false
  end.

(** Modelled from the spec: [set_enabled(signal, enabled)] of a signal switch
    ([parrot/interpreters], not among the sources) "force-enables that signal
    on it": it stores [enabled] under [signal] in [responds_to]. *)
Definition set_enabled (signal : Signal) (enabled : bool) (o : Interpreter) : Interpreter :=
  {| responds_to := (fun d => <[signal := enabled]> d) <$> responds_to o;
     has_set_enabled := has_set_enabled o;
     behaviour := behaviour o |}.

(** The loop [for signal in FrameSignal] over the signals still to visit. *)
Fixpoint enable_unhandled (signal_switches : list loc) (signals : list Signal) : M unit :=
  match signals with
  | [] => ret tt
  | signal :: rest =>
      w <- get ;;
      (if existsb (responds_at (heap w) signal) signal_switches
       then ret tt
       else
         i <- choice signal_switches ;;
         modify (fun w' => set_heap (alter (set_enabled signal true) i (heap w')) w')) ;;;
      enable_unhandled signal_switches rest
  end.

Definition ensure_each_signal_is_enabled : M unit :=
  w <- get ;;
  let signal_switches := List.filter (is_signal_switch (heap w)) (interpreters w) in
  match signal_switches with
  | [] => ret tt
  | _ :: _ => enable_unhandled signal_switches (enum Signal)
  end.

(** *** Shifts *)

Definition stamp_shift : M unit :=
  t <- time_time ;;
  modify (set_last_shift_time t) ;;;
  modify (fun w => set_shift_count (S (shift_count w)) w).

Definition shift_lighting_only : M unit :=
  generate_color_scheme ;;;
  w <- get ;;
  created <- comprehension 0 (fixture_groups w) ;;
  modify (set_interpreters created) ;;;
  ensure_each_signal_is_enabled ;;;
  stamp_shift.

Definition shift_vj_only : M unit := vj_shift 1.

Definition shift : M unit :=
  shift_color_scheme ;;;
  shift_interpreter ;;;
  ensure_each_signal_is_enabled ;;;
  vj_shift (3 # 10) ;;;
  stamp_shift.

(** *** The tick *)

(** [for i in self.interpreters: f(i)], each call updating its object. *)
Definition for_each_interpreter (f : Interpreter -> Interpreter) : M unit :=
  modify (fun w => set_heap (foldl (fun h i => alter f i h) (heap w) (interpreters w)) w).

(** [VJDirector.step(frame, scheme)], when there is a VJ director. *)
Definition vj_step (frame : Frame) (sch : ColorScheme) : M unit :=
  modify (fun w =>
    match vj_director w with
    | None => w
    | Some vj =>
        set_vj_director (Some
          {| vj_last_shift_time := vj_last_shift_time vj;
             vj_shift_count := vj_shift_count vj;
             vj_latest_frame := Some frame;
             vj_latest_scheme := Some sch |}) w
    end).

(** The warm-up factor [min(1, run_time / WARMUP_SECONDS)], the quotient
    being the double the division gives. *)
Definition warmup_phase_of (run_time : Q) : Q :=
  py_min 1 (float_div run_time WARMUP_SECONDS).

(** The gate of the scheduled shift, on the clock reading [now], the time of
    the last shift and the frame the interpreters were stepped with. *)
Definition shift_due (now last : Q) (frame : Frame) : bool :=
  Qltb SHIFT_AFTER (now - last) && Qltb (frame sustained_low) (1 # 5).

(** [Director.step].  The loop calling [fixture.begin()] on the patch acts on
    the fixtures only, which are outside the model. *)
Definition step (frame : Frame) : M unit :=
  modify (set_last_frame (Some frame)) ;;;
  w <- get ;;
  let sch := lerp_render (scheme w) in
  t <- time_time ;;
  let run_time := (t - start_time w)%Q in
  let warmup_phase := warmup_phase_of run_time in
  (if Qeqb warmup_phase 1 && negb (warmup_complete w)
   then modify (set_warmup_complete true)
   else ret tt) ;;;
  let frame := frame_mul frame warmup_phase in
  for_each_interpreter (interp_step frame sch) ;;;
  vj_step frame sch ;;;
  now <- time_time ;;
  w <- get ;;
  if shift_due now (last_shift_time w) frame
  then for_each_interpreter (interp_exit frame sch) ;;; shift
  else ret tt.

Definition render : M unit :=
  w <- get ;;
  let manual :=
    match get_manual_group (venue (state w)) with
    | Some fixtures => [ManualRender (manual_dimmer (state w)) fixtures]
    | None => []
    end in
  let fixtures := EntryRender <$> venue_patches (venue (state w)) in
  modify (fun w' => set_dmx_calls (dmx_calls w' ++ manual ++ fixtures ++ [Submit]) w').

(** [self.mode_machine] is looked up first, then [self.last_frame]; a missing
    attribute raises AttributeError. *)
Definition deploy_hype : M unit :=
  w <- get ;;
  match mode_machine w with
  | None => raise AttributeError
  | Some mm =>
      match last_frame w with
      | None => raise AttributeError
      | Some frame => modify (set_mode_machine (Some (mode_machine_deploy_hype mm frame)))
      end
  end.

Definition on_mode_change (m : Mode) : M unit := generate_interpreters.

(** *** Construction *)

(** [Director(state, vj_director)] on the given tapes: the object, or the
    exception that left none. *)
Definition init (st : State) (vj : option VJDirector)
    (rng : nat -> nat) (clock : nat -> Q) : Exn + World :=
  match color_schemes with
  | [] => inl IndexError
  | c :: _ =>
      let w0 :=
        {| scheme := lerp_new (nth (rng 0%nat mod length color_schemes) color_schemes c) 4;
           last_shift_time := clock 0%nat;
           shift_count := 0;
           start_time := clock 1%nat;
           state := st;
           vj_director := vj;
           fixture_groups := [];
           interpreters := [];
           warmup_complete := false;
           last_frame := None;
           mode_machine := None;
           heap := ∅;
           next_loc := 0%nat;
           rng_tape := rng;
           rng_pos := 1;
           clock_tape := clock;
           clock_pos := 2;
           registry_calls := [];
           dmx_calls := [] |} in
      match (setup_patch ;;; generate_color_scheme ;;; modify (set_warmup_complete false)) w0 with
      | Returns _ w => inr w
      | Raises e _ => inl e
      end
  end.

(** *** What can happen to a Director *)

(** The calls the rest of the program makes on the object, and the writes to
    the shared [State] together with the handlers they fire. *)
Inductive Call : Type :=
  | CallStep (frame : Frame)
  | CallRender
  | CallShift
  | CallShiftLightingOnly
  | CallShiftVjOnly
  | CallGenerateAll
  | CallDeployHype
  | SetMode (m : Mode)
  | SetTheme (t : Theme)
  | SetVenue (v : Venue)
  | SetVjMode (m : VJMode)
  | SetHype (h : Q)
  | SetHypeLimiter (b : bool)
  | SetManualDimmer (d : Q).

Definition write_state (f : State -> State) : M unit :=
  modify (fun w => set_state (f (state w)) w).

Definition perform (c : Call) : M unit :=
  match c with
  | CallStep frame => step frame
  | CallRender => render
  | CallShift => shift
  | CallShiftLightingOnly => shift_lighting_only
  | CallShiftVjOnly => shift_vj_only
  | CallGenerateAll => generate_all
  | CallDeployHype => deploy_hype
  | SetMode m =>
      write_state (fun st =>
        {| mode := m; vj_mode := vj_mode st; venue := venue st; theme := theme st;
           hype := hype st; hype_limiter := hype_limiter st;
           manual_dimmer := manual_dimmer st |}) ;;;
      on_mode_change m
  | SetTheme t =>
      write_state (fun st =>
        {| mode := mode st; vj_mode := vj_mode st; venue := venue st; theme := t;
           hype := hype st; hype_limiter := hype_limiter st;
           manual_dimmer := manual_dimmer st |}) ;;;
      generate_color_scheme
  | SetVenue v =>
      write_state (fun st =>
        {| mode := mode st; vj_mode := vj_mode st; venue := v; theme := theme st;
           hype := hype st; hype_limiter := hype_limiter st;
           manual_dimmer := manual_dimmer st |}) ;;;
      setup_patch
  | SetVjMode m =>
      write_state (fun st =>
        {| mode := mode st; vj_mode := m; venue := venue st; theme := theme st;
           hype := hype st; hype_limiter := hype_limiter st;
           manual_dimmer := manual_dimmer st |})
  | SetHype h =>
      write_state (fun st =>
        {| mode := mode st; vj_mode := vj_mode st; venue := venue st; theme := theme st;
           hype := h; hype_limiter := hype_limiter st;
           manual_dimmer := manual_dimmer st |})
  | SetHypeLimiter b =>
      write_state (fun st =>
        {| mode := mode st; vj_mode := vj_mode st; venue := venue st; theme := theme st;
           hype := hype st; hype_limiter := b;
           manual_dimmer := manual_dimmer st |})
  | SetManualDimmer d =>
      write_state (fun st =>
        {| mode := mode st; vj_mode := vj_mode st; venue := venue st; theme := theme st;
           hype := hype st; hype_limiter := hype_limiter st;
           manual_dimmer := d |})
  end.

(** The states a Director can be in: as constructed, or after any call,
    whether it returned or raised. *)
Inductive reachable : World -> Prop :=
  | reachable_init st vj rng clock w :
      init st vj rng clock = inr w -> reachable w
  | reachable_perform c w :
      reachable w -> reachable (final_state (perform c w)).

(** *** The invariants of the specification *)

(** (I2) one interpreter per fixture group. *)
Definition one_per_group (w : World) : Prop :=
  length (interpreters w) = length (fixture_groups w).

(** Some interpreter of the list carries the signal-switch capability. *)
Definition has_signal_switch (w : World) : Prop :=
  exists i o, i ∈ interpreters w /\ heap w !! i = Some o /\ signal_switch o = true.

(** [signal] is handled: some signal switch of the list responds to it. *)
Definition covered (w : World) (signal : Signal) : Prop :=
  exists i o, i ∈ interpreters w /\ heap w !! i = Some o /\
    signal_switch o = true /\ responds o signal = true.

(** (I3) every signal is handled. *)
Definition all_covered (w : World) : Prop := forall signal, covered w signal.

(** Boolean form of [covered]. *)
Definition coveredb (w : World) (signal : Signal) : bool :=
  existsb (fun i => is_signal_switch (heap w) i && responds_at (heap w) signal i)
          (interpreters w).

(** Boolean form of [has_signal_switch]. *)
Definition has_signal_switchb (w : World) : bool :=
  existsb (is_signal_switch (heap w)) (interpreters w).

(** Every reference of the list was handed out by [call_get_interpreter]. *)
Definition allocated (w : World) : Prop :=
  forall i, i ∈ interpreters w -> (i < next_loc w)%nat.

(** What holds of every Director the program can observe. *)
Definition consistent (w : World) : Prop :=
  one_per_group w /\ allocated w /\ mode_machine w = None.

(** *** Frames

    [keeps view m]: whatever [m] does, whether it returns or raises, the part
    of the world that [view] reads is the same afterwards.
    [maintains I m]: [m] leaves a world satisfying [I] in such a world. *)

Definition keeps {A V} (view : World -> V) (m : M A) : Prop :=
  forall w, view (final_state (m w)) = view w.

Definition maintains {A} (I : World -> Prop) (m : M A) : Prop :=
  forall w, I w -> I (final_state (m w)).

Definition has_vj (w : World) : bool :=
  match vj_director w with Some _ => true | None => false end.

(** What the shift schedule reads and writes. *)
Definition timing (w : World) :=
  (last_shift_time w, shift_count w, start_time w, clock_tape w, clock_pos w,
   has_vj w, state w).

(** The interpreter list and what it is laid out against. *)
Definition layout (w : World) :=
  (interpreters w, fixture_groups w, next_loc w, mode_machine w).

(** The interpreters and their objects. *)
Definition lighting (w : World) := (interpreters w, heap w).

(** Everything [call_get_interpreter] leaves alone. *)
Definition beyond_registry (w : World) :=
  (scheme w, last_shift_time w, shift_count w, start_time w, state w,
   vj_director w, fixture_groups w, interpreters w, warmup_complete w,
   last_frame w, mode_machine w, rng_tape w, clock_tape w, clock_pos w,
   dmx_calls w).

(** *** Footprints

    The attributes a call may write.  [start_time] and the two tapes are
    written by nothing after construction. *)

Inductive Field : Type :=
  | FScheme
  | FLastShiftTime
  | FShiftCount
  | FState
  | FVjDirector
  | FFixtureGroups
  | FInterpreters
  | FWarmupComplete
  | FLastFrame
  | FModeMachine
  | FHeap
  | FNextLoc
  | FRngPos
  | FClockPos
  | FRegistryCalls
  | FDmxCalls.

#[global] Instance Field_eq_dec : EqDecision Field.
Proof. intros x y. unfold Decision. decide equality. Defined.

(** [view] does not read field [f]. *)
Definition ignores {V} (view : World -> V) (f : Field) : Prop :=
  match f with
  | FScheme => forall v w, view (set_scheme v w) = view w
  | FLastShiftTime => forall v w, view (set_last_shift_time v w) = view w
  | FShiftCount => forall v w, view (set_shift_count v w) = view w
  | FState => forall v w, view (set_state v w) = view w
  | FVjDirector => forall v w, view (set_vj_director v w) = view w
  | FFixtureGroups => forall v w, view (set_fixture_groups v w) = view w
  | FInterpreters => forall v w, view (set_interpreters v w) = view w
  | FWarmupComplete => forall v w, view (set_warmup_complete v w) = view w
  | FLastFrame => forall v w, view (set_last_frame v w) = view w
  | FModeMachine => forall v w, view (set_mode_machine v w) = view w
  | FHeap => forall v w, view (set_heap v w) = view w
  | FNextLoc => forall v w, view (set_next_loc v w) = view w
  | FRngPos => forall v w, view (set_rng_pos v w) = view w
  | FClockPos => forall v w, view (set_clock_pos v w) = view w
  | FRegistryCalls => forall v w, view (set_registry_calls v w) = view w
  | FDmxCalls => forall v w, view (set_dmx_calls v w) = view w
  end.

(** Whatever [m] does, whether it returns or raises, it changes no attribute
    outside [fields]: every view that reads none of them is kept. *)
Definition writes_at_most {A} (fields : list Field) (m : M A) : Prop :=
  forall (V : Type) (view : World -> V),
    (forall f, f ∈ fields -> ignores view f) -> keeps view m.

Definition registry_fields : list Field :=
  [FRngPos; FHeap; FNextLoc; FRegistryCalls].

Definition shift_fields : list Field :=
  [FScheme; FRngPos; FHeap; FNextLoc; FRegistryCalls; FInterpreters;
   FClockPos; FVjDirector; FLastShiftTime; FShiftCount].

(** What each call on the Director may write. *)
Definition footprint (c : Call) : list Field :=
  match c with
  | CallStep _ => FLastFrame :: FWarmupComplete :: shift_fields
  | CallRender => [FDmxCalls]
  | CallShift => shift_fields
  | CallShiftLightingOnly =>
      [FScheme; FRngPos; FHeap; FNextLoc; FRegistryCalls; FInterpreters;
       FClockPos; FLastShiftTime; FShiftCount]
  | CallShiftVjOnly => [FClockPos; FVjDirector]
  | CallGenerateAll => FInterpreters :: FClockPos :: FVjDirector :: registry_fields
  | CallDeployHype => [FModeMachine]
  | SetMode _ => FState :: FInterpreters :: registry_fields
  | SetTheme _ => [FState; FScheme; FRngPos]
  | SetVenue _ =>
      FState :: FFixtureGroups :: FInterpreters :: FClockPos :: FVjDirector
        :: registry_fields
  | SetVjMode _ => [FState]
  | SetHype _ => [FState]
  | SetHypeLimiter _ => [FState]
  | SetManualDimmer _ => [FState]
  end.

(** The shift schedule. *)
Definition schedule (w : World) := (last_shift_time w, shift_count w).

(** What the VJ director last received from [step]. *)
Definition vj_latest (w : World) : option (option Frame * option ColorScheme) :=
  match vj_director w with
  | Some vj => Some (vj_latest_frame vj, vj_latest_scheme vj)
  | None => None
  end.

(** [VJDirector.get_latest_frame_data()]. *)
Definition get_latest_frame_data (vj : VJDirector) : option Frame * option ColorScheme :=
  (vj_latest_frame vj, vj_latest_scheme vj).

(** [m] leaves the schedule alone, or, when it returns, may have counted one
    shift and stamped it with a reading of the clock. *)
Definition counts_at_most_one_shift {A} (m : M A) : Prop :=
  forall w,
    match m w with
    | Raises _ w' => schedule w' = schedule w
    | Returns _ w' =>
        schedule w' = schedule w \/
        (shift_count w' = S (shift_count w) /\
         exists n, last_shift_time w' = clock_tape w n)
    end.

(** What a tick records: the frame, the warm-up flag, and what the VJ
    director was handed. *)
Definition tick_record (w : World) := (last_frame w, warmup_complete w, vj_latest w).

(** Everything [setup_patch] leaves alone. *)
Definition beyond_patch (w : World) :=
  (scheme w, last_shift_time w, shift_count w, start_time w, state w,
   warmup_complete w, last_frame w, mode_machine w, rng_tape w, clock_tape w,
   dmx_calls w).

(** The VJ director after one more [VJDirector.shift] at time [t]. *)
Definition vj_shifted (t : Q) (vj : VJDirector) : VJDirector :=
  {| vj_last_shift_time := t;
     vj_shift_count := S (vj_shift_count vj);
     vj_latest_frame := vj_latest_frame vj;
     vj_latest_scheme := vj_latest_scheme vj |}.

(** The Director after a sequence of calls, each of which returned or
    raised. *)
Definition run (cs : list Call) (w : World) : World :=
  foldl (fun w' c => final_state (perform c w')) w cs.

End Model.
End Director.

(** ** parrot/api/web_server.py: the hype routes *)

Module WebServer.

Section Model.
Context `{Domain} `{!Director.Collaborators}.

(** How long hype lasts (in seconds). *)
Definition HYPE_DURATION : Q := 8.

(** The module's globals; [last_hype_time] starts at 0. *)
Record Globals : Type := {
  state_instance : option Director.State;
  director_instance : option Director.World;
  last_hype_time : Q;
}.

(** The JSON bodies the two routes answer with. *)
Inductive Response : Type :=
  | JsonError (status : Z)
  | JsonDeployed (duration : Q)
  | JsonStatus (active : bool) (remaining : Q).

(** POST /api/hype, served when the clock reads [now]. *)
Definition deploy_hype (now : Q) (g : Globals) : Outcome Globals Response :=
  match state_instance g, director_instance g with
  | Some _, Some d =>
      match Director.deploy_hype d with
      | Returns _ d' =>
          Returns (JsonDeployed HYPE_DURATION)
            {| state_instance := state_instance g;
               director_instance := Some d';
               last_hype_time := now |}
      | Raises e d' =>
          Raises e
            {| state_instance := state_instance g;
               director_instance := Some d';
               last_hype_time := last_hype_time g |}
      end
  | _, _ => Returns (JsonError 500) g
  end.

(** [start_web_server(state, director)] on the freshly imported module:
    [last_hype_time] is still 0. *)
Definition start_web_server (state : Director.State) (director : Director.World)
    : Globals :=
  {| state_instance := Some state;
     director_instance := Some director;
     last_hype_time := 0 |}.

(** GET /api/hype/status, served when the clock reads [current_time]. *)
Definition get_hype_status (current_time : Q) (g : Globals) : Response * Globals :=
  let elapsed := (current_time - last_hype_time g)%Q in
  if Qltb elapsed HYPE_DURATION
  then (JsonStatus true (HYPE_DURATION - elapsed)%Q, g)
  else (JsonStatus false 0, g).

(** *** The manual dimmer routes *)

(** What the route makes of the request body: no [value] key, the float
    [float(data["value"])], or the exception that conversion raised. *)
Inductive DimmerRequest : Type :=
  | NoValue
  | Value (x : DmxUtils.PyFloat)
  | BadValue (e : Exn).

(** [max(0, min(1, value))]: [min] returns [value] only when it is strictly
    below 1, [max] returns its second argument only when it is strictly
    above 0. *)
Definition unit_clamp (value : DmxUtils.PyFloat) : DmxUtils.PyNum :=
  let m :=
    if DmxUtils.float_lt_int value 1 then DmxUtils.PyFloatV value
    else DmxUtils.PyInt 1 in
  match m with
  | DmxUtils.PyInt z => if (0 <? z)%Z then DmxUtils.PyInt z else DmxUtils.PyInt 0
  | DmxUtils.PyFloatV x =>
      if DmxUtils.float_gt_int x 0 then DmxUtils.PyFloatV x else DmxUtils.PyInt 0
  end.

Inductive DimmerResponse : Type :=
  | DimmerSet (value : DmxUtils.PyNum)
  | InvalidRequest
  | DimmerValue (value : Q) (supported : bool).

(** POST /api/manual_dimmer.  [State.set_manual_dimmer] stores the value in
    the State object, which is the one the Director was built on: the
    Director reads the new value from then on. *)
Definition set_manual_dimmer (req : DimmerRequest) (g : Globals) :
    Outcome Globals DimmerResponse :=
  match state_instance g with
  | Some st =>
      match req with
      | NoValue => Returns InvalidRequest g
      | BadValue e => Raises e g
      | Value x =>
          let value := unit_clamp x in
          Returns (DimmerSet value)
            {| state_instance :=
                 Some {| Director.mode := Director.mode st;
                         Director.vj_mode := Director.vj_mode st;
                         Director.venue := Director.venue st;
                         Director.theme := Director.theme st;
                         Director.hype := Director.hype st;
                         Director.hype_limiter := Director.hype_limiter st;
                         Director.manual_dimmer :=
                           default 0%Q (DmxUtils.num_value value) |};
               director_instance :=
                 (fun d => final_state
                    (Director.perform
                       (Director.SetManualDimmer
                          (default 0%Q (DmxUtils.num_value value))) d))
                 <$> director_instance g;
               last_hype_time := last_hype_time g |}
      end
  | None => Returns InvalidRequest g
  end.

(** GET /api/manual_dimmer; [has_manual_dimmer] is imported from
    [parrot/patch_bay.py]. *)
Definition get_manual_dimmer (has_manual_dimmer : Venue -> bool) (g : Globals) :
    DimmerResponse :=
  match state_instance g with
  | Some st => DimmerValue (Director.manual_dimmer st) (has_manual_dimmer (Director.venue st))
  | None => DimmerValue 0 false
  end.

End Model.
End WebServer.

(** ** A small rig to run the model on *)

Module Demo.

Inductive DemoSignal : Type := SustainedLow | Strobe.

Inductive DemoVenue : Type := EmptyVenue | SmallVenue.

#[global] Instance DemoSignal_eq_dec : EqDecision DemoSignal.
Proof. intros [] []; first [left; reflexivity | right; discriminate]. Defined.

Definition demo_signals : list DemoSignal := [SustainedLow; Strobe].

Lemma demo_signals_NoDup : NoDup demo_signals.
Proof.
  apply NoDup_cons; split; [|apply NoDup_singleton].
  intros Hin%list_elem_of_singleton. discriminate.
Qed.

Lemma demo_signals_all (s : DemoSignal) : s ∈ demo_signals.
Proof. destruct s; [apply list_elem_of_here|apply list_elem_of_further, list_elem_of_here]. Qed.

#[global] Instance DemoSignal_finite : Finite DemoSignal :=
  {| enum := demo_signals;
     NoDup_enum := demo_signals_NoDup;
     elem_of_enum := demo_signals_all |}.

(** Fixtures are DMX addresses, colours are numbers, an animator holds its
    target, interpreters hold nothing besides their switch. *)
#[global] Instance demo_domain : Domain :=
  {| Signal := DemoSignal;
     sustained_low := SustainedLow;
     Mode := unit;
     VJMode := unit;
     Venue := DemoVenue;
     Fixture := nat;
     Color := nat;
     Animator := nat * nat * nat;
     Behaviour := unit;
     ModeMachine := unit |}.

(** The small venue patches two pars, a laser, a group of two and a manual
    group; the empty venue patches nothing. *)
Definition demo_patch (v : DemoVenue) : list Director.PatchEntry :=
  match v with
  | EmptyVenue => []
  | SmallVenue =>
      [Director.PatchFixture 1%nat; Director.PatchFixture 2%nat;
       Director.PatchFixture 17%nat; Director.PatchGroup false [30; 31]%nat;
       Director.PatchGroup true [40]%nat]
  end.

Definition demo_isinstance (f : nat) (c : Director.FixtureClass) : bool :=
  match c with
  | Director.Par => (f <? 10)%nat
  | Director.Laser => (f =? 17)%nat
  | _ => false
  end.

(** Every interpreter of the demo registry is a signal switch that starts
    with no signal enabled. *)
Definition demo_get_interpreter (m : unit) (group : list nat)
    (args : Director.InterpreterArgs) (entropy : nat) : Director.Interpreter :=
  {| Director.responds_to := Some ∅;
     Director.has_set_enabled := true;
     Director.behaviour := tt |}.

(** The rig divides and multiplies exactly.  On the values it is run on
    below (the quotients 0/1, 100/1 and 100/600, the intensities 0 and 1)
    the doubles differ from the exact results by less than 1e-16, and no
    result is that close to 0.2 or to 1. *)
Lemma exact_div_warmup (warmup_time : Z) (r : Q) :
  (inject_Z (Z.max warmup_time 1) <= r)%Q <->
  (1 <= r / inject_Z (Z.max warmup_time 1))%Q.
Proof.
  assert (Hpos : (0 < inject_Z (Z.max warmup_time 1))%Q).
  { change 0%Q with (inject_Z 0). rewrite <- Zlt_Qlt. lia. }
  split.
  - intros Hdone. apply Qle_shift_div_l; [done|]. by rewrite Qmult_1_l.
  - intros Hle.
    apply Qmult_le_r with (z := inject_Z (Z.max warmup_time 1)) in Hle; [|done].
    rewrite Qmult_1_l in Hle.
    assert (Hnz : ~ (inject_Z (Z.max warmup_time 1) == 0)%Q).
    { intros Hz. rewrite Hz in Hpos. by apply Qlt_irrefl in Hpos. }
    by rewrite Qmult_comm, (Qmult_div_r _ _ Hnz) in Hle.
Qed.

Lemma exact_mul_1 (f : DemoSignal -> Q) (s : DemoSignal) : (f s * 1 == f s)%Q.
Proof. apply Qmult_1_r. Qed.

Definition demo_collaborators (warmup_time : Z) : Director.Collaborators :=
  {| Director.venue_patches := demo_patch;
     Director.isinstance := demo_isinstance;
     Director.color_schemes := [(1, 2, 3); (4, 5, 6)]%nat;
     Director.WARMUP_TIME := warmup_time;
     Director.lerp_new := fun s _ => s;
     Director.lerp_push := fun _ s => s;
     Director.lerp_render := fun a => a;
     Director.get_interpreter := demo_get_interpreter;
     Director.interp_step := fun _ _ o => o;
     Director.interp_exit := fun _ _ o => o;
     Director.mode_machine_deploy_hype := fun mm _ => mm;
     Director.get_manual_group := fun v =>
       match v with EmptyVenue => None | SmallVenue => Some [40%nat] end;
     Director.float_div := fun r n => (r / inject_Z n)%Q;
     Director.frame_mul := fun f k s => (f s * k)%Q;
     Director.float_div_warmup := exact_div_warmup warmup_time;
     Director.frame_mul_1 := exact_mul_1 |}.

(** WARMUP_TIME unset: the warm-up lasts one second. *)
#[global] Instance demo_rig : Director.Collaborators := demo_collaborators 1.

(** WARMUP_TIME=600: a ten-minute warm-up. *)
Definition slow_rig : Director.Collaborators := demo_collaborators 600.

Definition demo_state (v : DemoVenue) : Director.State :=
  {| Director.mode := tt;
     Director.vj_mode := tt;
     Director.venue := v;
     Director.theme :=
       {| Director.allow_rainbows := true;
          Director.color_scheme := [(7, 8, 9)]%nat |};
     Director.hype := 50;
     Director.hype_limiter := true;
     Director.manual_dimmer := 0 |}.

(** The random tape 0, 1, 2, ... *)
Definition demo_rng (n : nat) : nat := n.

(** A clock that reads 0 while the Director is built and [t] afterwards. *)
Definition clock_then (t : Q) (n : nat) : Q :=
  if (n <? 2)%nat then 0 else t.

(** A frame with every signal at [x]. *)
Definition level (x : Q) : Director.Frame := fun _ => x.

(** The attributes [__init__] starts from, for when construction raises. *)
Definition unbuilt : Director.World :=
  {| Director.scheme := (0, 0, 0)%nat;
     Director.last_shift_time := 0;
     Director.shift_count := 0;
     Director.start_time := 0;
     Director.state := demo_state EmptyVenue;
     Director.vj_director := None;
     Director.fixture_groups := [];
     Director.interpreters := [];
     Director.warmup_complete := false;
     Director.last_frame := None;
     Director.mode_machine := None;
     Director.heap := ∅;
     Director.next_loc := 0%nat;
     Director.rng_tape := demo_rng;
     Director.rng_pos := 0;
     Director.clock_tape := clock_then 0;
     Director.clock_pos := 0;
     Director.registry_calls := [];
     Director.dmx_calls := [] |}.

Definition director_of (r : Exn + Director.World) : Director.World :=
  match r with inr w => w | inl _ => unbuilt end.

(** The Director built on venue [v], with no VJ director, whose clock reads
    [t] from the first tick on. *)
Definition director_at (rig : Director.Collaborators) (v : DemoVenue) (t : Q)
    : Director.World :=
  director_of (@Director.init _ rig (demo_state v) None demo_rng (clock_then t)).

(** The same, after one tick on frame [f]. *)
Definition after_tick (rig : Director.Collaborators) (v : DemoVenue) (t : Q)
    (f : Director.Frame) : Director.World :=
  final_state (@Director.perform _ rig (Director.CallStep f) (director_at rig v t)).

(** Globals of the web server whose stored trigger time is 1000. *)
Definition triggered_at_1000 : WebServer.Globals :=
  {| WebServer.state_instance := Some (demo_state SmallVenue);
     WebServer.director_instance := Some (director_at demo_rig SmallVenue 0);
     WebServer.last_hype_time := 1000 |}.

(** A machine on which the Enttec controller answers on the hard-coded
    port. *)
Definition demo_host : DmxUtils.Host :=
  {| DmxUtils.MOCK_DMX := None;
     DmxUtils.find_entec_port := Some (Some "/dev/cu.usbserial-EN419206"%string);
     DmxUtils.connects := fun _ => true;
     DmxUtils.path_exists := fun _ => true |}.

(** The same machine with the controller unplugged: no port is found. *)
Definition unplugged_host : DmxUtils.Host :=
  {| DmxUtils.MOCK_DMX := None;
     DmxUtils.find_entec_port := Some None;
     DmxUtils.connects := fun _ => false;
     DmxUtils.path_exists := fun _ => false |}.

(** The switch controller of the venue mtn_lotus on [demo_host]. *)
Definition demo_switch : DmxUtils.SwitchController.t :=
  {| DmxUtils.SwitchController.controller_map :=
       [(DmxUtils.default, DmxUtils.Entec "/dev/cu.usbserial-EN419206" []);
        (DmxUtils.art1,
         DmxUtils.ArtNet (DmxUtils.ArtNetController.init "192.168.100.113" 0))];
     DmxUtils.SwitchController._entec_universes := {[DmxUtils.default]} |}.

(** The serial device of the default universe has gone away. *)
Definition serial_fault (u : DmxUtils.Universe)
    : option DmxUtils.SwitchController.SubmitFault :=
  match u with
  | DmxUtils.default => Some DmxUtils.SwitchController.SerialOrOSError
  | DmxUtils.art1 => None
  end.

End Demo.

(** * Properties *)

(** ** Comparisons on rationals *)

Lemma Qltb_lt (x y : Q) : Qltb x y = true <-> (x < y)%Q.
Proof.
  unfold Qltb. rewrite Qlt_alt. destruct (x ?= y)%Q; split; congruence.
Qed.

Lemma Qltb_ge (x y : Q) : Qltb x y = false <-> (y <= x)%Q.
Proof.
  rewrite <- not_true_iff_false, Qltb_lt. split.
  - apply Qnot_lt_le.
  - apply Qle_not_lt.
Qed.

Lemma Qeqb_eq (x y : Q) : Qeqb x y = true <-> (x == y)%Q.
Proof.
  unfold Qeqb. rewrite Qeq_alt. destruct (x ?= y)%Q; split; congruence.
Qed.

Lemma py_min_spec (a b : Q) :
  ((b < a)%Q /\ py_min a b = b) \/ ((a <= b)%Q /\ py_min a b = a).
Proof.
  unfold py_min. destruct (Qltb b a) eqn:E.
  - left. split; [by apply Qltb_lt|done].
  - right. split; [by apply Qltb_ge|done].
Qed.

Lemma py_max_spec (a b : Q) :
  ((a < b)%Q /\ py_max a b = b) \/ ((b <= a)%Q /\ py_max a b = a).
Proof.
  unfold py_max. destruct (Qltb a b) eqn:E.
  - left. split; [by apply Qltb_lt|done].
  - right. split; [by apply Qltb_ge|done].
Qed.

(** ** [dmx_clamp] *)

Section DmxClampFacts.
Import DmxUtils.

Lemma Qltb_comp (x x' y y' : Q) : (x == x')%Q -> (y == y')%Q -> Qltb x y = Qltb x' y'.
Proof. intros Hx Hy. unfold Qltb. by rewrite Hx, Hy. Qed.

Lemma Qtrunc_comp (x y : Q) : (x == y)%Q -> Qtrunc x = Qtrunc y.
Proof.
  intros E. unfold Qtrunc. rewrite (Qltb_comp x y 0 0 E (Qeq_refl 0)).
  destruct (Qltb y 0); [by apply Qceiling_comp|by apply Qfloor_comp].
Qed.

Lemma Qtrunc_inject_Z (z : Z) : Qtrunc (inject_Z z) = z.
Proof.
  unfold Qtrunc. destruct (Qltb _ _); [apply Qceiling_Z|apply Qfloor_Z].
Qed.

Lemma Qtrunc_byte_range (q : Q) :
  (0 <= q)%Q -> (q <= 255)%Q -> (0 <= Qtrunc q <= 255)%Z.
Proof.
  intros H0 H255. unfold Qtrunc.
  assert (Qltb q 0 = false) as -> by by apply Qltb_ge.
  split.
  - change 0%Z with (Qfloor (inject_Z 0)). by apply Qfloor_resp_le.
  - rewrite <- (Qfloor_Z 255). by apply Qfloor_resp_le.
Qed.

(** What [int] returns on the result of a saturating clamp. *)
Lemma py_int_of_value (x : PyNum) (r : Q) :
  num_value x = Some r -> py_int x = Returns (Qtrunc r) tt.
Proof.
  destruct x as [z|[| | |q]]; simpl; intros [= <-]; [|done].
  by rewrite Qtrunc_inject_Z.
Qed.

Lemma saturate_byte_range (n : PyFloat) :
  (0 <= saturate n 0 255)%Q /\ (saturate n 0 255 <= 255)%Q.
Proof.
  destruct n as [| | |q]; simpl; try (split; discriminate).
  destruct (Qltb q (inject_Z 0)) eqn:E0; [split; discriminate|].
  destruct (Qltb (inject_Z 255) q) eqn:E1; [split; discriminate|].
  apply Qltb_ge in E0, E1. done.
Qed.

(** C10. For every float [n], [dmx_clamp(n)] returns (it never raises) an
    integer between 0 and 255: 0 on NaN and on every value below 0, 255 on
    every value above 255, and the truncation of [n] when [n] is in range.
    [clamp] is any saturating clamp. *)
Theorem dmx_clamp_total_in_byte_range
    (clamp : PyFloat -> Z -> Z -> PyNum) (Hclamp : saturating clamp) (n : PyFloat) :
  exists z : Z,
    dmx_clamp clamp n = Returns z tt /\
    (0 <= z <= 255)%Z /\
    (n = FNaN -> z = 0%Z) /\
    (float_lt_int n 0 = true -> z = 0%Z) /\
    (float_gt_int n 255 = true -> z = 255%Z) /\
    (forall q, n = FFinite q -> (0 <= q)%Q -> (q <= 255)%Q -> z = Qtrunc q).
Proof.
  unfold dmx_clamp. destruct (isnan n) eqn:Hnan.
  - destruct n; try discriminate. exists 0%Z. repeat split; try done; lia.
  - destruct (Hclamp n 0%Z 255%Z Hnan) as (r & Hr & Er); [lia|].
    exists (Qtrunc r). rewrite (py_int_of_value _ _ Hr).
    rewrite (Qtrunc_comp _ _ Er).
    split; [done|]. split.
    { apply Qtrunc_byte_range; apply saturate_byte_range. }
    split; [by intros ->|].
    destruct n as [| | |q]; simpl in *; try discriminate.
    + repeat split; first [done | intros _; apply Qtrunc_inject_Z].
    + repeat split; first [done | intros _; apply Qtrunc_inject_Z].
    + split; [|split].
      * intros ->. apply Qtrunc_inject_Z.
      * intros Hgt. destruct (Qltb q (inject_Z 0)) eqn:E0.
        { apply Qltb_lt in E0, Hgt. exfalso.
          apply (Qlt_irrefl q). eapply Qlt_trans; [exact E0|].
          eapply Qlt_trans; [|exact Hgt]. reflexivity. }
        rewrite Hgt. apply Qtrunc_inject_Z.
      * intros q' [= <-] H0 H255.
        assert (Qltb q (inject_Z 0) = false) as -> by by apply Qltb_ge.
        assert (Qltb (inject_Z 255) q = false) as -> by by apply Qltb_ge.
        done.
Qed.

(** [max(lo, min(n, hi))] is a saturating clamp. *)
Lemma clamp_minmax_saturating : saturating clamp_minmax.
Proof.
  intros n lo hi Hnan Hle. unfold clamp_minmax.
  assert (Hlohi : exists r, num_value (if (lo <? hi)%Z then PyInt hi else PyInt lo) = Some r
                          /\ (r == inject_Z hi)%Q).
  { destruct (lo <? hi)%Z eqn:E; eexists; (split; [reflexivity|]); [reflexivity|].
    apply Z.ltb_ge in E. assert (lo = hi) as -> by lia. reflexivity. }
  destruct n as [| | |q]; try discriminate.
  - exact Hlohi.
  - eexists; split; reflexivity.
  - cbn [float_gt_int saturate].
    destruct (Qltb (inject_Z hi) q) eqn:Ehi.
    + assert (Qltb q (inject_Z lo) = false) as ->; [|exact Hlohi].
      apply Qltb_ge. apply Qltb_lt in Ehi. apply Qlt_le_weak.
      eapply Qle_lt_trans; [|exact Ehi]. by rewrite <- Zle_Qle.
    + cbn [float_gt_int]. destruct (Qltb (inject_Z lo) q) eqn:Elo.
      * assert (Qltb q (inject_Z lo) = false) as ->.
        { apply Qltb_ge. apply Qltb_lt in Elo. by apply Qlt_le_weak. }
        eexists; split; reflexivity.
      * destruct (Qltb q (inject_Z lo)) eqn:E; eexists; (split; [reflexivity|]).
        { reflexivity. }
        apply Qltb_ge in E, Elo. by apply Qle_antisym.
Qed.

(** C10 at 300.7, with [max(lo, min(n, hi))] for [clamp]: the result is 255. *)
Lemma dmx_clamp_witness :
  saturating clamp_minmax /\
  dmx_clamp clamp_minmax (FFinite (3007 # 10)) = Returns 255%Z tt.
Proof.
  split; [exact clamp_minmax_saturating|].
  destruct (dmx_clamp_total_in_byte_range clamp_minmax clamp_minmax_saturating
              (FFinite (3007 # 10))) as (z & Hret & _ & _ & _ & Habove & _).
  rewrite Hret. f_equal. apply Habove. reflexivity.
Defined.

End DmxClampFacts.

(** ** The hype status query *)

Section WebServerFacts.
Import WebServer.
Context `{Domain} `{!Director.Collaborators}.

(** A deployment that answers with success records the time it was served at. *)
Lemma deploy_hype_records_time (now : Q) (g g' : Globals) (r : Response) :
  deploy_hype now g = Returns r g' ->
  (r = JsonDeployed HYPE_DURATION /\ last_hype_time g' = now) \/
  (r = JsonError 500 /\ g' = g).
Proof.
  unfold deploy_hype. intros Hrun.
  destruct (state_instance g); [|right; by simplify_eq].
  destruct (director_instance g) as [d|]; [|right; by simplify_eq].
  destruct (Director.deploy_hype d); [|discriminate].
  left. by simplify_eq.
Qed.


End WebServerFacts.

(** ** The Director *)

Section DirectorFacts.
Import Director.
Context `{Domain} `{!Collaborators}.
Implicit Types (w : World) (h : gmap loc Interpreter) (i : loc).

Notation "x <- m ;; k" := (bind m (fun x => k))
  (at level 100, m at next level, k at level 200, right associativity).
Notation "m ;;; k" := (bind m (fun _ => k))
  (at level 100, k at level 200, right associativity).

(** *** Running a sequence of calls *)

Lemma bind_returns {A B} (m : M A) (k : A -> M B) w a w1 :
  m w = Returns a w1 -> bind m k w = k a w1.
Proof. unfold bind. by intros ->. Qed.

Lemma bind_raises {A B} (m : M A) (k : A -> M B) w e w1 :
  m w = Raises e w1 -> bind m k w = Raises e w1.
Proof. unfold bind. by intros ->. Qed.

Lemma bind_returns_inv {A B} (m : M A) (k : A -> M B) w b w' :
  bind m k w = Returns b w' ->
  exists a w1, m w = Returns a w1 /\ k a w1 = Returns b w'.
Proof.
  unfold bind. destruct (m w) as [a w1|e w1]; [|discriminate]. eauto.
Qed.

(** *** What a call leaves unchanged *)

Lemma keeps_bind {A B V} (view : World -> V) (m : M A) (k : A -> M B) :
  keeps view m -> (forall a, keeps view (k a)) -> keeps view (bind m k).
Proof.
  intros Hm Hk w. unfold bind. specialize (Hm w).
  destruct (m w) as [a w1|e w1]; simpl in *; [|done].
  by rewrite Hk.
Qed.

Lemma keeps_ret {A V} (view : World -> V) (a : A) : keeps view (ret a).
Proof. done. Qed.

Lemma keeps_raise {A V} (view : World -> V) (e : Exn) : keeps view (raise (A:=A) e).
Proof. done. Qed.

Lemma keeps_get {V} (view : World -> V) : keeps view get.
Proof. done. Qed.

Lemma keeps_modify {V} (view : World -> V) (f : World -> World) :
  (forall w, view (f w) = view w) -> keeps view (modify f).
Proof. intros Hf w. apply Hf. Qed.

Lemma keeps_returns {A V} (view : World -> V) (m : M A) w a w' :
  keeps view m -> m w = Returns a w' -> view w' = view w.
Proof. intros Hm Hrun. specialize (Hm w). by rewrite Hrun in Hm. Qed.

Create HintDb keeps discriminated.

(** The clock and the random generator only move their own cursor. *)

Lemma time_time_run w :
  time_time w = Returns (clock_tape w (clock_pos w)) (set_clock_pos (S (clock_pos w)) w).
Proof. done. Qed.

Lemma draw_run w :
  draw w = Returns (rng_tape w (rng_pos w)) (set_rng_pos (S (rng_pos w)) w).
Proof. done. Qed.

Lemma randint_run (a b : Z) w :
  (a <= b)%Z ->
  randint a b w =
    Returns (a + Z.of_nat (rng_tape w (rng_pos w)) mod (b - a + 1))%Z
            (set_rng_pos (S (rng_pos w)) w).
Proof.
  intros Hab. unfold randint.
  assert ((b <? a)%Z = false) as -> by lia. done.
Qed.

Lemma randint_empty (a b : Z) w :
  (b < a)%Z -> randint a b w = Raises ValueError w.
Proof.
  intros Hab. unfold randint.
  assert ((b <? a)%Z = true) as -> by lia. done.
Qed.

Lemma choice_run {A} (l : list A) w :
  l <> [] ->
  exists x, x ∈ l /\ choice l w = Returns x (set_rng_pos (S (rng_pos w)) w).
Proof.
  destruct l as [|x l]; [done|]. intros _.
  exists (nth (rng_tape w (rng_pos w) mod length (x :: l)) (x :: l) x).
  split; [|done].
  apply list_elem_of_In, nth_In, Nat.mod_upper_bound. simpl. lia.
Qed.

Lemma choice_empty {A} w : choice (@nil A) w = Raises IndexError w.
Proof. done. Qed.

Lemma keeps_time_time {V} (view : World -> V) :
  (forall n w, view (set_clock_pos n w) = view w) -> keeps view time_time.
Proof. intros Hv w. apply Hv. Qed.

Lemma keeps_draw {V} (view : World -> V) :
  (forall n w, view (set_rng_pos n w) = view w) -> keeps view draw.
Proof. intros Hv w. apply Hv. Qed.

Lemma keeps_randint {V} (view : World -> V) (a b : Z) :
  (forall n w, view (set_rng_pos n w) = view w) -> keeps view (randint a b).
Proof.
  intros Hv. unfold randint. destruct (b <? a)%Z; [apply keeps_raise|].
  apply keeps_bind; [by apply keeps_draw|intros ?; apply keeps_ret].
Qed.

Lemma keeps_choice {A V} (view : World -> V) (l : list A) :
  (forall n w, view (set_rng_pos n w) = view w) -> keeps view (choice l).
Proof.
  intros Hv. destruct l; [apply keeps_raise|].
  apply keeps_bind; [by apply keeps_draw|intros ?; apply keeps_ret].
Qed.

(** *** The registry *)

Lemma call_get_interpreter_run (group : list Fixture) (args : InterpreterArgs) w :
  call_get_interpreter group args w =
    Returns (next_loc w)
      (set_registry_calls (registry_calls w ++ [(mode (state w), group, args)])
        (set_next_loc (S (next_loc w))
          (set_heap
             (<[next_loc w :=
                  get_interpreter (mode (state w)) group args (rng_tape w (rng_pos w))]>
                (heap w))
             (set_rng_pos (S (rng_pos w)) w)))).
Proof. done. Qed.

Lemma keeps_beyond_registry_call (group : list Fixture) (args : InterpreterArgs) :
  keeps beyond_registry (call_get_interpreter group args).
Proof. intros w. by rewrite call_get_interpreter_run. Qed.

(** The list comprehension makes one registry call per group, in order, each
    on a fresh reference, and cannot raise. *)
Lemma comprehension_run (groups : list (list Fixture)) (idx : nat) w :
  exists w',
    comprehension idx groups w = Returns (seq (next_loc w) (length groups)) w' /\
    beyond_registry w' = beyond_registry w /\
    next_loc w' = (next_loc w + length groups)%nat /\
    rng_pos w' = (rng_pos w + length groups)%nat /\
    registry_calls w' =
      registry_calls w ++
      imap (fun j group => (mode (state w), group, bucket_args (state w) (idx + j))) groups /\
    (forall i, (i < next_loc w)%nat -> heap w' !! i = heap w !! i) /\
    (forall j group, groups !! j = Some group ->
       heap w' !! (next_loc w + j)%nat =
         Some (get_interpreter (mode (state w)) group (bucket_args (state w) (idx + j))
                 (rng_tape w (rng_pos w + j)%nat))).
Proof.
  revert idx w. induction groups as [|group rest IH]; intros idx w.
  - exists w. simpl. rewrite app_nil_r, !Nat.add_0_r.
    repeat split; try done.
    all: intros j g Hj; by rewrite lookup_nil in Hj.
  - cbn [comprehension]. unfold bind at 1. cbn [get].
    rewrite (bind_returns _ _ _ _ _ (call_get_interpreter_run group _ w)).
    set (w1 := set_registry_calls _ _).
    destruct (IH (S idx) w1) as (w' & Hrun & Hbr & Hnext & Hrng & Hlog & Hold & Hnew).
    exists w'. rewrite (bind_returns _ _ _ _ _ Hrun).
    split; [done|]. split; [by rewrite Hbr|].
    split; [rewrite Hnext; simpl; lia|].
    split; [rewrite Hrng; simpl; lia|].
    split.
    { rewrite Hlog. subst w1. cbn [registry_calls set_registry_calls state set_next_loc
        set_heap set_rng_pos imap]. rewrite <- app_assoc. simpl. do 2 f_equal.
      - by rewrite Nat.add_0_r.
      - apply imap_ext. intros j g _. simpl. do 2 f_equal. lia. }
    split.
    { intros i Hi. rewrite Hold by (subst w1; simpl; lia).
      subst w1. simpl. apply lookup_insert_ne. lia. }
    intros [|j] g Hj; simpl in Hj.
    + simplify_eq. rewrite !Nat.add_0_r.
      rewrite Hold by (subst w1; simpl; lia).
      subst w1. simpl. by rewrite lookup_insert_eq.
    + specialize (Hnew j g Hj). subst w1. simpl in Hnew.
      replace (next_loc w + S j)%nat with (S (next_loc w + j)) by lia.
      rewrite Hnew. do 2 f_equal; [f_equal; lia|f_equal; lia].
Qed.

Lemma beyond_registry_timing w w' :
  beyond_registry w' = beyond_registry w -> timing w' = timing w.
Proof.
  unfold beyond_registry, timing, has_vj. intros Heq.
  injection Heq; intros.
  repeat match goal with Hx : ?f w' = ?f w |- _ => rewrite Hx; clear Hx end.
  reflexivity.
Qed.

Lemma generate_interpreters_run w :
  exists w1,
    generate_interpreters w =
      Returns tt (set_interpreters (seq (next_loc w) (length (fixture_groups w))) w1) /\
    beyond_registry w1 = beyond_registry w /\
    next_loc w1 = (next_loc w + length (fixture_groups w))%nat /\
    rng_pos w1 = (rng_pos w + length (fixture_groups w))%nat /\
    registry_calls w1 =
      registry_calls w ++
      imap (fun j group => (mode (state w), group, bucket_args (state w) j))
           (fixture_groups w) /\
    (forall i, (i < next_loc w)%nat -> heap w1 !! i = heap w !! i) /\
    (forall j group, fixture_groups w !! j = Some group ->
       heap w1 !! (next_loc w + j)%nat =
         Some (get_interpreter (mode (state w)) group (bucket_args (state w) j)
                 (rng_tape w (rng_pos w + j)%nat))).
Proof.
  destruct (comprehension_run (fixture_groups w) 0 w)
    as (w1 & Hrun & Hbr & Hnext & Hrng & Hlog & Hold & Hnew).
  exists w1. split; [|done].
  unfold generate_interpreters, bind at 1. cbn [get].
  by rewrite (bind_returns _ _ _ _ _ Hrun).
Qed.

Lemma py_max_Qmax (a b : Q) : (py_max a b == Qmax a b)%Q.
Proof.
  destruct (py_max_spec a b) as [[Hlt ->]|[Hle ->]].
  - symmetry. apply Q.max_r. by apply Qlt_le_weak.
  - symmetry. by apply Q.max_l.
Qed.

Lemma py_min_Qmin (a b : Q) : (py_min a b == Qmin a b)%Q.
Proof.
  destruct (py_min_spec a b) as [[Hlt ->]|[Hle ->]].
  - symmetry. apply Q.min_r. by apply Qlt_le_weak.
  - symmetry. by apply Q.min_l.
Qed.

(** The hype bounds: the whole range without the limiter, 30 either side of
    the live hype, cut to [0, 100], with it. *)
Lemma hype_bracket_spec (st : State) :
  (hype_limiter st = false -> hype_bracket st = (0, 100)%Q) /\
  (hype_limiter st = true ->
     (fst (hype_bracket st) == Qmax 0 (hype st - 30))%Q /\
     (snd (hype_bracket st) == Qmin 100 (hype st + 30))%Q).
Proof.
  unfold hype_bracket. split; intros ->; simpl; [done|].
  split; [apply py_max_Qmax|apply py_min_Qmin].
Qed.

(** C5. [generate_interpreters] calls the registry once per fixture group, in
    order, and the arguments of the call for the group at index [idx] have
    hype [HYPE_BUCKETS[idx mod 3]] of the cycle 10, 40, 70, [allow_rainbows]
    of the active theme, and bounds [0, 100] when the hype limiter is off and
    [max(0, hype - 30), min(100, hype + 30)] of the live hype when it is on. *)
Theorem generate_interpreters_bucket_args w :
  exists w',
    generate_interpreters w = Returns tt w' /\
    registry_calls w' =
      registry_calls w ++
      imap (fun idx group => (mode (state w), group, bucket_args (state w) idx))
           (fixture_groups w) /\
    forall idx,
      args_hype (bucket_args (state w) idx) = nth (idx mod 3) [10; 40; 70]%Q 0%Q /\
      args_allow_rainbows (bucket_args (state w) idx) = allow_rainbows (theme (state w)) /\
      (hype_limiter (state w) = false ->
         args_hype_min (bucket_args (state w) idx) = 0%Q /\
         args_hype_max (bucket_args (state w) idx) = 100%Q) /\
      (hype_limiter (state w) = true ->
         (args_hype_min (bucket_args (state w) idx) == Qmax 0 (hype (state w) - 30))%Q /\
         (args_hype_max (bucket_args (state w) idx) == Qmin 100 (hype (state w) + 30))%Q).
Proof.
  destruct (generate_interpreters_run w) as (w1 & Hrun & _ & _ & _ & Hlog & _).
  eexists. split; [exact Hrun|]. split; [exact Hlog|].
  intros idx. destruct (hype_bracket_spec (state w)) as [Hoff Hon].
  split; [reflexivity|]. split; [reflexivity|]. split.
  - intros Hl. cbn [bucket_args args_hype_min args_hype_max]. by rewrite (Hoff Hl).
  - intros Hl. cbn [bucket_args args_hype_min args_hype_max]. by apply Hon.
Qed.

(** *** Frames of the simple calls *)

Ltac keeps_prim :=
  match goal with
  | |- keeps _ (choice _) => apply keeps_choice; intros; reflexivity
  | |- keeps _ (randint _ _) => apply keeps_randint; intros; reflexivity
  | |- keeps _ draw => apply keeps_draw; intros; reflexivity
  | |- keeps _ time_time => apply keeps_time_time; intros; reflexivity
  | |- keeps _ (bind _ _) => apply keeps_bind; [|intros ?]
  | |- keeps _ (ret _) => apply keeps_ret
  | |- keeps _ (raise _) => apply keeps_raise
  | |- keeps _ get => apply keeps_get
  | |- keeps _ (modify _) => apply keeps_modify; intros ?; reflexivity
  | |- keeps _ (if ?b then _ else _) => destruct b
  | |- keeps _ (match ?x with _ => _ end) => destruct x
  | |- keeps _ _ => solve [auto with keeps]
  end.

Ltac keeps_solve := repeat keeps_prim.

Lemma keeps_timing_generate_color_scheme : keeps timing generate_color_scheme.
Proof. unfold generate_color_scheme. keeps_solve. Qed.

Lemma keeps_layout_generate_color_scheme : keeps layout generate_color_scheme.
Proof. unfold generate_color_scheme. keeps_solve. Qed.

Lemma keeps_lighting_generate_color_scheme : keeps lighting generate_color_scheme.
Proof. unfold generate_color_scheme. keeps_solve. Qed.

Lemma keeps_timing_shift_color_scheme : keeps timing shift_color_scheme.
Proof. unfold shift_color_scheme. keeps_solve. Qed.

Lemma keeps_layout_shift_color_scheme : keeps layout shift_color_scheme.
Proof. unfold shift_color_scheme. keeps_solve. Qed.

Lemma keeps_lighting_shift_color_scheme : keeps lighting shift_color_scheme.
Proof. unfold shift_color_scheme. keeps_solve. Qed.

Lemma keeps_timing_for_each (f : Interpreter -> Interpreter) :
  keeps timing (for_each_interpreter f).
Proof. unfold for_each_interpreter. keeps_solve. Qed.

Lemma keeps_layout_for_each (f : Interpreter -> Interpreter) :
  keeps layout (for_each_interpreter f).
Proof. unfold for_each_interpreter. keeps_solve. Qed.

Lemma keeps_timing_vj_step (frame : Frame) (sch : ColorScheme) :
  keeps timing (vj_step frame sch).
Proof.
  intros w. unfold vj_step, modify. cbn [final_state]. unfold timing, has_vj.
  destruct (vj_director w) eqn:E; simpl; by rewrite ?E.
Qed.

Lemma keeps_layout_vj_step (frame : Frame) (sch : ColorScheme) :
  keeps layout (vj_step frame sch).
Proof. intros w. unfold vj_step, modify. cbn [final_state]. by destruct (vj_director w). Qed.

Lemma keeps_lighting_vj_step (frame : Frame) (sch : ColorScheme) :
  keeps lighting (vj_step frame sch).
Proof. intros w. unfold vj_step, modify. cbn [final_state]. by destruct (vj_director w). Qed.

Lemma keeps_layout_vj_shift (threshold : Q) : keeps layout (vj_shift threshold).
Proof. unfold vj_shift. keeps_solve. Qed.

Lemma keeps_lighting_vj_shift (threshold : Q) : keeps lighting (vj_shift threshold).
Proof. unfold vj_shift. keeps_solve. Qed.

Lemma keeps_layout_stamp_shift : keeps layout stamp_shift.
Proof. unfold stamp_shift. keeps_solve. Qed.

Lemma keeps_lighting_stamp_shift : keeps lighting stamp_shift.
Proof. unfold stamp_shift. keeps_solve. Qed.

Lemma keeps_layout_render : keeps layout render.
Proof. unfold render. keeps_solve. Qed.

Lemma keeps_layout_write_state (f : State -> State) : keeps layout (write_state f).
Proof. unfold write_state. keeps_solve. Qed.

Lemma keeps_mode_machine_group_fixtures : keeps mode_machine group_fixtures.
Proof. unfold group_fixtures. keeps_solve. Qed.

Lemma keeps_timing_call_get_interpreter (group : list Fixture) (args : InterpreterArgs) :
  keeps timing (call_get_interpreter group args).
Proof. unfold call_get_interpreter. keeps_solve. Qed.

#[local] Hint Resolve
  keeps_timing_generate_color_scheme keeps_layout_generate_color_scheme
  keeps_lighting_generate_color_scheme keeps_timing_shift_color_scheme
  keeps_layout_shift_color_scheme keeps_lighting_shift_color_scheme
  keeps_timing_for_each keeps_layout_for_each keeps_timing_vj_step
  keeps_layout_vj_step keeps_lighting_vj_step keeps_layout_vj_shift
  keeps_lighting_vj_shift keeps_layout_stamp_shift keeps_lighting_stamp_shift
  keeps_layout_render keeps_layout_write_state keeps_mode_machine_group_fixtures
  keeps_timing_call_get_interpreter : keeps.

(** The runs of the calls that cannot raise. *)

Lemma vj_shift_run (threshold : Q) w :
  exists w',
    vj_shift threshold w = Returns tt w' /\
    last_shift_time w' = last_shift_time w /\
    shift_count w' = shift_count w /\
    clock_tape w' = clock_tape w /\
    clock_pos w' = (clock_pos w + (if has_vj w then 1 else 0))%nat.
Proof.
  unfold vj_shift, bind, get, has_vj. destruct (vj_director w); simpl.
  - eexists. split; [reflexivity|]. simpl. repeat split. lia.
  - exists w. repeat split. lia.
Qed.

Lemma stamp_shift_run w :
  stamp_shift w =
    Returns tt
      (set_shift_count (S (shift_count w))
         (set_last_shift_time (clock_tape w (clock_pos w))
            (set_clock_pos (S (clock_pos w)) w))).
Proof. done. Qed.

Lemma shift_color_scheme_run w :
  color_scheme (theme (state w)) <> [] ->
  exists w', shift_color_scheme w = Returns tt w'.
Proof.
  intros Hne. unfold shift_color_scheme, bind at 1. cbn [get].
  destruct (choice_run _ w Hne) as (s & _ & Hs).
  rewrite (bind_returns _ _ _ _ _ Hs).
  rewrite (bind_returns _ _ _ _ _ (randint_run 0 2 _ ltac:(lia))).
  by eexists.
Qed.

Lemma generate_color_scheme_run w :
  color_scheme (theme (state w)) <> [] ->
  exists w', generate_color_scheme w = Returns tt w'.
Proof.
  intros Hne. unfold generate_color_scheme, bind at 1. cbn [get].
  destruct (choice_run _ w Hne) as (s & _ & Hs).
  rewrite (bind_returns _ _ _ _ _ Hs). by eexists.
Qed.

(** *** Signal coverage *)

Lemma signal_switch_set_enabled (signal : Signal) (b : bool) (o : Interpreter) :
  signal_switch (set_enabled signal b o) = signal_switch o.
Proof. unfold signal_switch, set_enabled. simpl. by destruct (responds_to o). Qed.

Lemma responds_set_enabled_same (signal : Signal) (o : Interpreter) :
  signal_switch o = true -> responds (set_enabled signal true o) signal = true.
Proof.
  unfold signal_switch, responds, set_enabled. simpl.
  destruct (responds_to o) as [d|]; [|done]. intros _. simpl.
  by rewrite lookup_insert_eq.
Qed.

Lemma responds_set_enabled_mono (signal signal' : Signal) (o : Interpreter) :
  responds o signal' = true -> responds (set_enabled signal true o) signal' = true.
Proof.
  unfold responds, set_enabled. simpl.
  destruct (responds_to o) as [d|]; [|done]. simpl.
  destruct (decide (signal = signal')) as [->|Hne].
  - by rewrite lookup_insert_eq.
  - by rewrite lookup_insert_ne.
Qed.

Lemma is_signal_switch_alter (signal : Signal) (b : bool) h i j :
  is_signal_switch (alter (set_enabled signal b) i h) j = is_signal_switch h j.
Proof.
  unfold is_signal_switch. destruct (decide (i = j)) as [->|Hne].
  - rewrite lookup_alter_eq. destruct (h !! j); simpl; [|done].
    apply signal_switch_set_enabled.
  - by rewrite lookup_alter_ne.
Qed.

Lemma responds_at_alter_mono (signal signal' : Signal) h i j :
  responds_at h signal' j = true ->
  responds_at (alter (set_enabled signal true) i h) signal' j = true.
Proof.
  unfold responds_at. destruct (decide (i = j)) as [->|Hne].
  - rewrite lookup_alter_eq. destruct (h !! j); simpl; [|done].
    apply responds_set_enabled_mono.
  - by rewrite lookup_alter_ne.
Qed.

Lemma responds_at_alter_same (signal : Signal) h i :
  is_signal_switch h i = true ->
  responds_at (alter (set_enabled signal true) i h) signal i = true.
Proof.
  unfold is_signal_switch, responds_at. rewrite lookup_alter_eq.
  destruct (h !! i); simpl; [|done]. apply responds_set_enabled_same.
Qed.

Lemma keeps_timing_enable_unhandled (switches : list loc) (signals : list Signal) :
  keeps timing (enable_unhandled switches signals).
Proof. induction signals; cbn [enable_unhandled]; keeps_solve. Qed.

Lemma keeps_layout_enable_unhandled (switches : list loc) (signals : list Signal) :
  keeps layout (enable_unhandled switches signals).
Proof. induction signals; cbn [enable_unhandled]; keeps_solve. Qed.

#[local] Hint Resolve keeps_timing_enable_unhandled keeps_layout_enable_unhandled : keeps.

Lemma keeps_timing_ensure : keeps timing ensure_each_signal_is_enabled.
Proof. unfold ensure_each_signal_is_enabled. keeps_solve. Qed.

Lemma keeps_layout_ensure : keeps layout ensure_each_signal_is_enabled.
Proof. unfold ensure_each_signal_is_enabled. keeps_solve. Qed.

#[local] Hint Resolve keeps_timing_ensure keeps_layout_ensure : keeps.

(** The repair loop returns, only ever switches signals on, and leaves every
    signal it visited handled by one of the switches. *)
Lemma enable_unhandled_run (switches : list loc) (signals : list Signal) w :
  switches <> [] ->
  (forall i, i ∈ switches -> is_signal_switch (heap w) i = true) ->
  exists w',
    enable_unhandled switches signals w = Returns tt w' /\
    (forall i, is_signal_switch (heap w') i = is_signal_switch (heap w) i) /\
    (forall i signal, responds_at (heap w) signal i = true ->
                      responds_at (heap w') signal i = true) /\
    (forall signal, signal ∈ signals ->
       exists i, i ∈ switches /\ responds_at (heap w') signal i = true).
Proof.
  intros Hne. revert w. induction signals as [|signal rest IH]; intros w Hsw.
  - exists w. repeat split; try done. intros s Hs. by apply elem_of_nil in Hs.
  - cbn [enable_unhandled]. unfold bind at 1. cbn [get].
    destruct (existsb (responds_at (heap w) signal) switches) eqn:Hany.
    + rewrite (bind_returns _ _ w tt w) by done.
      destruct (IH w Hsw) as (w' & Hrun & Hsame & Hmono & Hcov).
      exists w'. split; [done|]. split; [done|]. split; [done|].
      intros s [->|Hs]%elem_of_cons; [|by apply Hcov].
      apply existsb_exists in Hany as (i & Hi & Hr).
      exists i. split; [by apply list_elem_of_In|by apply Hmono].
    + destruct (choice_run switches w Hne) as (i & Hi & Hchoice).
      set (w1 := set_heap (alter (set_enabled signal true) i (heap w))
                   (set_rng_pos (S (rng_pos w)) w)).
      assert (Hstep : bind (choice switches)
                (fun i0 => modify (fun w' =>
                   set_heap (alter (set_enabled signal true) i0 (heap w')) w')) w
              = Returns tt w1).
      { by rewrite (bind_returns _ _ _ _ _ Hchoice). }
      rewrite (bind_returns _ _ _ _ _ Hstep).
      destruct (IH w1) as (w' & Hrun & Hsame & Hmono & Hcov).
      { intros j Hj. subst w1. simpl. rewrite is_signal_switch_alter. by apply Hsw. }
      exists w'. split; [done|]. split.
      { intros j. rewrite Hsame. subst w1. simpl. apply is_signal_switch_alter. }
      split.
      { intros j s Hr. apply Hmono. subst w1. simpl. by apply responds_at_alter_mono. }
      intros s [->|Hs]%elem_of_cons; [|by apply Hcov].
      exists i. split; [done|]. apply Hmono. subst w1. simpl.
      apply responds_at_alter_same. by apply Hsw.
Qed.

Lemma has_signal_switch_filter w :
  has_signal_switch w <-> List.filter (is_signal_switch (heap w)) (interpreters w) <> [].
Proof.
  split.
  - intros (i & o & Hi & Ho & Hs) Hnil.
    assert (In i (List.filter (is_signal_switch (heap w)) (interpreters w))) as Hin.
    { apply filter_In. split; [by apply list_elem_of_In|].
      unfold is_signal_switch. by rewrite Ho. }
    by rewrite Hnil in Hin.
  - destruct (List.filter _ _) as [|i l] eqn:Hf; [done|]. intros _.
    assert (In i (List.filter (is_signal_switch (heap w)) (interpreters w))) as Hin.
    { rewrite Hf. by left. }
    apply filter_In in Hin as [Hi Hs]. unfold is_signal_switch in Hs.
    destruct (heap w !! i) as [o|] eqn:Ho; [|done].
    exists i, o. split; [by apply list_elem_of_In|done].
Qed.

Lemma covered_of_responds_at w i signal :
  i ∈ interpreters w ->
  is_signal_switch (heap w) i = true ->
  responds_at (heap w) signal i = true ->
  covered w signal.
Proof.
  unfold is_signal_switch, responds_at. intros Hi Hs Hr.
  destruct (heap w !! i) as [o|] eqn:Ho; [|done]. by exists i, o.
Qed.

Lemma coveredb_covered w signal : coveredb w signal = true <-> covered w signal.
Proof.
  unfold coveredb. rewrite existsb_exists. split.
  - intros (i & Hi & [Hs Hr]%andb_true_iff).
    apply (covered_of_responds_at w i); [by apply list_elem_of_In|done..].
  - intros (i & o & Hi & Ho & Hs & Hr). exists i.
    split; [by apply list_elem_of_In|].
    unfold is_signal_switch, responds_at. rewrite Ho. by rewrite Hs, Hr.
Qed.

(** The coverage guarantor always returns; it is a no-op without a signal
    switch, and leaves every signal handled when there is one. *)
Lemma ensure_run w :
  exists w',
    ensure_each_signal_is_enabled w = Returns tt w' /\
    interpreters w' = interpreters w /\
    (forall i, is_signal_switch (heap w') i = is_signal_switch (heap w) i) /\
    (has_signal_switch w -> all_covered w') /\
    (~ has_signal_switch w -> w' = w).
Proof.
  unfold ensure_each_signal_is_enabled, bind at 1. cbn [get].
  destruct (List.filter (is_signal_switch (heap w)) (interpreters w)) as [|i0 l] eqn:Hf.
  - exists w. repeat split; try done.
    intros Hsw%has_signal_switch_filter. by rewrite Hf in Hsw.
  - assert (Hall : forall i, i ∈ i0 :: l ->
                     i ∈ interpreters w /\ is_signal_switch (heap w) i = true).
    { intros i Hi. rewrite <- Hf in Hi. apply list_elem_of_In, filter_In in Hi.
      by rewrite <- list_elem_of_In in Hi. }
    destruct (enable_unhandled_run (i0 :: l) (enum Signal) w)
      as (w' & Hrun & Hsame & Hmono & Hcov); [done|by intros i Hi; apply Hall|].
    assert (Hlist : interpreters w' = interpreters w).
    { pose proof (keeps_returns layout _ _ _ _
                    (keeps_layout_enable_unhandled (i0 :: l) (enum Signal)) Hrun) as Hl.
      unfold layout in Hl. by injection Hl. }
    exists w'. split; [done|]. split; [done|]. split; [done|]. split.
    + intros _ signal.
      destruct (Hcov signal (elem_of_enum signal)) as (i & Hi & Hr).
      apply (covered_of_responds_at w' i); [|by rewrite Hsame; apply Hall|done].
      rewrite Hlist. by apply Hall.
    + intros Hno. exfalso. apply Hno. apply has_signal_switch_filter. by rewrite Hf.
Qed.

Lemma has_signal_switch_ext w w' :
  interpreters w' = interpreters w ->
  (forall i, is_signal_switch (heap w') i = is_signal_switch (heap w) i) ->
  has_signal_switch w' <-> has_signal_switch w.
Proof.
  intros Hl Hs. rewrite !has_signal_switch_filter, Hl.
  by rewrite (filter_ext _ _ Hs).
Qed.

Lemma lighting_covered w w' signal :
  lighting w' = lighting w -> covered w signal -> covered w' signal.
Proof. unfold lighting, covered. intros [= -> ->]. done. Qed.

Lemma lighting_has_signal_switch w w' :
  lighting w' = lighting w -> has_signal_switch w' -> has_signal_switch w.
Proof. unfold lighting, has_signal_switch. intros [= -> ->]. done. Qed.

Lemma ensure_then_stamp_covered w2 w' :
  (ensure_each_signal_is_enabled ;;; vj_shift (3 # 10) ;;; stamp_shift) w2 = Returns tt w' \/
  (ensure_each_signal_is_enabled ;;; stamp_shift) w2 = Returns tt w' ->
  has_signal_switch w' -> all_covered w'.
Proof.
  destruct (ensure_run w2) as (w3 & Hens & Hlist & Hsame & Hcov & _).
  intros Hrun Hsw.
  assert (Hl : lighting w' = lighting w3).
  { destruct Hrun as [Hrun|Hrun]; rewrite (bind_returns _ _ _ _ _ Hens) in Hrun.
    - apply bind_returns_inv in Hrun as ([] & w4 & Hvj & Hst).
      rewrite (keeps_returns lighting _ _ _ _ keeps_lighting_stamp_shift Hst).
      apply (keeps_returns lighting _ _ _ _ (keeps_lighting_vj_shift _) Hvj).
    - apply (keeps_returns lighting _ _ _ _ keeps_lighting_stamp_shift Hrun). }
  intros signal. apply (lighting_covered w3 w' signal Hl). apply Hcov.
  apply (has_signal_switch_ext w2 w3 Hlist Hsame).
  by apply (lighting_has_signal_switch w3 w').
Qed.

(** C1. After [shift()] or [shift_lighting_only()] returns, every signal is
    handled by some interpreter carrying the signal-switch capability,
    provided the list has such an interpreter; and the coverage guarantor
    itself always returns, changing nothing when there is none. *)
Theorem shift_leaves_every_signal_covered w :
  (forall w',
     shift w = Returns tt w' \/ shift_lighting_only w = Returns tt w' ->
     has_signal_switch w' -> all_covered w') /\
  (exists w1,
     ensure_each_signal_is_enabled w = Returns tt w1 /\
     (has_signal_switch w -> all_covered w1) /\
     (~ has_signal_switch w -> w1 = w)).
Proof.
  split.
  - intros w' [Hshift|Hfull].
    + unfold shift in Hshift.
      apply bind_returns_inv in Hshift as ([] & w1 & _ & Hshift).
      apply bind_returns_inv in Hshift as ([] & w2 & _ & Hshift).
      apply (ensure_then_stamp_covered w2). by left.
    + unfold shift_lighting_only in Hfull.
      apply bind_returns_inv in Hfull as ([] & w1 & _ & Hfull).
      apply bind_returns_inv in Hfull as (w1' & w1'' & _ & Hfull).
      apply bind_returns_inv in Hfull as (created & w2 & _ & Hfull).
      apply bind_returns_inv in Hfull as ([] & w3 & _ & Hfull).
      apply (ensure_then_stamp_covered w3). by right.
  - destruct (ensure_run w) as (w1 & Hens & _ & _ & Hcov & Hnoop).
    by exists w1.
Qed.

(** *** The single-group reshuffle *)

Lemma keeps_timing_shift_interpreter : keeps timing shift_interpreter.
Proof. unfold shift_interpreter. keeps_solve. Qed.

#[local] Hint Resolve keeps_timing_shift_interpreter : keeps.

Lemma eviction_index_of_draw (r len : nat) :
  len <> 0%nat ->
  Z.to_nat (0 + Z.of_nat r mod (Z.of_nat len - 1 - 0 + 1)) = (r mod len)%nat.
Proof.
  intros Hlen. replace (Z.of_nat len - 1 - 0 + 1)%Z with (Z.of_nat len) by lia.
  rewrite Z.add_0_l, <- Nat2Z.inj_mod. apply Nat2Z.id.
Qed.

(** On an empty list [random.randint(0, -1)] raises before anything changes. *)
Lemma shift_interpreter_empty w :
  interpreters w = [] -> shift_interpreter w = Raises ValueError w.
Proof.
  intros Hnil. unfold shift_interpreter, bind at 1. cbn [get].
  rewrite Hnil.
  erewrite bind_raises; [reflexivity|]. apply randint_empty. simpl. lia.
Qed.

(** On a non-empty list laid out against the fixture groups the reshuffle
    returns, and this is the world it leaves. *)
Lemma shift_interpreter_run w :
  interpreters w <> [] ->
  one_per_group w ->
  let k := (rng_tape w (rng_pos w) mod length (interpreters w))%nat in
  exists group,
    fixture_groups w !! k = Some group /\
    shift_interpreter w =
      Returns tt
        (set_interpreters (<[k := next_loc w]> (interpreters w))
           (set_registry_calls
              (registry_calls w ++ [(mode (state w), group, live_args (state w))])
              (set_next_loc (S (next_loc w))
                 (set_heap
                    (<[next_loc w :=
                         get_interpreter (mode (state w)) group (live_args (state w))
                           (rng_tape w (S (rng_pos w)))]> (heap w))
                    (set_rng_pos (S (S (rng_pos w))) w))))).
Proof.
  intros Hne Hlen k.
  assert (Hpos : length (interpreters w) <> 0%nat).
  { by destruct (interpreters w). }
  assert (Hk : (k < length (interpreters w))%nat).
  { subst k. by apply Nat.mod_upper_bound. }
  destruct (lookup_lt_is_Some_2 (fixture_groups w) k) as [group Hgroup].
  { unfold one_per_group in Hlen. lia. }
  exists group. split; [done|].
  unfold shift_interpreter, bind at 1. cbn [get].
  rewrite (bind_returns _ _ _ _ _
             (randint_run 0 (Z.of_nat (length (interpreters w)) - 1) w ltac:(lia))).
  rewrite (eviction_index_of_draw _ _ Hpos). fold k. rewrite Hgroup.
  rewrite (bind_returns _ _ _ _ _ (call_get_interpreter_run group _ _)).
  apply Nat.ltb_lt in Hk. rewrite Hk. done.
Qed.

Lemma shift_interpreter_consistent : maintains consistent shift_interpreter.
Proof.
  intros w (Hlen & Halloc & Hmm).
  destruct (interpreters w) as [|i0 l] eqn:Hl.
  - rewrite shift_interpreter_empty by done. by cbn [final_state].
  - destruct (shift_interpreter_run w) as (group & Hgroup & Hrun); [by rewrite Hl|done|].
    rewrite Hrun. cbn [final_state]. split; [|split].
    + unfold one_per_group in *. simpl. by rewrite length_insert.
    + intros i. simpl. intros Hi.
      apply list_elem_of_lookup in Hi as [j Hj].
      destruct (decide (j = rng_tape w (rng_pos w) mod length (interpreters w))%nat)
        as [->|Hne].
      * rewrite list_lookup_insert_eq in Hj.
        { simplify_eq. lia. }
        apply Nat.mod_upper_bound. by rewrite Hl.
      * rewrite list_lookup_insert_ne in Hj by done.
        assert (i < next_loc w)%nat; [|lia].
        apply Halloc. by eapply list_elem_of_lookup_2.
    + done.
Qed.

(** *** The invariants *)

Lemma maintains_bind {A B} (I : World -> Prop) (m : M A) (k : A -> M B) :
  maintains I m -> (forall a, maintains I (k a)) -> maintains I (bind m k).
Proof.
  intros Hm Hk w Hw. unfold bind. specialize (Hm w Hw).
  destruct (m w) as [a w1|e w1]; simpl in *; [|done].
  by apply Hk.
Qed.

Lemma consistent_layout w w' : layout w' = layout w -> consistent w -> consistent w'.
Proof.
  unfold layout, consistent, one_per_group, allocated.
  intros [= -> -> -> ->]. done.
Qed.

Lemma keeps_layout_maintains {A} (m : M A) : keeps layout m -> maintains consistent m.
Proof. intros Hm w Hw. by apply (consistent_layout w), Hw. Qed.

Lemma generate_interpreters_consistent w :
  mode_machine w = None -> consistent (final_state (generate_interpreters w)).
Proof.
  intros Hmm.
  destruct (generate_interpreters_run w) as (w1 & -> & Hbr & Hnext & _).
  unfold beyond_registry in Hbr. injection Hbr; intros.
  cbn [final_state]. split; [|split].
  - unfold one_per_group. simpl. rewrite length_seq. congruence.
  - intros i. simpl. rewrite Hnext. intros Hi%list_elem_of_In%in_seq. lia.
  - simpl. congruence.
Qed.

Lemma generate_all_consistent w :
  mode_machine w = None -> consistent (final_state (generate_all w)).
Proof.
  intros Hmm. pose proof (generate_interpreters_consistent w Hmm) as Hgen.
  unfold generate_all, bind.
  destruct (generate_interpreters w) as [[] w1|e w1]; simpl in *; [|done].
  by apply (keeps_layout_maintains _ (keeps_layout_vj_shift 1)).
Qed.

Lemma group_fixtures_run w :
  exists groups, group_fixtures w = Returns tt (set_fixture_groups groups w).
Proof. unfold group_fixtures, bind, get, modify. cbv zeta. eexists. reflexivity. Qed.

Lemma setup_patch_consistent w :
  mode_machine w = None -> consistent (final_state (setup_patch w)).
Proof.
  intros Hmm. destruct (group_fixtures_run w) as [groups Hrun].
  unfold setup_patch. rewrite (bind_returns _ _ _ _ _ Hrun).
  by apply generate_all_consistent.
Qed.

Create HintDb maintains discriminated.

Ltac maintains_prim :=
  match goal with
  | |- maintains _ (bind _ _) => apply maintains_bind; [|intros ?]
  | |- maintains _ (if ?b then _ else _) => destruct b
  | |- maintains _ (match ?x with _ => _ end) => destruct x
  | |- maintains consistent _ =>
      first [ solve [auto with maintains]
            | apply keeps_layout_maintains; solve [keeps_solve] ]
  end.

Ltac maintains_solve := repeat maintains_prim.

Lemma generate_interpreters_maintains : maintains consistent generate_interpreters.
Proof. intros w (_ & _ & Hmm). by apply generate_interpreters_consistent. Qed.

Lemma setup_patch_maintains : maintains consistent setup_patch.
Proof. intros w (_ & _ & Hmm). by apply setup_patch_consistent. Qed.

Lemma generate_all_maintains : maintains consistent generate_all.
Proof. intros w (_ & _ & Hmm). by apply generate_all_consistent. Qed.

#[local] Hint Resolve shift_interpreter_consistent generate_interpreters_maintains
  setup_patch_maintains generate_all_maintains : maintains.

Lemma shift_maintains : maintains consistent shift.
Proof. unfold shift. maintains_solve. Qed.

#[local] Hint Resolve shift_maintains : maintains.

(** [shift_lighting_only] repeats the body of [generate_interpreters]. *)
Lemma shift_lighting_only_unfold w :
  shift_lighting_only w =
    (generate_color_scheme ;;; generate_interpreters ;;;
     ensure_each_signal_is_enabled ;;; stamp_shift) w.
Proof.
  unfold shift_lighting_only, generate_interpreters, bind, get.
  destruct (generate_color_scheme w) as [[] w1|e w1]; [|done].
  destruct (comprehension 0 (fixture_groups w1) w1) as [created w2|e w2]; done.
Qed.

Lemma shift_lighting_only_maintains : maintains consistent shift_lighting_only.
Proof.
  intros w Hw. rewrite shift_lighting_only_unfold. revert w Hw.
  change (maintains consistent
            (generate_color_scheme ;;; generate_interpreters ;;;
             ensure_each_signal_is_enabled ;;; stamp_shift)).
  maintains_solve.
Qed.

Lemma step_maintains (frame : Frame) : maintains consistent (step frame).
Proof. unfold step. maintains_solve. Qed.

(** Nothing ever stores a [mode_machine]: [deploy_hype] raises at once. *)
Lemma deploy_hype_without_mode_machine w :
  mode_machine w = None -> deploy_hype w = Raises AttributeError w.
Proof. intros Hmm. unfold deploy_hype, bind, get. by rewrite Hmm. Qed.

Lemma deploy_hype_maintains : maintains consistent deploy_hype.
Proof.
  intros w Hw. rewrite deploy_hype_without_mode_machine; [done|]. apply Hw.
Qed.

#[local] Hint Resolve shift_lighting_only_maintains step_maintains
  deploy_hype_maintains : maintains.

Lemma perform_maintains (c : Call) : maintains consistent (perform c).
Proof.
  destruct c; cbn [perform];
    unfold shift_vj_only, on_mode_change; maintains_solve.
Qed.

Lemma init_consistent st vj rng clock w :
  init st vj rng clock = inr w -> consistent w.
Proof.
  unfold init. destruct color_schemes as [|c l]; [done|].
  set (w0 := Build_World _ _ _ _ _ _ _ _ _ _ _ _ _ _ _ _ _ _ _).
  intros Hinit.
  pose proof (setup_patch_consistent w0 eq_refl) as Hsetup.
  assert (Hrest : maintains consistent
            (generate_color_scheme ;;; modify (set_warmup_complete false)))
    by maintains_solve.
  unfold bind in Hinit at 1.
  destruct (setup_patch w0) as [[] w1|e w1]; simpl in Hsetup; [|done].
  cbv beta in Hinit. specialize (Hrest w1 Hsetup).
  destruct ((generate_color_scheme ;;; modify (set_warmup_complete false)) w1)
    as [[] w2|e w2]; [|done].
  simpl in Hrest. by simplify_eq.
Qed.

(** Every Director the program can observe has one interpreter per fixture
    group, refers only to objects the registry made, and has no
    [mode_machine]. *)
Lemma reachable_consistent w : reachable w -> consistent w.
Proof.
  induction 1 as [st vj rng clock w Hinit|c w _ IH].
  - by eapply init_consistent.
  - by apply perform_maintains.
Qed.

(** *** One interpreter per fixture group *)

Lemma generate_interpreters_one_per_group w :
  exists w', generate_interpreters w = Returns tt w' /\ one_per_group w'.
Proof.
  destruct (generate_interpreters_run w) as (w1 & Hrun & Hbr & _).
  eexists. split; [exact Hrun|].
  unfold beyond_registry in Hbr. injection Hbr; intros.
  unfold one_per_group. simpl. rewrite length_seq. congruence.
Qed.

Lemma one_per_group_layout w w' :
  layout w' = layout w -> one_per_group w -> one_per_group w'.
Proof. unfold layout, one_per_group. intros [= -> -> _ _]. done. Qed.

Lemma shift_lighting_only_one_per_group w w' :
  shift_lighting_only w = Returns tt w' -> one_per_group w'.
Proof.
  rewrite shift_lighting_only_unfold. intros Hrun.
  apply bind_returns_inv in Hrun as ([] & w1 & _ & Hrun).
  apply bind_returns_inv in Hrun as ([] & w2 & Hgen & Hrun).
  destruct (generate_interpreters_one_per_group w1) as (w2' & Hgen' & Hlen).
  rewrite Hgen in Hgen'. simplify_eq.
  apply bind_returns_inv in Hrun as ([] & w3 & Hens & Hst).
  apply (one_per_group_layout w3); [by apply (keeps_returns layout _ _ _ _ keeps_layout_stamp_shift Hst)|].
  apply (one_per_group_layout w2'); [by apply (keeps_returns layout _ _ _ _ keeps_layout_ensure Hens)|].
  done.
Qed.

Lemma shift_lighting_only_run w :
  color_scheme (theme (state w)) <> [] ->
  exists w', shift_lighting_only w = Returns tt w'.
Proof.
  intros Hne. rewrite shift_lighting_only_unfold.
  destruct (generate_color_scheme_run w Hne) as (w1 & Hgcs).
  destruct (generate_interpreters_one_per_group w1) as (w2 & Hgen & _).
  destruct (ensure_run w2) as (w3 & Hens & _).
  rewrite (bind_returns _ _ _ _ _ Hgcs), (bind_returns _ _ _ _ _ Hgen),
    (bind_returns _ _ _ _ _ Hens), stamp_shift_run.
  by eexists.
Qed.

(** C3. After [generate_interpreters()], whatever the mode and the fixture
    groups, and after [shift_lighting_only()], the list has exactly one
    interpreter per fixture group; [shift_interpreter()] keeps it so; hence
    it holds of every Director the program can observe.  The second and third
    call return when the theme has a candidate scheme, respectively when the
    list is not empty. *)
Theorem one_interpreter_per_fixture_group w :
  (exists w', generate_interpreters w = Returns tt w' /\ one_per_group w') /\
  (forall w', shift_lighting_only w = Returns tt w' -> one_per_group w') /\
  (color_scheme (theme (state w)) <> [] ->
     exists w', shift_lighting_only w = Returns tt w') /\
  (one_per_group w ->
     (forall w', shift_interpreter w = Returns tt w' -> one_per_group w') /\
     (interpreters w <> [] -> exists w', shift_interpreter w = Returns tt w')) /\
  (reachable w -> one_per_group w).
Proof.
  split; [apply generate_interpreters_one_per_group|].
  split; [apply shift_lighting_only_one_per_group|].
  split; [apply shift_lighting_only_run|].
  split.
  - intros Hlen. split.
    + intros w' Hrun.
      destruct (interpreters w) as [|i0 l] eqn:Hl.
      { by rewrite shift_interpreter_empty in Hrun. }
      destruct (shift_interpreter_run w) as (group & _ & Hrun'); [by rewrite Hl|done|].
      rewrite Hrun' in Hrun. simplify_eq.
      unfold one_per_group in *. simpl. by rewrite length_insert.
    + intros Hne. destruct (shift_interpreter_run w Hne Hlen) as (group & _ & Hrun).
      by eexists.
  - intros Hr. by apply reachable_consistent.
Qed.

(** *** The single-group reshuffle replaces one entry *)

(** C6. On a non-empty list, [shift_interpreter()] returns; it stores a new
    object at the index [k] drawn by [random.randint(0, len - 1)] (the draw
    reduced modulo the length, so every index can come up) and leaves every
    other entry, and every object already in the list, as it was; the new
    interpreter is requested for group [k] with the live hype and the bounds
    recomputed from it. *)
Theorem shift_interpreter_replaces_one_entry w :
  reachable w ->
  interpreters w <> [] ->
  let k := (rng_tape w (rng_pos w) mod length (interpreters w))%nat in
  exists group w',
    shift_interpreter w = Returns tt w' /\
    (k < length (interpreters w))%nat /\
    (forall j, (j < length (interpreters w))%nat -> rng_tape w (rng_pos w) = j -> k = j) /\
    fixture_groups w !! k = Some group /\
    interpreters w' = <[k := next_loc w]> (interpreters w) /\
    interpreters w' !! k = Some (next_loc w) /\
    (next_loc w ∉ interpreters w) /\
    (forall j, j <> k -> interpreters w' !! j = interpreters w !! j) /\
    (forall i, i ∈ interpreters w -> heap w' !! i = heap w !! i) /\
    heap w' !! next_loc w =
      Some (get_interpreter (mode (state w)) group (live_args (state w))
              (rng_tape w (S (rng_pos w)))) /\
    registry_calls w' =
      registry_calls w ++ [(mode (state w), group, live_args (state w))] /\
    args_hype (live_args (state w)) = hype (state w) /\
    args_allow_rainbows (live_args (state w)) = allow_rainbows (theme (state w)) /\
    (hype_limiter (state w) = false ->
       args_hype_min (live_args (state w)) = 0%Q /\
       args_hype_max (live_args (state w)) = 100%Q) /\
    (hype_limiter (state w) = true ->
       (args_hype_min (live_args (state w)) == Qmax 0 (hype (state w) - 30))%Q /\
       (args_hype_max (live_args (state w)) == Qmin 100 (hype (state w) + 30))%Q).
Proof.
  intros Hreach Hne k.
  destruct (reachable_consistent w Hreach) as (Hlen & Halloc & _).
  destruct (shift_interpreter_run w Hne Hlen) as (group & Hgroup & Hrun).
  fold k in Hgroup, Hrun.
  assert (Hk : (k < length (interpreters w))%nat).
  { subst k. apply Nat.mod_upper_bound. by destruct (interpreters w). }
  exists group. eexists. split; [exact Hrun|].
  split; [done|].
  split. { intros j Hj Hdraw. subst k. rewrite Hdraw. by apply Nat.mod_small. }
  split; [done|]. split; [done|].
  split. { simpl. by apply list_lookup_insert_eq. }
  split. { intros Hin. apply Halloc in Hin. lia. }
  split. { intros j Hj. simpl. by apply list_lookup_insert_ne. }
  split.
  { intros i Hi. simpl. apply lookup_insert_ne. apply Halloc in Hi. lia. }
  split. { simpl. by apply lookup_insert_eq. }
  split; [done|]. split; [done|]. split; [done|].
  destruct (hype_bracket_spec (state w)) as [Hoff Hon].
  split.
  - intros Hl. cbn [live_args args_hype_min args_hype_max]. by rewrite (Hoff Hl).
  - intros Hl. cbn [live_args args_hype_min args_hype_max]. by apply Hon.
Qed.

(** *** The tick and the scheduled shift *)

(** A tick, up to the gate: two clock readings, and nothing that the gate or
    the shift depends on has changed. *)
Lemma step_before_gate (frame : Frame) w :
  let t := clock_tape w (clock_pos w) in
  let now := clock_tape w (S (clock_pos w)) in
  let sch := lerp_render (scheme w) in
  let scaled := frame_mul frame (warmup_phase_of (t - start_time w)) in
  exists w6,
    step frame w =
      (if shift_due now (last_shift_time w) scaled
       then (for_each_interpreter (interp_exit scaled sch) ;;; shift) w6
       else Returns tt w6) /\
    last_shift_time w6 = last_shift_time w /\
    shift_count w6 = shift_count w /\
    clock_tape w6 = clock_tape w /\
    clock_pos w6 = S (S (clock_pos w)) /\
    has_vj w6 = has_vj w /\
    state w6 = state w /\
    layout w6 = layout w /\
    last_frame w6 = Some frame.
Proof.
  intros t now sch scaled. subst t now sch scaled.
  unfold step, bind, modify, get, time_time, for_each_interpreter, vj_step, ret.
  cbn [last_frame set_last_frame scheme start_time clock_tape clock_pos
       set_clock_pos warmup_complete].
  destruct (Qeqb _ 1 && negb (warmup_complete w));
    unfold has_vj; destruct (vj_director w) eqn:Hvj;
    cbn; rewrite ?Hvj; cbn;
    destruct (shift_due _ _ _);
    (eexists; split; [reflexivity|]); cbn; rewrite ?Hvj; done.
Qed.

Lemma shift_due_spec (now last : Q) (frame : Frame) :
  shift_due now last frame = true <->
  (SHIFT_AFTER < now - last)%Q /\ (frame sustained_low < 1 # 5)%Q.
Proof. unfold shift_due. by rewrite andb_true_iff, !Qltb_lt. Qed.

Lemma shift_due_signal_high (now last : Q) (frame : Frame) :
  (1 # 5 <= frame sustained_low)%Q -> shift_due now last frame = false.
Proof.
  intros Hhigh. unfold shift_due. apply andb_false_iff. right. by apply Qltb_ge.
Qed.

Lemma WARMUP_SECONDS_pos : (0 < inject_Z WARMUP_SECONDS)%Q.
Proof.
  change 0%Q with (inject_Z 0). rewrite <- Zlt_Qlt. unfold WARMUP_SECONDS. lia.
Qed.

(** Once the warm-up time has passed the frame is passed on as it is. *)
Lemma warmup_complete_frame (frame : Frame) (run_time : Q) (signal : Signal) :
  (inject_Z WARMUP_SECONDS <= run_time)%Q ->
  (frame_mul frame (warmup_phase_of run_time) signal == frame signal)%Q.
Proof.
  intros Hdone. unfold warmup_phase_of.
  destruct (py_min_spec 1 (float_div run_time WARMUP_SECONDS)) as [[Hlt _]|[_ ->]].
  - exfalso. apply (Qlt_not_le _ _ Hlt). by apply float_div_warmup.
  - apply frame_mul_1.
Qed.

Lemma timing_fields w w' :
  timing w' = timing w ->
  last_shift_time w' = last_shift_time w /\ shift_count w' = shift_count w /\
  clock_tape w' = clock_tape w /\ clock_pos w' = clock_pos w /\
  has_vj w' = has_vj w /\ state w' = state w.
Proof. unfold timing. intros Heq. injection Heq; intros. done. Qed.

Lemma layout_fields w w' :
  layout w' = layout w ->
  interpreters w' = interpreters w /\ fixture_groups w' = fixture_groups w.
Proof. unfold layout. intros Heq. injection Heq; intros. done. Qed.

(** A combined shift on a non-empty list returns, counts once and stamps the
    clock reading taken after the VJ director's own. *)
Lemma shift_run w :
  interpreters w <> [] ->
  one_per_group w ->
  color_scheme (theme (state w)) <> [] ->
  exists w',
    shift w = Returns tt w' /\
    shift_count w' = S (shift_count w) /\
    last_shift_time w' = clock_tape w (clock_pos w + (if has_vj w then 1 else 0))%nat.
Proof.
  intros Hne Hlen Hth.
  destruct (shift_color_scheme_run w Hth) as (w1 & Hcs).
  destruct (timing_fields _ _ (keeps_returns timing _ _ _ _ keeps_timing_shift_color_scheme Hcs))
    as (Hl1 & Hc1 & Ht1 & Hp1 & Hv1 & Hs1).
  pose proof (keeps_returns layout _ _ _ _ keeps_layout_shift_color_scheme Hcs) as Hlay1.
  destruct (layout_fields _ _ Hlay1) as [Hi1 Hg1].
  destruct (shift_interpreter_run w1) as (group & _ & Hsi).
  { by rewrite Hi1. }
  { by apply (one_per_group_layout w). }
  match type of Hsi with _ = Returns tt ?x => set (w2 := x) in Hsi end.
  destruct (timing_fields _ _ (keeps_returns timing _ _ _ _ keeps_timing_shift_interpreter Hsi))
    as (Hl2 & Hc2 & Ht2 & Hp2 & Hv2 & Hs2).
  destruct (ensure_run w2) as (w3 & Hens & _).
  destruct (timing_fields _ _ (keeps_returns timing _ _ _ _ keeps_timing_ensure Hens))
    as (Hl3 & Hc3 & Ht3 & Hp3 & Hv3 & Hs3).
  destruct (vj_shift_run (3 # 10) w3) as (w4 & Hvj & Hl4 & Hc4 & Ht4 & Hp4).
  eexists. split.
  { unfold shift.
    rewrite (bind_returns _ _ _ _ _ Hcs), (bind_returns _ _ _ _ _ Hsi),
      (bind_returns _ _ _ _ _ Hens), (bind_returns _ _ _ _ _ Hvj).
    apply stamp_shift_run. }
  simpl. split; [congruence|].
  rewrite Ht4, Hp4, Ht3, Hp3, Hv3, Ht2, Hp2, Hv2, Ht1, Hp1, Hv1. done.
Qed.

(** On an empty list the combined shift raises in [shift_interpreter], before
    the count and the time of the last shift are written. *)
Lemma shift_empty_raises w :
  interpreters w = [] ->
  color_scheme (theme (state w)) <> [] ->
  exists w', shift w = Raises ValueError w' /\ timing w' = timing w /\ layout w' = layout w.
Proof.
  intros Hnil Hth.
  destruct (shift_color_scheme_run w Hth) as (w1 & Hcs).
  pose proof (keeps_returns timing _ _ _ _ keeps_timing_shift_color_scheme Hcs) as Ht.
  pose proof (keeps_returns layout _ _ _ _ keeps_layout_shift_color_scheme Hcs) as Hl.
  exists w1. split; [|done].
  unfold shift. rewrite (bind_returns _ _ _ _ _ Hcs).
  apply bind_raises, shift_interpreter_empty.
  destruct (layout_fields _ _ Hl) as [-> _]. done.
Qed.

(** C4 (amended). In a tick the scheduled shift is attempted exactly when the
    second clock reading is more than SHIFT_AFTER past [last_shift_time] and
    the sustained-low intensity of the frame, scaled by the warm-up phase as
    the code computes it in floating point, is below 0.2 (the frame's own
    intensity once the warm-up time has passed).
    While that intensity is at least 0.2 the tick returns with [shift_count]
    and [last_shift_time] untouched, however much time has passed.  When the
    shift is due and the interpreter list is not empty, the tick returns with
    [shift_count] incremented once and [last_shift_time] set to the clock
    reading taken at the end of the shift. *)
Theorem scheduled_shift_gate (frame : Frame) w :
  let t := clock_tape w (clock_pos w) in
  let now := clock_tape w (S (clock_pos w)) in
  let scaled := frame_mul frame (warmup_phase_of (t - start_time w)) in
  (shift_due now (last_shift_time w) scaled = true <->
     (SHIFT_AFTER < now - last_shift_time w)%Q /\ (scaled sustained_low < 1 # 5)%Q) /\
  ((inject_Z WARMUP_SECONDS <= t - start_time w)%Q ->
     (scaled sustained_low == frame sustained_low)%Q) /\
  (shift_due now (last_shift_time w) scaled = false ->
     exists w',
       step frame w = Returns tt w' /\
       shift_count w' = shift_count w /\
       last_shift_time w' = last_shift_time w) /\
  ((1 # 5 <= scaled sustained_low)%Q ->
     exists w',
       step frame w = Returns tt w' /\
       shift_count w' = shift_count w /\
       last_shift_time w' = last_shift_time w) /\
  (shift_due now (last_shift_time w) scaled = true ->
     interpreters w <> [] ->
     one_per_group w ->
     color_scheme (theme (state w)) <> [] ->
     exists w',
       step frame w = Returns tt w' /\
       shift_count w' = S (shift_count w) /\
       last_shift_time w' =
         clock_tape w (clock_pos w + 2 + (if has_vj w then 1 else 0))%nat).
Proof.
  intros t now scaled.
  destruct (step_before_gate frame w)
    as (w6 & Hstep & Hlast & Hcount & Htape & Hpos & Hvj & Hstate & Hlay & _).
  fold t now scaled in Hstep.
  assert (Hidle : shift_due now (last_shift_time w) scaled = false ->
            exists w', step frame w = Returns tt w' /\
              shift_count w' = shift_count w /\
              last_shift_time w' = last_shift_time w).
  { intros Hdue. rewrite Hdue in Hstep. by exists w6. }
  split; [apply shift_due_spec|].
  split; [apply warmup_complete_frame|].
  split; [exact Hidle|].
  split; [intros Hhigh; by apply Hidle, shift_due_signal_high|].
  intros Hdue Hne Hlen Hth. rewrite Hdue in Hstep.
  set (exit_all := for_each_interpreter _) in Hstep.
  assert (Hex : exists w7, exit_all w6 = Returns tt w7) by (by eexists).
  destruct Hex as (w7 & Hex).
  destruct (timing_fields _ _ (keeps_returns timing _ _ _ _ (keeps_timing_for_each _) Hex))
    as (Hl7 & Hc7 & Ht7 & Hp7 & Hv7 & Hs7).
  pose proof (keeps_returns layout _ _ _ _ (keeps_layout_for_each _) Hex) as Hlay7.
  destruct (layout_fields _ _ Hlay7) as [Hi7 Hg7].
  destruct (layout_fields _ _ Hlay) as [Hi6 Hg6].
  destruct (shift_run w7) as (w' & Hshift & Hcount' & Hlast').
  { by rewrite Hi7, Hi6. }
  { apply (one_per_group_layout w6); [done|]. by apply (one_per_group_layout w). }
  { by rewrite Hs7, Hstate. }
  exists w'. split.
  { rewrite Hstep. by rewrite (bind_returns _ _ _ _ _ Hex). }
  split; [congruence|].
  rewrite Hlast', Ht7, Hp7, Hv7, Htape, Hpos, Hvj. f_equal. lia.
Qed.

(** *** Zero interpreters *)

Lemma generate_interpreters_empty w :
  fixture_groups w = [] ->
  exists w', generate_interpreters w = Returns tt w' /\ interpreters w' = [].
Proof.
  intros Hnil. destruct (generate_interpreters_run w) as (w1 & Hrun & _).
  rewrite Hnil in Hrun. eexists. split; [exact Hrun|done].
Qed.

(** C7 (what the code does). With no fixture group the interpreter list is
    empty and [render] returns, but the tick on which the scheduled shift is
    due raises ValueError, out of [random.randint(0, -1)] in
    [shift_interpreter], and leaves [shift_count] as it was. *)
Theorem step_raises_on_empty_list_when_shift_due (frame : Frame) w :
  fixture_groups w = [] ->
  interpreters w = [] ->
  color_scheme (theme (state w)) <> [] ->
  shift_due (clock_tape w (S (clock_pos w))) (last_shift_time w)
    (frame_mul frame (warmup_phase_of (clock_tape w (clock_pos w) - start_time w))) = true ->
  (exists w', generate_interpreters w = Returns tt w' /\ interpreters w' = []) /\
  (exists w', render w = Returns tt w') /\
  (exists w', step frame w = Raises ValueError w' /\ shift_count w' = shift_count w).
Proof.
  intros Hgroups Hnil Hth Hdue.
  split; [by apply generate_interpreters_empty|].
  split; [unfold render, bind, get, modify; by eexists|].
  destruct (step_before_gate frame w)
    as (w6 & Hstep & Hlast & Hcount & Htape & Hpos & Hvj & Hstate & Hlay & _).
  cbv zeta in Hstep. rewrite Hdue in Hstep.
  set (exit_all := for_each_interpreter _) in Hstep.
  assert (Hex : exists w7, exit_all w6 = Returns tt w7) by (by eexists).
  destruct Hex as (w7 & Hex).
  destruct (timing_fields _ _ (keeps_returns timing _ _ _ _ (keeps_timing_for_each _) Hex))
    as (Hl7 & Hc7 & Ht7 & Hp7 & Hv7 & Hs7).
  pose proof (keeps_returns layout _ _ _ _ (keeps_layout_for_each _) Hex) as Hlay7.
  destruct (layout_fields _ _ Hlay7) as [Hi7 Hg7].
  destruct (layout_fields _ _ Hlay) as [Hi6 Hg6].
  destruct (shift_empty_raises w7) as (w' & Hshift & Ht' & _).
  { by rewrite Hi7, Hi6. }
  { by rewrite Hs7, Hstate. }
  destruct (timing_fields _ _ Ht') as (_ & Hc' & _).
  exists w'. split; [|congruence].
  rewrite Hstep. by rewrite (bind_returns _ _ _ _ _ Hex).
Qed.

(** *** The hype pulse *)

(** C8 (what the code does). No statement of the Director ever assigns
    [self.mode_machine]: on every Director the program can observe, in
    particular after any number of ticks, [deploy_hype()] raises
    AttributeError and forwards nothing. *)
Theorem deploy_hype_raises_attribute_error w :
  reachable w -> deploy_hype w = Raises AttributeError w.
Proof.
  intros Hreach. apply deploy_hype_without_mode_machine.
  by destruct (reachable_consistent w Hreach) as (_ & _ & Hmm).
Qed.

(** *** Generation without coverage repair *)

(** C2 (what the code does). [generate_interpreters], which builds the list at
    start-up and is all that [on_mode_change] runs, never calls the coverage
    guarantor: when the registry hands out signal switches that do not respond
    to [signal], the list it leaves has a signal switch and [signal] is not
    handled. *)
Theorem generate_interpreters_skips_coverage_repair (m : Mode) (signal : Signal) w :
  fixture_groups w <> [] ->
  (forall m' group args entropy,
     signal_switch (get_interpreter m' group args entropy) = true /\
     responds (get_interpreter m' group args entropy) signal = false) ->
  on_mode_change m w = generate_interpreters w /\
  exists w',
    generate_interpreters w = Returns tt w' /\
    has_signal_switch w' /\
    ~ covered w' signal.
Proof.
  intros Hne Hreg. split; [done|].
  destruct (generate_interpreters_run w) as (w1 & Hrun & _ & _ & _ & _ & _ & Hnew).
  eexists. split; [exact Hrun|]. split.
  - destruct (fixture_groups w) as [|group rest] eqn:Hg; [done|].
    specialize (Hnew 0%nat group eq_refl).
    eexists (next_loc w + 0)%nat, _.
    cbn [heap interpreters set_interpreters length seq].
    split; [|split; [exact Hnew|apply Hreg]].
    rewrite Nat.add_0_r. apply list_elem_of_here.
  - intros (i & o & Hi & Ho & _ & Hr).
    cbn [heap interpreters set_interpreters] in Hi, Ho.
    apply list_elem_of_In, in_seq in Hi.
    destruct (lookup_lt_is_Some_2 (fixture_groups w) (i - next_loc w)) as [group Hgroup];
      [lia|].
    specialize (Hnew _ _ Hgroup).
    replace (next_loc w + (i - next_loc w))%nat with i in Hnew by lia.
    pose proof (eq_trans (eq_sym Ho) Hnew) as Heq. injection Heq as ->.
    destruct (Hreg (mode (state w)) group (bucket_args (state w) (i - next_loc w))
                (rng_tape w (rng_pos w + (i - next_loc w))%nat)) as [_ Hno].
    congruence.
Qed.

Lemma has_signal_switchb_spec w :
  has_signal_switchb w = true <-> has_signal_switch w.
Proof.
  unfold has_signal_switchb. rewrite existsb_exists. split.
  - intros (i & Hi & Hs). unfold is_signal_switch in Hs.
    destruct (heap w !! i) as [o|] eqn:Ho; [|done].
    exists i, o. split; [by apply list_elem_of_In|done].
  - intros (i & o & Hi & Ho & Hs). exists i.
    split; [by apply list_elem_of_In|]. unfold is_signal_switch. by rewrite Ho.
Qed.

Lemma all_covered_coveredb w :
  forallb (coveredb w) (enum Signal) = true -> all_covered w.
Proof.
  intros Hall signal. apply coveredb_covered.
  rewrite forallb_forall in Hall. apply Hall, list_elem_of_In, elem_of_enum.
Qed.

End DirectorFacts.

(** ** The hype route on a Director the program can observe *)

Section HypeRouteFacts.
Import WebServer.
Context `{Domain} `{!Director.Collaborators}.

(** POST /api/hype raises out of [Director.deploy_hype] and the assignment to
    [last_hype_time] is not reached. *)
Lemma deploy_hype_route_raises (now : Q) (g : Globals)
    (st : Director.State) (d : Director.World) :
  state_instance g = Some st ->
  director_instance g = Some d ->
  Director.reachable d ->
  exists g',
    deploy_hype now g = Raises AttributeError g' /\
    last_hype_time g' = last_hype_time g.
Proof.
  intros Hst Hd Hreach. unfold deploy_hype. rewrite Hst, Hd.
  rewrite (deploy_hype_without_mode_machine d) by apply (reachable_consistent d Hreach).
  by eexists.
Qed.

(** C9 (what the code does). Deploying hype through POST /api/hype at a time
    [T] at which no hype period is running, on a server whose Director the
    program can observe, raises before the trigger time is stored: the
    status query [e] seconds later answers inactive with 0 remaining for
    every [e >= 0], also for [e < 8].  A server just started has
    [last_hype_time] 0, so this is what happens at every clock reading from
    8 on. *)
Theorem hype_status_inactive_after_deploy (T e : Q) (g : Globals)
    (st : Director.State) (d : Director.World) :
  state_instance g = Some st ->
  director_instance g = Some d ->
  Director.reachable d ->
  (last_hype_time g + 8 <= T)%Q ->
  (0 <= e)%Q ->
  last_hype_time (start_web_server st d) = 0%Q /\
  exists g',
    deploy_hype T g = Raises AttributeError g' /\
    last_hype_time g' = last_hype_time g /\
    get_hype_status (T + e) g' = (JsonStatus false 0, g').
Proof.
  intros Hst Hd Hreach HT He. split; [reflexivity|].
  destruct (deploy_hype_route_raises T g st d Hst Hd Hreach) as (g' & Hrun & Htime).
  exists g'. split; [done|]. split; [done|].
  unfold get_hype_status. rewrite Htime.
  assert (Hlate : Qltb (T + e - last_hype_time g) HYPE_DURATION = false).
  { unfold Qltb, HYPE_DURATION.
    destruct (T + e - last_hype_time g ?= 8)%Q eqn:Hcmp; try done.
    apply Qlt_alt in Hcmp. lra. }
  by rewrite Hlate.
Qed.

End HypeRouteFacts.

(** * The properties on the demo rig *)

Section Runs.
Import Director Demo.

(** The Directors of the demo rig are built without raising. *)
Lemma director_at_reachable (rig : Collaborators) (v : DemoVenue) (t : Q) :
  (exists w, @init _ rig (demo_state v) None demo_rng (clock_then t) = inr w) ->
  @reachable _ rig (director_at rig v t).
Proof.
  intros [w Hw]. unfold director_at. rewrite Hw. simpl.
  by eapply reachable_init.
Qed.

Lemma small_venue_built (t : Q) :
  exists w, @init _ demo_rig (demo_state SmallVenue) None demo_rng (clock_then t) = inr w.
Proof. eexists. vm_compute. reflexivity. Qed.

Lemma empty_venue_built (t : Q) :
  exists w, @init _ demo_rig (demo_state EmptyVenue) None demo_rng (clock_then t) = inr w.
Proof. eexists. vm_compute. reflexivity. Qed.

Lemma slow_small_venue_built (t : Q) :
  exists w, @init _ slow_rig (demo_state SmallVenue) None demo_rng (clock_then t) = inr w.
Proof. eexists. vm_compute. reflexivity. Qed.

(** C1 on the small venue: the combined shift returns, the list has a signal
    switch, and every signal is handled afterwards. *)
Lemma shift_leaves_every_signal_covered_witness :
  exists w',
    shift (director_at demo_rig SmallVenue 100) = Returns tt w' /\
    has_signal_switch w' /\
    all_covered w'.
Proof.
  eexists. split; [vm_compute; reflexivity|].
  assert (Hsw : forall w', has_signal_switchb w' = true -> has_signal_switch w').
  { intros w'. apply has_signal_switchb_spec. }
  split; [apply Hsw; vm_compute; reflexivity|].
  apply (proj1 (shift_leaves_every_signal_covered (director_at demo_rig SmallVenue 100))).
  - left. vm_compute. reflexivity.
  - apply Hsw. vm_compute. reflexivity.
Defined.

(** C2 on the small venue: after construction and after a mode change no
    signal switch responds to the sustained-low signal, whereas the full
    lighting shift, which regenerates the list the same way, repairs it. *)
Lemma generate_interpreters_skips_coverage_repair_witness :
  fixture_groups (director_at demo_rig SmallVenue 0) <> [] /\
  (forall m' group args entropy,
     signal_switch (get_interpreter m' group args entropy) = true /\
     responds (get_interpreter m' group args entropy) SustainedLow = false) /\
  (on_mode_change tt (director_at demo_rig SmallVenue 0) =
     generate_interpreters (director_at demo_rig SmallVenue 0) /\
   exists w',
     generate_interpreters (director_at demo_rig SmallVenue 0) = Returns tt w' /\
     has_signal_switch w' /\ ~ covered w' SustainedLow) /\
  coveredb (director_at demo_rig SmallVenue 0) SustainedLow = false /\
  coveredb (final_state (perform (SetMode tt) (director_at demo_rig SmallVenue 0)))
    SustainedLow = false /\
  coveredb (final_state (perform CallShiftLightingOnly (director_at demo_rig SmallVenue 0)))
    SustainedLow = true.
Proof.
  assert (Hgroups : fixture_groups (director_at demo_rig SmallVenue 0) <> []).
  { vm_compute. discriminate. }
  assert (Hreg : forall m' group args entropy,
            signal_switch (get_interpreter m' group args entropy) = true /\
            responds (get_interpreter m' group args entropy) SustainedLow = false).
  { intros m' group args entropy. split; reflexivity. }
  split; [exact Hgroups|]. split; [exact Hreg|].
  split.
  { exact (generate_interpreters_skips_coverage_repair tt SustainedLow
             (director_at demo_rig SmallVenue 0) Hgroups Hreg). }
  split; [vm_compute; reflexivity|].
  split; vm_compute; reflexivity.
Defined.

(** C3 on the small venue: three fixture groups, three interpreters, after
    construction, after regeneration and after a reshuffle. *)
Lemma one_interpreter_per_fixture_group_witness :
  reachable (director_at demo_rig SmallVenue 0) /\
  length (fixture_groups (director_at demo_rig SmallVenue 0)) = 3%nat /\
  one_per_group (director_at demo_rig SmallVenue 0) /\
  (exists w',
     generate_interpreters (director_at demo_rig SmallVenue 0) = Returns tt w' /\
     one_per_group w') /\
  (exists w',
     shift_interpreter (director_at demo_rig SmallVenue 0) = Returns tt w' /\
     one_per_group w').
Proof.
  pose proof (one_interpreter_per_fixture_group (director_at demo_rig SmallVenue 0))
    as (Hgen & _ & _ & Hshift & Hreach).
  assert (Hr : reachable (director_at demo_rig SmallVenue 0)).
  { apply director_at_reachable, small_venue_built. }
  split; [exact Hr|]. split; [vm_compute; reflexivity|].
  split; [exact (Hreach Hr)|]. split; [exact Hgen|].
  destruct (Hshift (Hreach Hr)) as [Hkeep Hruns].
  destruct Hruns as [w' Hrun]; [vm_compute; discriminate|].
  exists w'. split; [exact Hrun|]. exact (Hkeep w' Hrun).
Defined.

(** C4 on the small venue, 100 seconds after construction with a one-second
    warm-up: a silent frame triggers the shift in that tick, a frame at full
    level does not. *)
Lemma scheduled_shift_gate_witness :
  (exists w',
     step (level 0) (director_at demo_rig SmallVenue 100) = Returns tt w' /\
     shift_count w' = 1%nat /\
     (last_shift_time w' == 100)%Q) /\
  (exists w',
     step (level 1) (director_at demo_rig SmallVenue 100) = Returns tt w' /\
     shift_count w' = 0%nat /\
     (last_shift_time w' == 0)%Q).
Proof.
  split.
  - destruct (scheduled_shift_gate (level 0) (director_at demo_rig SmallVenue 100))
      as (_ & _ & _ & _ & Hfire).
    destruct Hfire as (w' & Hrun & Hcount & Hlast).
    + vm_compute. reflexivity.
    + vm_compute. discriminate.
    + vm_compute. reflexivity.
    + vm_compute. discriminate.
    + exists w'. split; [exact Hrun|]. rewrite Hcount, Hlast.
      split; vm_compute; reflexivity.
  - destruct (scheduled_shift_gate (level 1) (director_at demo_rig SmallVenue 100))
      as (_ & _ & _ & Hhigh & _).
    destruct Hhigh as (w' & Hrun & Hcount & Hlast).
    + vm_compute. discriminate.
    + exists w'. split; [exact Hrun|]. rewrite Hcount, Hlast.
      split; vm_compute; reflexivity.
Defined.

(** C4 as stated fails twice.  With WARMUP_TIME=600, 100 seconds after
    construction a frame holding the sustained-low signal at 1.0 is scaled to
    about 1/6 by the warm-up and the shift fires.  And on the empty venue,
    with more than 60 seconds elapsed and the signal at 0, the tick raises
    and [shift_count] is not incremented. *)
Lemma scheduled_shift_claim_counterexample :
  (@reachable _ slow_rig (director_at slow_rig SmallVenue 100) /\
   (1 # 5 <= level 1 sustained_low)%Q /\
   shift_count (director_at slow_rig SmallVenue 100) = 0%nat /\
   exists w',
     @step _ slow_rig (level 1) (director_at slow_rig SmallVenue 100) = Returns tt w' /\
     shift_count w' = 1%nat) /\
  (reachable (director_at demo_rig EmptyVenue 100) /\
   (SHIFT_AFTER <
      clock_tape (director_at demo_rig EmptyVenue 100)
        (S (clock_pos (director_at demo_rig EmptyVenue 100)))
      - last_shift_time (director_at demo_rig EmptyVenue 100))%Q /\
   (level 0 sustained_low < 1 # 5)%Q /\
   shift_count (director_at demo_rig EmptyVenue 100) = 0%nat /\
   exists w',
     step (level 0) (director_at demo_rig EmptyVenue 100) = Raises ValueError w' /\
     shift_count w' = 0%nat).
Proof.
  split.
  - split; [apply director_at_reachable, slow_small_venue_built|].
    split; [vm_compute; discriminate|].
    split; [vm_compute; reflexivity|].
    eexists. split; vm_compute; reflexivity.
  - split; [apply director_at_reachable, empty_venue_built|].
    split; [vm_compute; reflexivity|].
    split; [vm_compute; reflexivity|].
    split; [vm_compute; reflexivity|].
    eexists. split; vm_compute; reflexivity.
Qed.

(** C5 on the small venue: regenerating makes three calls, with hype 10, 40
    and 70 and, the limiter being on at hype 50, bounds 20 and 80. *)
Lemma generate_interpreters_bucket_args_witness :
  exists w',
    generate_interpreters (director_at demo_rig SmallVenue 0) = Returns tt w' /\
    skipn 3 (registry_calls w') =
      [(tt, [30; 31]%nat,
        {| args_hype := 10; args_allow_rainbows := true;
           args_hype_min := 20; args_hype_max := 80 |});
       (tt, [1; 2]%nat,
        {| args_hype := 40; args_allow_rainbows := true;
           args_hype_min := 20; args_hype_max := 80 |});
       (tt, [17]%nat,
        {| args_hype := 70; args_allow_rainbows := true;
           args_hype_min := 20; args_hype_max := 80 |})].
Proof.
  destruct (generate_interpreters_bucket_args (director_at demo_rig SmallVenue 0))
    as (w' & Hrun & Hlog & _).
  exists w'. split; [exact Hrun|]. rewrite Hlog. vm_compute. reflexivity.
Defined.

(** C6 on the small venue: the draw 5 picks index 2; the third entry becomes
    the new object 3, requested for the laser group with the live hype 50 and
    bounds 20 and 80; the first two entries stay. *)
Lemma shift_interpreter_replaces_one_entry_witness :
  reachable (director_at demo_rig SmallVenue 0) /\
  interpreters (director_at demo_rig SmallVenue 0) = [0; 1; 2]%nat /\
  exists w',
    shift_interpreter (director_at demo_rig SmallVenue 0) = Returns tt w' /\
    interpreters w' = [0; 1; 3]%nat /\
    skipn 3 (registry_calls w') =
      [(tt, [17]%nat,
        {| args_hype := 50; args_allow_rainbows := true;
           args_hype_min := 20; args_hype_max := 80 |})].
Proof.
  assert (Hr : reachable (director_at demo_rig SmallVenue 0)).
  { apply director_at_reachable, small_venue_built. }
  split; [exact Hr|]. split; [vm_compute; reflexivity|].
  destruct (shift_interpreter_replaces_one_entry (director_at demo_rig SmallVenue 0) Hr)
    as (group & w' & Hrun & _ & _ & Hgroup & Hlist & _ & _ & _ & _ & _ & Hlog & _).
  { vm_compute. discriminate. }
  exists w'. split; [exact Hrun|]. split.
  - rewrite Hlist. vm_compute. reflexivity.
  - rewrite Hlog. vm_compute in Hgroup. injection Hgroup as <-.
    vm_compute. reflexivity.
Defined.

(** C7 on the empty venue, 100 seconds after construction, on a silent
    frame: no fixture group, no interpreter, and the tick raises. *)
Lemma step_raises_on_empty_list_when_shift_due_witness :
  reachable (director_at demo_rig EmptyVenue 100) /\
  fixture_groups (director_at demo_rig EmptyVenue 100) = [] /\
  interpreters (director_at demo_rig EmptyVenue 100) = [] /\
  (exists w', render (director_at demo_rig EmptyVenue 100) = Returns tt w') /\
  exists w',
    step (level 0) (director_at demo_rig EmptyVenue 100) = Raises ValueError w' /\
    shift_count w' = shift_count (director_at demo_rig EmptyVenue 100).
Proof.
  split; [apply director_at_reachable, empty_venue_built|].
  split; [vm_compute; reflexivity|].
  split; [vm_compute; reflexivity|].
  destruct (step_raises_on_empty_list_when_shift_due (level 0)
              (director_at demo_rig EmptyVenue 100))
    as (_ & Hrender & Hstep).
  - vm_compute. reflexivity.
  - vm_compute. reflexivity.
  - vm_compute. discriminate.
  - vm_compute. reflexivity.
  - split; [exact Hrender|exact Hstep].
Defined.

(** C8 on the small venue: after a tick the Director holds the frame, and
    [deploy_hype()] raises AttributeError. *)
Lemma deploy_hype_raises_attribute_error_witness :
  reachable (after_tick demo_rig SmallVenue 100 (level 1)) /\
  last_frame (after_tick demo_rig SmallVenue 100 (level 1)) = Some (level 1) /\
  deploy_hype (after_tick demo_rig SmallVenue 100 (level 1)) =
    Raises AttributeError (after_tick demo_rig SmallVenue 100 (level 1)).
Proof.
  assert (Hr : reachable (after_tick demo_rig SmallVenue 100 (level 1))).
  { apply reachable_perform, director_at_reachable, small_venue_built. }
  split; [exact Hr|]. split; [vm_compute; reflexivity|].
  exact (deploy_hype_raises_attribute_error _ Hr).
Defined.

(** C9 on a server started with the Director of the small venue: hype is
    deployed at 1000, and the status query at 1007.9 answers inactive. *)
Lemma hype_status_inactive_after_deploy_witness :
  reachable (director_at demo_rig SmallVenue 0) /\
  exists g',
    WebServer.deploy_hype 1000
      (WebServer.start_web_server (demo_state SmallVenue)
         (director_at demo_rig SmallVenue 0)) = Raises AttributeError g' /\
    WebServer.get_hype_status (1000 + (79 # 10)) g' = (WebServer.JsonStatus false 0, g').
Proof.
  assert (Hr : reachable (director_at demo_rig SmallVenue 0)).
  { apply director_at_reachable, small_venue_built. }
  split; [exact Hr|].
  destruct (hype_status_inactive_after_deploy 1000 (79 # 10)
              (WebServer.start_web_server (demo_state SmallVenue)
                 (director_at demo_rig SmallVenue 0))
              (demo_state SmallVenue) (director_at demo_rig SmallVenue 0)
              eq_refl eq_refl Hr ltac:(vm_compute; discriminate)
              ltac:(vm_compute; discriminate))
    as (_ & g' & Hrun & _ & Hstatus).
  exists g'. split; [exact Hrun|exact Hstatus].
Defined.

End Runs.

(** * Further properties of the code *)

(** ** parrot/utils/dmx_utils.py: lists, controllers, routing *)

Section DmxControllerFacts.
Import DmxUtils.

Lemma clamped_int (clamp : PyFloat -> Z -> Z -> PyNum) (n : PyFloat) :
  saturating clamp -> isnan n = false ->
  exists z : Z, py_int (clamp n 0%Z 255%Z) = Returns z tt /\ (0 <= z <= 255)%Z.
Proof.
  intros Hc Hnan. destruct (Hc n 0%Z 255%Z Hnan) as (r & Hr & Er); [lia|].
  exists (Qtrunc r). split; [by apply py_int_of_value|].
  rewrite (Qtrunc_comp _ _ Er). apply Qtrunc_byte_range; apply saturate_byte_range.
Qed.

(** X1. On a list without NaN, [dmx_clamp_list] returns a list of the same
    length whose entries lie in [0, 255] and are, position by position, what
    [dmx_clamp] returns. *)
Theorem dmx_clamp_list_agrees_with_dmx_clamp
    (clamp : PyFloat -> Z -> Z -> PyNum) (items : list PyFloat) :
  saturating clamp ->
  Forall (fun n => isnan n = false) items ->
  exists zs,
    dmx_clamp_list clamp items = Returns zs tt /\
    length zs = length items /\
    Forall (fun z : Z => (0 <= z <= 255)%Z) zs /\
    Forall2 (fun n z => dmx_clamp clamp n = Returns z tt) items zs.
Proof.
  intros Hc. induction 1 as [|n items Hn _ IH].
  - exists []. repeat split; constructor.
  - destruct IH as (zs & Hrun & Hlen & Hrange & Hagree).
    destruct (clamped_int clamp n Hc Hn) as (z & Hz & Hzr).
    exists (z :: zs). cbn [dmx_clamp_list]. rewrite Hz, Hrun.
    split; [done|]. split; [simpl; by rewrite Hlen|].
    split; [by constructor|].
    constructor; [|done]. unfold dmx_clamp. by rewrite Hn.
Qed.

(** X2. [dmx_clamp_list] has no NaN guard: with a clamp that hands NaN back,
    a list whose first NaN follows only convertible values raises ValueError,
    where [dmx_clamp] returns 0 on that NaN. *)
Theorem dmx_clamp_list_raises_on_nan
    (clamp : PyFloat -> Z -> Z -> PyNum) (before after : list PyFloat) :
  saturating clamp ->
  clamp FNaN 0%Z 255%Z = PyFloatV FNaN ->
  Forall (fun n => isnan n = false) before ->
  dmx_clamp_list clamp (before ++ FNaN :: after) = Raises ValueError tt /\
  dmx_clamp clamp FNaN = Returns 0%Z tt.
Proof.
  intros Hc Hnan Hbefore. split; [|done].
  induction Hbefore as [|n items Hn _ IH].
  - simpl. by rewrite Hnan.
  - destruct (clamped_int clamp n Hc Hn) as (z & Hz & _).
    cbn [app dmx_clamp_list]. by rewrite Hz, IH.
Qed.

Lemma clamp_chain_saturating : saturating clamp_chain.
Proof.
  intros n lo hi Hnan Hle. unfold clamp_chain.
  destruct n as [| | |q]; try discriminate.
  - eexists; split; reflexivity.
  - eexists; split; reflexivity.
  - cbn [float_lt_int float_gt_int saturate].
    destruct (Qltb q (inject_Z lo)); [eexists; split; reflexivity|].
    destruct (Qltb (inject_Z hi) q); eexists; split; reflexivity.
Qed.

(** X3. [ArtNetController.set_channel] on a controller holding 512 channels:
    the data keeps its length; a channel outside 1..512 changes nothing and
    does not even look at the value; a channel inside writes [int(value)] at
    index [channel - 1] and nowhere else; and when [int(value)] raises, the
    data is left as it was. *)
Theorem artnet_set_channel_writes_one_slot
    (channel : Z) (value : PyNum) (self : ArtNetController.t) :
  length (ArtNetController.dmx_data self) = 512%nat ->
  length (ArtNetController.dmx_data
            (final_state (ArtNetController.set_channel channel value self))) = 512%nat /\
  ((channel < 1 \/ 512 < channel)%Z ->
     ArtNetController.set_channel channel value self = Returns tt self) /\
  ((1 <= channel <= 512)%Z ->
     (forall z, py_int value = Returns z tt ->
        exists self',
          ArtNetController.set_channel channel value self = Returns tt self' /\
          ArtNetController.dmx_data self' !! Z.to_nat (channel - 1) = Some z /\
          (forall j, j <> Z.to_nat (channel - 1) ->
             ArtNetController.dmx_data self' !! j = ArtNetController.dmx_data self !! j) /\
          ArtNetController.sent self' = ArtNetController.sent self) /\
     (forall e, py_int value = Raises e tt ->
        ArtNetController.set_channel channel value self = Raises e self)).
Proof.
  intros Hlen. unfold ArtNetController.set_channel.
  destruct ((1 <=? channel)%Z && (channel <=? 512)%Z) eqn:Hin.
  - apply andb_true_iff in Hin as [H1%Z.leb_le H2%Z.leb_le].
    assert (Hidx : (Z.to_nat (channel - 1) <? length (ArtNetController.dmx_data self))%nat = true).
    { apply Nat.ltb_lt. rewrite Hlen. lia. }
    rewrite Hidx. split.
    { destruct (py_int value) as [z []|e []]; simpl; [|done]. by rewrite length_insert. }
    split; [lia|]. intros _. split.
    + intros z ->. eexists. split; [reflexivity|]. simpl.
      split; [apply list_lookup_insert_eq; rewrite Hlen; lia|].
      split; [|done]. intros j Hj. by apply list_lookup_insert_ne.
    + by intros e ->.
  - split; [done|]. split; [done|].
    intros [H1 H2]. apply andb_false_iff in Hin as [Hin|Hin]; lia.
Qed.

(** *** Dict operations *)

Lemma dict_get_Some_key u c d :
  SwitchController.dict_get u d = Some c -> u ∈ (fst <$> d).
Proof.
  unfold SwitchController.dict_get. intros Hget.
  destruct (List.find _ d) as [[u' c']|] eqn:Hfind; [|done].
  apply find_some in Hfind as [Hin Hu]. apply bool_decide_eq_true in Hu.
  simpl in Hu. apply list_elem_of_fmap. exists (u', c').
  split; [by rewrite <- Hu|]. by apply list_elem_of_In.
Qed.

Lemma dict_get_key_Some u d :
  u ∈ (fst <$> d) -> is_Some (SwitchController.dict_get u d).
Proof.
  unfold SwitchController.dict_get. induction d as [|[u' c'] d IH]; simpl.
  - by intros ?%elem_of_nil.
  - intros [->|Hin]%elem_of_cons.
    + rewrite bool_decide_eq_true_2 by done. by eexists.
    + destruct (bool_decide (u' = u)); [by eexists|by apply IH].
Qed.

Lemma dict_set_keys u c d :
  u ∈ (fst <$> d) -> fst <$> SwitchController.dict_set u c d = fst <$> d.
Proof.
  induction d as [|[u' c'] d IH]; simpl.
  - by intros ?%elem_of_nil.
  - intros Hin. destruct (bool_decide (u' = u)) eqn:Hu; simpl; [done|].
    f_equal. apply IH. apply elem_of_cons in Hin as [->|Hin]; [|done].
    by rewrite bool_decide_eq_true_2 in Hu.
Qed.

Lemma dict_get_set_eq u c d :
  SwitchController.dict_get u (SwitchController.dict_set u c d) = Some c.
Proof.
  unfold SwitchController.dict_get. induction d as [|[u' c'] d IH]; simpl.
  - by rewrite bool_decide_eq_true_2.
  - destruct (bool_decide (u' = u)) eqn:Hu; simpl; rewrite Hu; [done|apply IH].
Qed.

Lemma dict_get_set_ne u u' c d :
  u' <> u ->
  SwitchController.dict_get u' (SwitchController.dict_set u c d) =
  SwitchController.dict_get u' d.
Proof.
  intros Hne. unfold SwitchController.dict_get.
  induction d as [|[u0 c0] d IH]; simpl.
  - by rewrite bool_decide_eq_false_2.
  - destruct (bool_decide (u0 = u)) eqn:Hu; simpl.
    + apply bool_decide_eq_true in Hu as ->.
      by rewrite bool_decide_eq_false_2.
    + destruct (bool_decide (u0 = u')); [done|apply IH].
Qed.

(** *** Routing *)

Lemma artnet_set_channel_length (channel : Z) (value : PyNum) (a : ArtNetController.t) :
  length (ArtNetController.dmx_data
            (final_state (ArtNetController.set_channel channel value a))) =
  length (ArtNetController.dmx_data a).
Proof.
  unfold ArtNetController.set_channel.
  destruct ((1 <=? channel)%Z && (channel <=? 512)%Z); [|done].
  destruct (py_int value) as [z []|e []]; [|done].
  destruct (_ <? _)%nat; simpl; [by rewrite length_insert|done].
Qed.

Lemma controller_set_channel_entec (channel : Z) (value : PyNum) (c : Controller) :
  is_entec (final_state (controller_set_channel channel value c)) = is_entec c.
Proof.
  destruct c as [port calls|calls|a]; simpl; [done..|].
  by destruct (ArtNetController.set_channel channel value a).
Qed.

Lemma controller_set_channel_artnet (channel : Z) (value : PyNum) (c : Controller) a' :
  final_state (controller_set_channel channel value c) = ArtNet a' ->
  exists a, c = ArtNet a /\
    length (ArtNetController.dmx_data a') = length (ArtNetController.dmx_data a).
Proof.
  destruct c as [port calls|calls|a]; simpl; [done..|].
  pose proof (artnet_set_channel_length channel value a) as Hlen.
  destruct (ArtNetController.set_channel channel value a) as [[] a1|e a1];
    simpl in *; intros [= <-]; by exists a.
Qed.

(** Replacing the controller of a routed universe by one of the same kind
    keeps the switch controller well routed. *)
Lemma well_routed_dict_set (s : SwitchController.t) u c c' entec :
  well_routed s ->
  SwitchController.dict_get u (SwitchController.controller_map s) = Some c ->
  entec ⊆ SwitchController._entec_universes s ->
  (u ∈ entec -> is_entec c' = true) ->
  (forall a', c' = ArtNet a' -> length (ArtNetController.dmx_data a') = 512%nat) ->
  well_routed
    {| SwitchController.controller_map :=
         SwitchController.dict_set u c' (SwitchController.controller_map s);
       SwitchController._entec_universes := entec |}.
Proof.
  intros (Hnodup & Hmarked & Hart) Hget Hsub Hkind Hlen.
  pose proof (dict_get_Some_key _ _ _ Hget) as Hkey.
  split; [|split]; simpl.
  - by rewrite dict_set_keys.
  - intros u' Hu'. destruct (decide (u' = u)) as [->|Hne].
    + exists c'. split; [apply dict_get_set_eq|by apply Hkind].
    + rewrite dict_get_set_ne by done. apply Hmarked. by apply Hsub.
  - intros u' a Ha. destruct (decide (u' = u)) as [->|Hne].
    + rewrite dict_get_set_eq in Ha. apply Hlen. by simplify_eq.
    + rewrite dict_get_set_ne in Ha by done. by eapply Hart.
Qed.

(** X4. [SwitchController.set_channel] forwards to the controller of the
    named universe and to no other: the universes, the Enttec marks and every
    other universe's controller stay as they are, a universe that is not
    routed is ignored, and the switch controller stays well routed. *)
Theorem switch_set_channel_touches_one_universe
    (channel : Z) (value : PyNum) (universe : Universe) (self : SwitchController.t) :
  well_routed self ->
  well_routed (final_state (SwitchController.set_channel channel value universe self)) /\
  fst <$> SwitchController.controller_map
            (final_state (SwitchController.set_channel channel value universe self)) =
    fst <$> SwitchController.controller_map self /\
  SwitchController._entec_universes
    (final_state (SwitchController.set_channel channel value universe self)) =
    SwitchController._entec_universes self /\
  (forall u, u <> universe ->
     SwitchController.dict_get u
       (SwitchController.controller_map
          (final_state (SwitchController.set_channel channel value universe self))) =
     SwitchController.dict_get u (SwitchController.controller_map self)) /\
  (universe ∉ (fst <$> SwitchController.controller_map self) ->
     SwitchController.set_channel channel value universe self = Returns tt self) /\
  (forall c, SwitchController.dict_get universe (SwitchController.controller_map self) = Some c ->
     SwitchController.dict_get universe
       (SwitchController.controller_map
          (final_state (SwitchController.set_channel channel value universe self))) =
     Some (final_state (controller_set_channel channel value c))).
Proof.
  intros Hwr. unfold SwitchController.set_channel.
  destruct (SwitchController.dict_get universe (SwitchController.controller_map self))
    as [c|] eqn:Hget.
  - pose proof (dict_get_Some_key _ _ _ Hget) as Hkey.
    pose proof (controller_set_channel_entec channel value c) as Hkind.
    pose proof (controller_set_channel_artnet channel value c) as Hart.
    assert (Hwr' : well_routed
              {| SwitchController.controller_map :=
                   SwitchController.dict_set universe
                     (final_state (controller_set_channel channel value c))
                     (SwitchController.controller_map self);
                 SwitchController._entec_universes :=
                   SwitchController._entec_universes self |}).
    { eapply well_routed_dict_set; [done|done|done| |].
      - intros Hu. rewrite Hkind. destruct Hwr as (_ & Hmarked & _).
        destruct (Hmarked _ Hu) as (c0 & Hc0 & Hent). by simplify_eq.
      - intros a' Ha'. destruct (Hart a' Ha') as (a & -> & ->).
        destruct Hwr as (_ & _ & Hlen). by eapply Hlen. }
    match goal with |- context [final_state ?m] =>
      assert (Hfs : final_state m =
                {| SwitchController.controller_map :=
                     SwitchController.dict_set universe
                       (final_state (controller_set_channel channel value c))
                       (SwitchController.controller_map self);
                   SwitchController._entec_universes :=
                     SwitchController._entec_universes self |})
        by (by destruct (controller_set_channel channel value c) as [[] c'|e c'])
    end.
    rewrite Hfs. cbn [SwitchController.controller_map SwitchController._entec_universes].
    split; [done|]. split; [by apply dict_set_keys|]. split; [done|].
    split; [by intros u Hu; apply dict_get_set_ne|].
    split; [done|]. intros c0 [= <-]. apply dict_get_set_eq.
  - simpl. do 5 (split; [done|]). done.
Qed.

(** *** Finding and reconnecting the Enttec controller *)

(** X5. [get_entec_controller]: with MOCK_DMX set it answers the mock
    controller without probing anything; it fails only when
    [find_entec_port] does; it never answers an Art-Net controller; and a
    real controller is only ever answered for a path on which
    [Controller(path)] connected, which is the port found or, when that one
    did not connect and starts with "/dev/cu.", its existing "/dev/tty."
    variant. *)
Theorem get_entec_controller_falls_back_to_mock (host : Host) :
  (is_Some (MOCK_DMX host) -> get_entec_controller host = Some (MockDmxController [])) /\
  (get_entec_controller host = None <->
     MOCK_DMX host = None /\ find_entec_port host = None) /\
  (forall a, get_entec_controller host <> Some (ArtNet a)) /\
  (forall port calls,
     get_entec_controller host = Some (Entec port calls) ->
     calls = [] /\
     MOCK_DMX host = None /\
     connects host port = true /\
     exists found,
       find_entec_port host = Some (Some found) /\
       (port = found \/
        (connects host found = false /\
         String.prefix "/dev/cu." found = true /\
         port = tty_variant found /\
         path_exists host port = true))).
Proof.
  unfold get_entec_controller.
  destruct (MOCK_DMX host) as [v|].
  { split; [done|]. split; [split; [done|by intros [? _]]|]. split; done. }
  split; [by intros [? ?]|].
  destruct (find_entec_port host) as [[found|]|].
  - destruct (connects host found) eqn:Hconn.
    { split; [split; [done|by intros [_ ?]]|]. split; [done|].
      intros port calls [= <- <-]. do 3 (split; [done|]). exists found. by split; [|left]. }
    destruct (String.prefix "/dev/cu." found) eqn:Hcu.
    + destruct (path_exists host (tty_variant found) && connects host (tty_variant found))
        eqn:Htty.
      * apply andb_true_iff in Htty as [Hex Hc].
        split; [split; [done|by intros [_ ?]]|]. split; [done|].
        intros port calls [= <- <-]. do 3 (split; [done|]). exists found.
        split; [done|]. by right.
      * split; [split; [done|by intros [_ ?]]|]. split; done.
    + split; [split; [done|by intros [_ ?]]|]. split; done.
  - split; [split; [done|by intros [_ ?]]|]. split; done.
  - split; [done|]. split; done.
Qed.

Lemma get_entec_controller_kind (host : Host) (c : Controller) :
  get_entec_controller host = Some c ->
  forall a, c <> ArtNet a.
Proof.
  intros Hget a ->.
  revert Hget. unfold get_entec_controller. repeat (case_match; try done).
Qed.

Lemma controller_submit_kind (c : Controller) :
  is_entec (controller_submit c) = is_entec c /\
  (forall a', controller_submit c = ArtNet a' ->
     exists a, c = ArtNet a /\
       ArtNetController.dmx_data a' = ArtNetController.dmx_data a).
Proof.
  destruct c as [port calls|calls|a]; simpl; split; try done.
  intros a' [= <-]. by exists a.
Qed.

Lemma reconnect_entec_well_routed (host : Host) u (s : SwitchController.t) :
  well_routed s ->
  well_routed (snd (SwitchController._reconnect_entec host u s)) /\
  fst <$> SwitchController.controller_map (snd (SwitchController._reconnect_entec host u s)) =
    fst <$> SwitchController.controller_map s /\
  SwitchController._entec_universes (snd (SwitchController._reconnect_entec host u s))
    ⊆ SwitchController._entec_universes s /\
  (forall u', u' <> u ->
     SwitchController.dict_get u'
       (SwitchController.controller_map (snd (SwitchController._reconnect_entec host u s))) =
     SwitchController.dict_get u' (SwitchController.controller_map s)).
Proof.
  intros Hwr. unfold SwitchController._reconnect_entec.
  destruct (bool_decide (u ∈ SwitchController._entec_universes s)) eqn:Hu; [|done].
  apply bool_decide_eq_true in Hu.
  destruct Hwr as (Hnodup & Hmarked & Hart).
  destruct (Hmarked u Hu) as (c & Hc & _).
  pose proof (dict_get_Some_key _ _ _ Hc) as Hkey.
  destruct (get_entec_controller host) as [new|] eqn:Hnew.
  - pose proof (get_entec_controller_kind host new Hnew) as Hkind.
    destruct (is_entec new) eqn:Hent; simpl.
    + split; [|split; [by apply dict_set_keys|split; [done|]]].
      * eapply well_routed_dict_set; [done|done|done|done|].
        intros a' ->. by destruct (Hkind a').
      * intros u' Hne. by apply dict_get_set_ne.
    + split; [|split; [by apply dict_set_keys|split; [set_solver|]]].
      * eapply well_routed_dict_set; [done|done|set_solver|set_solver|].
        intros a' ->. by destruct (Hkind a').
      * intros u' Hne. by apply dict_get_set_ne.
  - simpl. split; [|split; [by apply dict_set_keys|split; [set_solver|]]].
    + eapply well_routed_dict_set; [done|done|set_solver|set_solver|done].
    + intros u' Hne. by apply dict_get_set_ne.
Qed.

Lemma submit_loop_spec (host : Host)
    (faults : Universe -> option SwitchController.SubmitFault) (universes : list Universe) :
  forall self : SwitchController.t,
  well_routed self ->
  NoDup universes ->
  (forall u, u ∈ universes -> u ∈ (fst <$> SwitchController.controller_map self)) ->
  well_routed (SwitchController.after_submit
                 (SwitchController.submit_loop host faults universes self)) /\
  fst <$> SwitchController.controller_map
            (SwitchController.after_submit
               (SwitchController.submit_loop host faults universes self)) =
    fst <$> SwitchController.controller_map self /\
  SwitchController._entec_universes
    (SwitchController.after_submit
       (SwitchController.submit_loop host faults universes self))
    ⊆ SwitchController._entec_universes self /\
  (forall u, u ∉ universes ->
     SwitchController.dict_get u
       (SwitchController.controller_map
          (SwitchController.after_submit
             (SwitchController.submit_loop host faults universes self))) =
     SwitchController.dict_get u (SwitchController.controller_map self)) /\
  (forall u c,
     u ∉ SwitchController._entec_universes self ->
     SwitchController.dict_get u (SwitchController.controller_map self) = Some c ->
     SwitchController.dict_get u
       (SwitchController.controller_map
          (SwitchController.after_submit
             (SwitchController.submit_loop host faults universes self))) = Some c \/
     SwitchController.dict_get u
       (SwitchController.controller_map
          (SwitchController.after_submit
             (SwitchController.submit_loop host faults universes self))) =
       Some (controller_submit c)) /\
  ((forall u, u ∈ universes -> faults u <> Some SwitchController.OtherError) ->
     exists s', SwitchController.submit_loop host faults universes self =
                SwitchController.Submitted s') /\
  (forall s', SwitchController.submit_loop host faults universes self =
              SwitchController.Propagated s' ->
     exists u, u ∈ universes /\ faults u = Some SwitchController.OtherError).
Proof.
  induction universes as [|u rest IH]; intros self Hwr Hnd Hkeys.
  - simpl. do 4 (split; [done|]). split; [by left|]. split; [by eexists|done].
  - apply NoDup_cons in Hnd as [Hu Hnd].
    cbn [SwitchController.submit_loop].
    destruct (dict_get_key_Some u (SwitchController.controller_map self)) as [c Hc].
    { apply Hkeys. by left. }
    rewrite Hc.
    assert (Hstep : forall s1 : SwitchController.t,
              well_routed s1 ->
              fst <$> SwitchController.controller_map s1 =
                fst <$> SwitchController.controller_map self ->
              SwitchController._entec_universes s1 ⊆ SwitchController._entec_universes self ->
              (forall u', u' <> u ->
                 SwitchController.dict_get u' (SwitchController.controller_map s1) =
                 SwitchController.dict_get u' (SwitchController.controller_map self)) ->
              (u ∉ SwitchController._entec_universes self ->
                 SwitchController.dict_get u (SwitchController.controller_map s1) = Some c \/
                 SwitchController.dict_get u (SwitchController.controller_map s1) =
                   Some (controller_submit c)) ->
              (faults u <> Some SwitchController.OtherError) ->
              let r := SwitchController.submit_loop host faults rest s1 in
              well_routed (SwitchController.after_submit r) /\
              fst <$> SwitchController.controller_map (SwitchController.after_submit r) =
                fst <$> SwitchController.controller_map self /\
              SwitchController._entec_universes (SwitchController.after_submit r)
                ⊆ SwitchController._entec_universes self /\
              (forall u0, u0 ∉ u :: rest ->
                 SwitchController.dict_get u0
                   (SwitchController.controller_map (SwitchController.after_submit r)) =
                 SwitchController.dict_get u0 (SwitchController.controller_map self)) /\
              (forall u0 c0,
                 u0 ∉ SwitchController._entec_universes self ->
                 SwitchController.dict_get u0 (SwitchController.controller_map self) = Some c0 ->
                 SwitchController.dict_get u0
                   (SwitchController.controller_map (SwitchController.after_submit r)) = Some c0 \/
                 SwitchController.dict_get u0
                   (SwitchController.controller_map (SwitchController.after_submit r)) =
                   Some (controller_submit c0)) /\
              ((forall u0, u0 ∈ u :: rest -> faults u0 <> Some SwitchController.OtherError) ->
                 exists s', r = SwitchController.Submitted s') /\
              (forall s', r = SwitchController.Propagated s' ->
                 exists u0, u0 ∈ u :: rest /\ faults u0 = Some SwitchController.OtherError)).
    { intros s1 Hwr1 Hkeys1 Hsub1 Hother1 Hself1 Hfault r.
      destruct (IH s1 Hwr1 Hnd) as (Hwr' & Hkeys' & Hsub' & Hout' & Hin' & Hok' & Hbad').
      { intros u' Hu'. rewrite Hkeys1. apply Hkeys. by right. }
      fold r in Hwr', Hkeys', Hsub', Hout', Hin', Hok', Hbad'.
      split; [done|]. split; [by rewrite Hkeys'|]. split; [set_solver|].
      split.
      { intros u0 Hu0. rewrite Hout' by set_solver. apply Hother1. set_solver. }
      split.
      { intros u0 c0 Hu0 Hc0. destruct (decide (u0 = u)) as [->|Hne].
        - rewrite (Hout' u Hu). assert (c0 = c) as -> by congruence. by apply Hself1.
        - apply Hin'; [set_solver|]. by rewrite Hother1. }
      split.
      { intros Hall. apply Hok'. intros u0 Hu0. apply Hall. by right. }
      intros s' Hs'. destruct (Hbad' s' Hs') as (u0 & Hu0 & Hf). exists u0.
      split; [by right|done]. }
    destruct (faults u) as [[|]|] eqn:Hf.
    + destruct (bool_decide (u ∈ SwitchController._entec_universes self)) eqn:Hmark.
      * destruct (reconnect_entec_well_routed host u self Hwr) as (Hw1 & Hk1 & Hs1 & Ho1).
        apply bool_decide_eq_true in Hmark.
        apply Hstep; [done|done|done|done|done|done].
      * apply Hstep; [done|done|done|done|by intros _; left|done].
    + simpl. do 4 (split; [done|]). split; [by left|]. split.
      * intros Hall. exfalso. by apply (Hall u); [left|].
      * intros s' _. exists u. by split; [left|].
    + destruct (controller_submit_kind c) as [Hkind Hart].
      apply Hstep; simpl.
      * eapply well_routed_dict_set; [done|done|done| |].
        -- intros Hmark. rewrite Hkind. destruct Hwr as (_ & Hmarked & _).
           destruct (Hmarked _ Hmark) as (c0 & Hc0 & Hent). by simplify_eq.
        -- intros a' Ha'. destruct (Hart a' Ha') as (a & -> & ->).
           destruct Hwr as (_ & _ & Hlen). by eapply Hlen.
      * apply dict_set_keys. by eapply dict_get_Some_key.
      * done.
      * intros u' Hne. by apply dict_get_set_ne.
      * intros _. right. apply dict_get_set_eq.
      * done.
Qed.

(** X6. [SwitchController.submit] on a well-routed switch controller: a
    SerialException or OSError of a controller never escapes (the call
    propagates only when some controller raises something else); the
    universes stay the same; no universe gains the Enttec mark; a universe
    without the mark keeps its controller, which at most has submitted; and
    the switch controller stays well routed. *)
Theorem switch_submit_contains_device_faults
    (host : Host) (faults : Universe -> option SwitchController.SubmitFault)
    (self : SwitchController.t) :
  well_routed self ->
  well_routed (SwitchController.after_submit (SwitchController.submit host faults self)) /\
  fst <$> SwitchController.controller_map
            (SwitchController.after_submit (SwitchController.submit host faults self)) =
    fst <$> SwitchController.controller_map self /\
  SwitchController._entec_universes
    (SwitchController.after_submit (SwitchController.submit host faults self))
    ⊆ SwitchController._entec_universes self /\
  (forall u c,
     u ∉ SwitchController._entec_universes self ->
     SwitchController.dict_get u (SwitchController.controller_map self) = Some c ->
     SwitchController.dict_get u
       (SwitchController.controller_map
          (SwitchController.after_submit (SwitchController.submit host faults self))) = Some c \/
     SwitchController.dict_get u
       (SwitchController.controller_map
          (SwitchController.after_submit (SwitchController.submit host faults self))) =
       Some (controller_submit c)) /\
  ((forall u, u ∈ (fst <$> SwitchController.controller_map self) ->
      faults u <> Some SwitchController.OtherError) ->
     exists s', SwitchController.submit host faults self = SwitchController.Submitted s') /\
  (forall s', SwitchController.submit host faults self = SwitchController.Propagated s' ->
     exists u, u ∈ (fst <$> SwitchController.controller_map self) /\
               faults u = Some SwitchController.OtherError).
Proof.
  intros Hwr. unfold SwitchController.submit.
  destruct (submit_loop_spec host faults (fst <$> SwitchController.controller_map self) self)
    as (H1 & H2 & H3 & _ & H5 & H6 & H7); [done|by destruct Hwr|done|].
  done.
Qed.

Lemma config_get_mtn_lotus (venue_name : string) :
  is_Some (config_get venue_name) <-> venue_name = "mtn_lotus"%string.
Proof.
  unfold config_get, artnet_config. cbn [List.find fst].
  destruct (String.eqb "mtn_lotus" venue_name) eqn:E; cbn.
  - apply String.eqb_eq in E. split; [by intros _|by eexists].
  - apply String.eqb_neq in E. split; [by intros [? ?]|by intros ->].
Qed.

(** X7. [get_controller(venue)] fails only when [get_entec_controller] does.
    The switch controller it builds always routes the default universe,
    routes the Art-Net universe exactly for the venue named "mtn_lotus", with
    512 channels at zero, marks the default universe as Enttec exactly when a
    real controller was found, never marks the Art-Net universe, and is well
    routed. *)
Theorem get_controller_routes_default_and_artnet (host : Host) (venue : option string) :
  (get_controller host venue = None <-> get_entec_controller host = None) /\
  forall s,
    get_controller host venue = Some s ->
    well_routed s /\
    SwitchController.dict_get default (SwitchController.controller_map s) =
      get_entec_controller host /\
    (is_Some (SwitchController.dict_get art1 (SwitchController.controller_map s)) <->
       venue = Some "mtn_lotus"%string) /\
    (forall c, SwitchController.dict_get art1 (SwitchController.controller_map s) = Some c ->
       exists a, c = ArtNet a /\
         ArtNetController.dmx_data a = replicate 512 0%Z /\
         ArtNetController.sent a = []) /\
    (default ∈ SwitchController._entec_universes s <->
       exists c, get_entec_controller host = Some c /\ is_entec c = true) /\
    art1 ∉ SwitchController._entec_universes s.
Proof.
  unfold get_controller.
  destruct (get_entec_controller host) as [entec|] eqn:Hentec; [|done].
  pose proof (get_entec_controller_kind host entec Hentec) as Hkind.
  split.
  { split; [|done]. destruct venue as [v|]; [|done]. by destruct (config_get v) as [[? ?]|]. }
  assert (Hmark : forall s0 : SwitchController.t,
            s0 = (if is_entec entec
                  then SwitchController._mark_entec_universe default
                         (SwitchController.init [(default, entec)])
                  else SwitchController.init [(default, entec)]) ->
            SwitchController.controller_map s0 = [(default, entec)] /\
            (default ∈ SwitchController._entec_universes s0 <-> is_entec entec = true) /\
            art1 ∉ SwitchController._entec_universes s0).
  { intros s0 ->. destruct (is_entec entec); simpl; split; try done; set_solver. }
  destruct (Hmark _ eq_refl) as (Hmap & Hdef & Hart).
  set (s0 := if is_entec entec then _ else _) in *.
  assert (Hwr0 : well_routed s0).
  { split; [|split]; rewrite Hmap; simpl.
    - apply NoDup_singleton.
    - intros u Hu. destruct u; [|done]. exists entec. split; [done|by apply Hdef].
    - intros u a. unfold SwitchController.dict_get. simpl.
      destruct u; simpl; [|done]. intros [= Heq]. by destruct (Hkind a). }
  assert (Hex : (exists c, Some entec = Some c /\ is_entec c = true) <-> is_entec entec = true).
  { split; [by intros (c & [= <-] & ?)|by exists entec]. }
  assert (Hplain : forall s, Some s0 = Some s ->
            (forall v, venue = Some v -> config_get v = None) ->
            well_routed s /\
            SwitchController.dict_get default (SwitchController.controller_map s) = Some entec /\
            (is_Some (SwitchController.dict_get art1 (SwitchController.controller_map s)) <->
               venue = Some "mtn_lotus"%string) /\
            (forall c, SwitchController.dict_get art1 (SwitchController.controller_map s) = Some c ->
               exists a, c = ArtNet a /\
                 ArtNetController.dmx_data a = replicate 512 0%Z /\
                 ArtNetController.sent a = []) /\
            (default ∈ SwitchController._entec_universes s <->
               exists c, Some entec = Some c /\ is_entec c = true) /\
            art1 ∉ SwitchController._entec_universes s).
  { intros s [= <-] Hnone. split; [done|]. rewrite Hmap.
    split; [done|]. split.
    { split; [by intros [? ?]|]. intros ->.
      specialize (Hnone _ eq_refl). discriminate Hnone. }
    split; [done|]. split; [by rewrite Hex|done]. }
  destruct venue as [v|]; [|intros s Hs; by apply Hplain].
  destruct (config_get v) as [[ip universe]|] eqn:Hcfg;
    [|intros s Hs; apply Hplain; [done|by intros ? [= <-]]].
  intros s [= <-]. cbn [SwitchController.controller_map SwitchController._entec_universes].
  rewrite Hmap.
  assert (Hv : v = "mtn_lotus"%string).
  { apply config_get_mtn_lotus. by rewrite Hcfg. }
  split.
  { split; [|split]; simpl.
    - apply NoDup_cons. split; [|apply NoDup_singleton].
      by intros ?%list_elem_of_singleton.
    - intros u Hu. destruct u; [|done]. exists entec. split; [done|by apply Hdef].
    - intros u a. unfold SwitchController.dict_get. simpl.
      destruct u; simpl; intros [= Heq]; [by destruct (Hkind a)|].
      subst a. apply length_replicate. }
  split; [done|]. split; [split; [by rewrite Hv|by eexists]|].
  split.
  { intros c. unfold SwitchController.dict_get. simpl. intros [= <-]. by eexists. }
  split; [by rewrite Hex|done].
Qed.

End DmxControllerFacts.

(** ** parrot/director/director.py: what the calls write, group, schedule *)

Section DirectorMoreFacts.
Import Director.
Context `{Domain} `{!Collaborators}.
Implicit Types (w : World) (h : gmap loc Interpreter) (i : loc).

Notation "x <- m ;; k" := (bind m (fun x => k))
  (at level 100, m at next level, k at level 200, right associativity).
Notation "m ;;; k" := (bind m (fun _ => k))
  (at level 100, k at level 200, right associativity).

(** *** Footprints *)

Lemma writes_bind {A B} (fields : list Field) (m : M A) (k : A -> M B) :
  writes_at_most fields m -> (forall a, writes_at_most fields (k a)) ->
  writes_at_most fields (bind m k).
Proof.
  intros Hm Hk V view Hview. apply keeps_bind; [by apply Hm|].
  intros a. by apply Hk.
Qed.

Lemma writes_weaken {A} (fields fields' : list Field) (m : M A) :
  forallb (fun f => bool_decide (f ∈ fields')) fields = true ->
  writes_at_most fields m -> writes_at_most fields' m.
Proof.
  intros Hsub Hm V view Hview. apply Hm. intros f Hf. apply Hview.
  rewrite forallb_forall in Hsub.
  eapply bool_decide_eq_true_1. apply Hsub. by apply list_elem_of_In.
Qed.

Lemma writes_nothing_ret {A} (a : A) : writes_at_most [] (ret a).
Proof. intros V view _. apply keeps_ret. Qed.

Lemma writes_nothing_raise {A} (e : Exn) : writes_at_most [] (raise (A:=A) e).
Proof. intros V view _. apply keeps_raise. Qed.

Lemma writes_nothing_get : writes_at_most [] get.
Proof. intros V view _. apply keeps_get. Qed.

Lemma writes_time_time : writes_at_most [FClockPos] time_time.
Proof.
  intros V view Hview w. apply (Hview FClockPos). apply list_elem_of_here.
Qed.

Lemma writes_draw : writes_at_most [FRngPos] draw.
Proof.
  intros V view Hview w. apply (Hview FRngPos). apply list_elem_of_here.
Qed.

Ltac field_in :=
  match goal with
  | |- ?f ∈ ?fs => apply (bool_decide_eq_true_1 (f ∈ fs)); vm_compute; reflexivity
  end.

(** A write of one attribute through its setter. *)
Ltac writes_setter F :=
  let V := fresh "V" in let view := fresh "view" in
  let Hview := fresh "Hview" in let w := fresh "w" in
  intros V view Hview w; cbn [final_state modify];
  apply (Hview F); field_in.

Ltac writes_step :=
  match goal with
  | |- writes_at_most _ (bind _ _) => apply writes_bind; [|intros ?]
  | |- writes_at_most _ (if ?b then _ else _) => destruct b
  | |- writes_at_most _ (match ?x with _ => _ end) => destruct x
  | |- writes_at_most _ (ret _) =>
      apply (writes_weaken []); [reflexivity|apply writes_nothing_ret]
  | |- writes_at_most _ (raise _) =>
      apply (writes_weaken []); [reflexivity|apply writes_nothing_raise]
  | |- writes_at_most _ get =>
      apply (writes_weaken []); [reflexivity|apply writes_nothing_get]
  | |- writes_at_most _ time_time =>
      apply (writes_weaken [FClockPos]); [reflexivity|apply writes_time_time]
  | |- writes_at_most _ draw =>
      apply (writes_weaken [FRngPos]); [reflexivity|apply writes_draw]
  end.

Lemma writes_randint (a b : Z) : writes_at_most [FRngPos] (randint a b).
Proof. unfold randint. repeat writes_step. Qed.

Lemma writes_choice {A} (l : list A) : writes_at_most [FRngPos] (choice l).
Proof. unfold choice. repeat writes_step. Qed.

Lemma writes_generate_color_scheme :
  writes_at_most [FScheme; FRngPos] generate_color_scheme.
Proof.
  unfold generate_color_scheme. repeat writes_step.
  - eapply writes_weaken; [|apply writes_choice]. reflexivity.
  - writes_setter FScheme.
Qed.

Lemma writes_shift_color_scheme :
  writes_at_most [FScheme; FRngPos] shift_color_scheme.
Proof.
  unfold shift_color_scheme. repeat writes_step.
  - eapply writes_weaken; [|apply writes_choice]. reflexivity.
  - eapply writes_weaken; [|apply writes_randint]. reflexivity.
  - writes_setter FScheme.
Qed.

Lemma writes_call_get_interpreter (group : list Fixture) (args : InterpreterArgs) :
  writes_at_most registry_fields (call_get_interpreter group args).
Proof.
  unfold call_get_interpreter. repeat writes_step.
  intros V view Hview w. cbn [final_state modify].
  rewrite (Hview FRegistryCalls) by field_in.
  rewrite (Hview FNextLoc) by field_in.
  apply (Hview FHeap). field_in.
Qed.

Lemma writes_comprehension (groups : list (list Fixture)) (idx : nat) :
  writes_at_most registry_fields (comprehension idx groups).
Proof.
  revert idx. induction groups as [|group rest IH]; intros idx; cbn [comprehension].
  - repeat writes_step.
  - repeat writes_step; [apply writes_call_get_interpreter|apply IH].
Qed.

Lemma writes_generate_interpreters :
  writes_at_most (FInterpreters :: registry_fields) generate_interpreters.
Proof.
  unfold generate_interpreters. repeat writes_step.
  - eapply writes_weaken; [|apply writes_comprehension]. reflexivity.
  - writes_setter FInterpreters.
Qed.

Lemma writes_shift_interpreter :
  writes_at_most (FInterpreters :: registry_fields) shift_interpreter.
Proof.
  unfold shift_interpreter. repeat writes_step.
  - eapply writes_weaken; [|apply writes_randint]. reflexivity.
  - eapply writes_weaken; [|apply writes_call_get_interpreter]. reflexivity.
  - writes_setter FInterpreters.
Qed.

Lemma writes_enable_unhandled (switches : list loc) (signals : list Signal) :
  writes_at_most [FRngPos; FHeap] (enable_unhandled switches signals).
Proof.
  induction signals as [|signal rest IH]; cbn [enable_unhandled]; repeat writes_step.
  all: try exact IH.
  all: try (eapply writes_weaken; [|apply writes_choice]; reflexivity).
  all: writes_setter FHeap.
Qed.

Lemma writes_ensure : writes_at_most [FRngPos; FHeap] ensure_each_signal_is_enabled.
Proof.
  unfold ensure_each_signal_is_enabled. repeat writes_step.
  apply writes_enable_unhandled.
Qed.

Lemma writes_vj_shift (threshold : Q) :
  writes_at_most [FClockPos; FVjDirector] (vj_shift threshold).
Proof. unfold vj_shift. repeat writes_step. writes_setter FVjDirector. Qed.

Lemma writes_stamp_shift :
  writes_at_most [FClockPos; FLastShiftTime; FShiftCount] stamp_shift.
Proof.
  unfold stamp_shift. repeat writes_step.
  - writes_setter FLastShiftTime.
  - writes_setter FShiftCount.
Qed.

Lemma writes_for_each (f : Interpreter -> Interpreter) :
  writes_at_most [FHeap] (for_each_interpreter f).
Proof. unfold for_each_interpreter. writes_setter FHeap. Qed.

Lemma writes_vj_step (frame : Frame) (sch : ColorScheme) :
  writes_at_most [FVjDirector] (vj_step frame sch).
Proof.
  intros V view Hview w. unfold vj_step. cbn [final_state modify].
  destruct (vj_director w); [|done]. apply (Hview FVjDirector). field_in.
Qed.

Lemma writes_shift : writes_at_most shift_fields shift.
Proof.
  unfold shift. repeat writes_step.
  - eapply writes_weaken; [|apply writes_shift_color_scheme]. reflexivity.
  - eapply writes_weaken; [|apply writes_shift_interpreter]. reflexivity.
  - eapply writes_weaken; [|apply writes_ensure]. reflexivity.
  - eapply writes_weaken; [|apply writes_vj_shift]. reflexivity.
  - eapply writes_weaken; [|apply writes_stamp_shift]. reflexivity.
Qed.

Lemma writes_shift_lighting_only :
  writes_at_most (footprint CallShiftLightingOnly) shift_lighting_only.
Proof.
  unfold shift_lighting_only. repeat writes_step.
  - eapply writes_weaken; [|apply writes_generate_color_scheme]. reflexivity.
  - eapply writes_weaken; [|apply writes_comprehension]. reflexivity.
  - writes_setter FInterpreters.
  - eapply writes_weaken; [|apply writes_ensure]. reflexivity.
  - eapply writes_weaken; [|apply writes_stamp_shift]. reflexivity.
Qed.

Lemma writes_generate_all : writes_at_most (footprint CallGenerateAll) generate_all.
Proof.
  unfold generate_all. repeat writes_step.
  - eapply writes_weaken; [|apply writes_generate_interpreters]. reflexivity.
  - eapply writes_weaken; [|apply writes_vj_shift]. reflexivity.
Qed.

Lemma writes_step (frame : Frame) : writes_at_most (footprint (CallStep frame)) (step frame).
Proof.
  unfold step. repeat writes_step.
  all: try (eapply writes_weaken; [|apply writes_for_each]; reflexivity).
  all: try (eapply writes_weaken; [|apply writes_vj_step]; reflexivity).
  all: try (eapply writes_weaken; [|apply writes_shift]; reflexivity).
  all: try (writes_setter FLastFrame).
  all: writes_setter FWarmupComplete.
Qed.

Lemma writes_write_state (f : State -> State) : writes_at_most [FState] (write_state f).
Proof. unfold write_state. writes_setter FState. Qed.

Lemma writes_setup_patch : writes_at_most (FFixtureGroups :: footprint CallGenerateAll) setup_patch.
Proof.
  unfold setup_patch. repeat writes_step.
  - unfold group_fixtures. repeat writes_step. writes_setter FFixtureGroups.
  - eapply writes_weaken; [|apply writes_generate_all]. reflexivity.
Qed.

Lemma perform_writes (c : Call) : writes_at_most (footprint c) (perform c).
Proof.
  destruct c; cbn [perform footprint].
  - apply writes_step.
  - unfold render. repeat writes_step. writes_setter FDmxCalls.
  - apply writes_shift.
  - apply writes_shift_lighting_only.
  - apply writes_vj_shift.
  - apply writes_generate_all.
  - unfold deploy_hype. repeat writes_step. writes_setter FModeMachine.
  - repeat writes_step.
    + eapply writes_weaken; [|apply writes_write_state]. reflexivity.
    + eapply writes_weaken; [|apply writes_generate_interpreters]. reflexivity.
  - repeat writes_step.
    + eapply writes_weaken; [|apply writes_write_state]. reflexivity.
    + eapply writes_weaken; [|apply writes_generate_color_scheme]. reflexivity.
  - repeat writes_step.
    + eapply writes_weaken; [|apply writes_write_state]. reflexivity.
    + eapply writes_weaken; [|apply writes_setup_patch]. reflexivity.
  - apply writes_write_state.
  - apply writes_write_state.
  - apply writes_write_state.
  - apply writes_write_state.
Qed.

(** X8. What each call on the Director may write ([footprint]), whether it
    returns or raises: along any sequence of calls, every part of the
    Director that reads none of the attributes in the footprints of those
    calls is the same at the end.  In particular [start_time] and the
    sources of time and randomness are the same after any sequence of
    calls. *)
Theorem calls_write_only_their_footprint (cs : list Call) w :
  (forall (V : Type) (view : World -> V),
     (forall c f, c ∈ cs -> f ∈ footprint c -> ignores view f) ->
     view (run cs w) = view w) /\
  (start_time (run cs w), rng_tape (run cs w), clock_tape (run cs w)) =
  (start_time w, rng_tape w, clock_tape w).
Proof.
  assert (Hrun : forall (V : Type) (view : World -> V),
            (forall c f, c ∈ cs -> f ∈ footprint c -> ignores view f) ->
            view (run cs w) = view w).
  { intros V view. revert w. induction cs as [|c cs IH]; intros w Hview; [done|].
    unfold run. cbn [foldl]. fold (run cs (final_state (perform c w))).
    rewrite IH.
    - apply (perform_writes c). intros f Hf. apply (Hview c f); [|done].
      apply elem_of_cons. by left.
    - intros c' f Hc' Hf. apply (Hview c' f); [|done].
      apply elem_of_cons. by right. }
  split; [exact Hrun|].
  apply (Hrun _ (fun w => (start_time w, rng_tape w, clock_tape w))).
  intros c f _ _. destruct f; intros v w0; reflexivity.
Qed.

(** Using a footprint: a view that reads none of the fields is kept. *)
Ltac not_in_fields Hf :=
  cbv [footprint shift_fields registry_fields] in Hf;
  repeat (apply elem_of_cons in Hf as [Hf|Hf]; [discriminate Hf|]);
  by apply elem_of_nil in Hf.

Ltac ignores_solve :=
  let f := fresh "f" in let Hf := fresh "Hf" in
  intros f Hf; destruct f;
  first [ (cbn [ignores]; intros; reflexivity) | (exfalso; not_in_fields Hf) ].

(** *** The shift schedule *)

Lemma counts_keeps {A} (m : M A) :
  keeps schedule m -> counts_at_most_one_shift m.
Proof.
  intros Hm w. specialize (Hm w). destruct (m w); simpl in Hm; [by left|done].
Qed.

Lemma counts_bind {A B} (m : M A) (k : A -> M B) :
  keeps (fun w => (schedule w, clock_tape w)) m ->
  (forall a, counts_at_most_one_shift (k a)) ->
  counts_at_most_one_shift (bind m k).
Proof.
  intros Hm Hk w. unfold bind. specialize (Hm w).
  destruct (m w) as [a w1|e w1]; cbn [final_state] in Hm;
    pose proof (f_equal fst Hm) as Hs; pose proof (f_equal snd Hm) as Ht;
    cbn [fst snd] in Hs, Ht; [|exact Hs].
  specialize (Hk a w1).
  destruct (k a w1) as [b w2|e w2]; [|by rewrite Hk].
  destruct Hk as [Hk|[Hc [n Hn]]]; [left; by rewrite Hk|right].
  split.
  - rewrite Hc. f_equal. exact (f_equal snd Hs).
  - exists n. by rewrite Hn, Ht.
Qed.

Lemma counts_stamp_shift : counts_at_most_one_shift stamp_shift.
Proof. intros w. rewrite stamp_shift_run. right. simpl. split; [done|by eexists]. Qed.

Lemma keeps_of_writes {A V} (fields : list Field) (view : World -> V) (m : M A) :
  writes_at_most fields m -> (forall f, f ∈ fields -> ignores view f) -> keeps view m.
Proof. intros Hm Hview. by apply Hm. Qed.

Lemma counts_shift : counts_at_most_one_shift shift.
Proof.
  unfold shift.
  apply counts_bind; [eapply keeps_of_writes; [apply writes_shift_color_scheme|ignores_solve]|intros _].
  apply counts_bind; [eapply keeps_of_writes; [apply writes_shift_interpreter|ignores_solve]|intros _].
  apply counts_bind; [eapply keeps_of_writes; [apply writes_ensure|ignores_solve]|intros _].
  apply counts_bind; [eapply keeps_of_writes; [apply writes_vj_shift|ignores_solve]|intros _].
  apply counts_stamp_shift.
Qed.

Lemma counts_shift_lighting_only : counts_at_most_one_shift shift_lighting_only.
Proof.
  unfold shift_lighting_only.
  apply counts_bind; [eapply keeps_of_writes; [apply writes_generate_color_scheme|ignores_solve]|intros _].
  apply counts_bind; [apply keeps_get|intros w0].
  apply counts_bind; [eapply keeps_of_writes; [apply writes_comprehension|ignores_solve]|intros created].
  apply counts_bind; [by apply keeps_modify|intros _].
  apply counts_bind; [eapply keeps_of_writes; [apply writes_ensure|ignores_solve]|intros _].
  apply counts_stamp_shift.
Qed.

Lemma counts_step (frame : Frame) : counts_at_most_one_shift (step frame).
Proof.
  unfold step.
  apply counts_bind; [by apply keeps_modify|intros _].
  apply counts_bind; [apply keeps_get|intros w0].
  apply counts_bind; [eapply keeps_of_writes; [apply writes_time_time|ignores_solve]|intros t].
  apply counts_bind.
  { destruct (_ && _); [by apply keeps_modify|apply keeps_ret]. }
  intros _.
  apply counts_bind; [eapply keeps_of_writes; [apply writes_for_each|ignores_solve]|intros _].
  apply counts_bind; [eapply keeps_of_writes; [apply writes_vj_step|ignores_solve]|intros _].
  apply counts_bind; [eapply keeps_of_writes; [apply writes_time_time|ignores_solve]|intros now].
  apply counts_bind; [apply keeps_get|intros w1].
  destruct (shift_due _ _ _).
  - apply counts_bind; [eapply keeps_of_writes; [apply writes_for_each|ignores_solve]|intros _].
    apply counts_shift.
  - apply counts_keeps, keeps_ret.
Qed.

(** X9. [shift_count] counts the shifts that completed.  A call that raises
    leaves [shift_count] and [last_shift_time] as they were.  A call that
    returns has either left both alone or incremented [shift_count] by
    exactly one and set [last_shift_time] to a reading of the clock, and
    only [step], [shift] and [shift_lighting_only] ever do the latter. *)
Theorem shift_count_counts_completed_shifts (c : Call) w :
  (forall e w', perform c w = Raises e w' -> schedule w' = schedule w) /\
  (forall w',
     perform c w = Returns tt w' ->
     schedule w' = schedule w \/
     (shift_count w' = S (shift_count w) /\
      (exists n, last_shift_time w' = clock_tape w n) /\
      match c with
      | CallStep _ | CallShift | CallShiftLightingOnly => True
      | _ => False
      end)).
Proof.
  assert (Hkeeps : (forall f, f ∈ footprint c -> ignores schedule f) ->
                   keeps schedule (perform c)).
  { intros Hf. exact (keeps_of_writes _ _ _ (perform_writes c) Hf). }
  assert (Hcount : counts_at_most_one_shift (perform c)).
  { destruct c; cbn [perform];
      first [ apply counts_step | apply counts_shift
            | apply counts_shift_lighting_only
            | apply counts_keeps, Hkeeps; ignores_solve ]. }
  specialize (Hcount w). split.
  - intros e w' Hrun. by rewrite Hrun in Hcount.
  - intros w' Hrun. rewrite Hrun in Hcount.
    destruct c;
      try (left; apply (keeps_returns _ _ _ _ _ (Hkeeps ltac:(ignores_solve)) Hrun)).
    all: destruct Hcount as [?|[? ?]]; [by left|by right].
Qed.

(** *** The tick: what [step] stores and hands on *)

Lemma vj_latest_spec w : vj_latest w = get_latest_frame_data <$> vj_director w.
Proof. unfold vj_latest. by destruct (vj_director w). Qed.

Lemma step_prefix_run (frame : Frame) w :
  let t := clock_tape w (clock_pos w) in
  let now := clock_tape w (S (clock_pos w)) in
  let sch := lerp_render (scheme w) in
  let phase := warmup_phase_of (t - start_time w) in
  let scaled := frame_mul frame phase in
  exists w6,
    step frame w =
      (if shift_due now (last_shift_time w) scaled
       then (for_each_interpreter (interp_exit scaled sch) ;;; shift) w6
       else Returns tt w6) /\
    last_frame w6 = Some frame /\
    warmup_complete w6 = warmup_complete w || Qeqb phase 1 /\
    vj_latest w6 = (if has_vj w then Some (Some scaled, Some sch) else None) /\
    interpreters w6 = interpreters w /\
    heap w6 = foldl (fun h i => alter (interp_step scaled sch) i h) (heap w) (interpreters w).
Proof.
  intros t now sch phase scaled. subst t now sch phase scaled.
  unfold step, bind, modify, get, time_time, for_each_interpreter, vj_step, ret.
  cbn [last_frame set_last_frame scheme start_time clock_tape clock_pos
       set_clock_pos warmup_complete].
  destruct (Qeqb _ 1); destruct (warmup_complete w) eqn:Hwc;
    unfold has_vj, vj_latest; destruct (vj_director w) eqn:Hvj;
    cbn; rewrite ?Hvj; cbn;
    destruct (shift_due _ _ _);
    (eexists; split; [reflexivity|]); cbn; rewrite ?Hvj, ?Hwc; done.
Qed.

Lemma keeps_tick_record_vj_shift (threshold : Q) : keeps tick_record (vj_shift threshold).
Proof.
  intros w. unfold vj_shift, bind, get, time_time, modify, tick_record, vj_latest.
  destruct (vj_director w) eqn:Hvj; cbn; by rewrite ?Hvj.
Qed.

Lemma keeps_tick_record_shift : keeps tick_record shift.
Proof.
  unfold shift.
  apply keeps_bind; [eapply keeps_of_writes; [apply writes_shift_color_scheme|ignores_solve]|intros _].
  apply keeps_bind; [eapply keeps_of_writes; [apply writes_shift_interpreter|ignores_solve]|intros _].
  apply keeps_bind; [eapply keeps_of_writes; [apply writes_ensure|ignores_solve]|intros _].
  apply keeps_bind; [apply keeps_tick_record_vj_shift|intros _].
  eapply keeps_of_writes; [apply writes_stamp_shift|ignores_solve].
Qed.

Lemma step_tick_record (frame : Frame) w :
  let t := clock_tape w (clock_pos w) in
  let sch := lerp_render (scheme w) in
  let phase := warmup_phase_of (t - start_time w) in
  tick_record (final_state (step frame w)) =
    (Some frame, warmup_complete w || Qeqb phase 1,
     if has_vj w then Some (Some (frame_mul frame phase), Some sch) else None).
Proof.
  intros t sch phase.
  destruct (step_prefix_run frame w) as (w6 & Hstep & Hlf & Hwc & Hvj & _).
  rewrite Hstep.
  assert (Hw6 : tick_record w6 =
            (Some frame, warmup_complete w || Qeqb phase 1,
             if has_vj w then Some (Some (frame_mul frame phase), Some sch) else None)).
  { unfold tick_record. by rewrite Hlf, Hwc, Hvj. }
  destruct (shift_due _ _ _); [|done].
  rewrite <- Hw6.
  apply (keeps_bind tick_record); [|intros _; apply keeps_tick_record_shift].
  eapply keeps_of_writes; [apply writes_for_each|ignores_solve].
Qed.

(** X10. [step] keeps the frame it was called with in [last_frame], and hands
    the VJ director (when there is one) the frame scaled by the warm-up
    factor together with the scheme rendered at the start of the tick; this
    is what [get_latest_frame_data] returns afterwards, also when the
    scheduled shift of that tick raised.  On a tick without a scheduled
    shift [step] returns, and every object of the list has been stepped with
    that scaled frame and that scheme. *)
Theorem step_stores_frame_and_feeds_vj (frame : Frame) w :
  let t := clock_tape w (clock_pos w) in
  let now := clock_tape w (S (clock_pos w)) in
  let sch := lerp_render (scheme w) in
  let scaled := frame_mul frame (warmup_phase_of (t - start_time w)) in
  let w' := final_state (step frame w) in
  last_frame w' = Some frame /\
  get_latest_frame_data <$> vj_director w' =
    (fun _ => (Some scaled, Some sch)) <$> vj_director w /\
  (shift_due now (last_shift_time w) scaled = false ->
   step frame w = Returns tt w' /\
   interpreters w' = interpreters w /\
   heap w' = foldl (fun h i => alter (interp_step scaled sch) i h)
                   (heap w) (interpreters w)).
Proof.
  intros t now sch scaled w'.
  pose proof (step_tick_record frame w) as Hrec.
  unfold tick_record in Hrec. fold w' in Hrec.
  injection Hrec as Hlf _ Hvj.
  split; [exact Hlf|]. split.
  - rewrite <- vj_latest_spec, Hvj. unfold has_vj. by destruct (vj_director w).
  - intros Hgate. subst w'.
    destruct (step_prefix_run frame w) as (w6 & Hstep & _ & _ & _ & Hi & Hh).
    fold t now sch scaled in Hstep. rewrite Hgate in Hstep.
    rewrite Hstep. by cbn [final_state].
Qed.

(** *** Warm-up *)

Lemma warmup_phase_complete (run_time : Q) :
  Qeqb (warmup_phase_of run_time) 1 = true <->
  (inject_Z WARMUP_SECONDS <= run_time)%Q.
Proof.
  rewrite Qeqb_eq. unfold warmup_phase_of.
  destruct (py_min_spec 1 (float_div run_time WARMUP_SECONDS)) as [[Hlt ->]|[Hle ->]].
  - split.
    + intros Heq. rewrite Heq in Hlt. by apply Qlt_irrefl in Hlt.
    + intros Hdone. exfalso. apply (Qlt_not_le _ _ Hlt). by apply float_div_warmup.
  - split; [intros _|done]. by apply float_div_warmup.
Qed.

(** X11. [warmup_complete] is a latch.  Only [step] writes it: on the tick
    whose first clock reading is at least WARMUP_SECONDS after [start_time]
    it becomes true, and once true it stays true, whatever is called and
    whether the call returns or raises. *)
Theorem warmup_complete_is_latched (c : Call) w :
  let w' := final_state (perform c w) in
  match c with
  | CallStep _ =>
      warmup_complete w' = true <->
      warmup_complete w = true \/
      (inject_Z WARMUP_SECONDS <= clock_tape w (clock_pos w) - start_time w)%Q
  | _ => warmup_complete w' = warmup_complete w
  end.
Proof.
  intros w'. subst w'.
  assert (Hk : (forall f, f ∈ footprint c -> ignores warmup_complete f) ->
               warmup_complete (final_state (perform c w)) = warmup_complete w).
  { intros Hf. exact (keeps_of_writes _ _ _ (perform_writes c) Hf w). }
  destruct c; cbn [perform] in *.
  1: { clear Hk. pose proof (step_tick_record frame w) as Hrec.
       unfold tick_record in Hrec.
       injection Hrec as _ Hwc _. rewrite Hwc, orb_true_iff, warmup_phase_complete.
       done. }
  all: apply Hk; ignores_solve.
Qed.

(** *** Fixture grouping *)

Lemma length_omap_le {A B} (f : A -> option B) (l : list A) :
  (length (omap f l) <= length l)%nat.
Proof.
  induction l as [|x l IH]; simpl; [lia|].
  unfold omap in IH. destruct (f x); simpl; lia.
Qed.

Lemma every_class_is_grouped (cls : FixtureClass) : cls ∈ to_group.
Proof. apply list_elem_of_In. destruct cls; simpl; tauto. Qed.

(** X12. [group_fixtures] always returns and rewrites [fixture_groups] from
    the patch of the current venue alone, whatever the groups were before.
    A fixture is in some group exactly when it belongs to a fixture group of
    the patch that is not a manual group, or stands in the patch on its own
    and is an instance of one of the clustered classes: the fixtures of a
    manual group and the fixtures of no listed class are under no
    interpreter.  A group is empty only if the patch lists an empty group,
    and there are at most as many groups as patch entries plus classes. *)
Theorem group_fixtures_groups w :
  let patch := venue_patches (venue (state w)) in
  exists groups,
    group_fixtures w = Returns tt (set_fixture_groups groups w) /\
    (forall w2, venue (state w2) = venue (state w) ->
       group_fixtures w2 = Returns tt (set_fixture_groups groups w2)) /\
    (forall f, (exists g, g ∈ groups /\ f ∈ g) <->
       (exists fs, PatchGroup false fs ∈ patch /\ f ∈ fs) \/
       (PatchFixture f ∈ patch /\ exists cls, isinstance f cls = true)) /\
    (forall g, g ∈ groups -> g = [] -> PatchGroup false [] ∈ patch) /\
    (length groups <= length patch + length to_group)%nat.
Proof.
  intros patch.
  eexists. split; [unfold group_fixtures, bind, get, modify; cbv zeta; reflexivity|].
  fold patch.
  set (ungrouped := omap (fun e => match e with PatchFixture f => Some f | _ => None end) patch).
  split; [|split; [|split]].
  - intros w2 Hv. unfold group_fixtures, bind, get, modify. cbv zeta.
    rewrite Hv. reflexivity.
  - intros f. split.
    + intros (g & [Hg|Hg]%elem_of_app & Hf).
      * apply list_elem_of_omap in Hg as (e & He & Hm).
        destruct e as [f0|[|] fs]; try discriminate. injection Hm as ->.
        left. by exists g.
      * apply list_elem_of_omap in Hg as (cls & _ & Hm). cbv zeta in Hm.
        destruct (0 <? _)%nat; [|discriminate]. injection Hm as <-.
        apply list_elem_of_In, filter_In in Hf as [Hin Hc].
        right. split; [|by exists cls].
        apply list_elem_of_In, list_elem_of_omap in Hin as (e & He & Hm).
        destruct e; try discriminate. by injection Hm as ->.
    + intros [(fs & Hfs & Hf)|(Hf & cls & Hc)].
      * exists fs. split; [|done]. apply elem_of_app. left.
        apply list_elem_of_omap. by exists (PatchGroup false fs).
      * assert (Hin : f ∈ List.filter (fun fx : Fixture => isinstance fx cls) ungrouped).
        { apply list_elem_of_In, filter_In. split; [|done].
          apply list_elem_of_In, list_elem_of_omap. by exists (PatchFixture f). }
        exists (List.filter (fun fx : Fixture => isinstance fx cls) ungrouped).
        split; [|done]. apply elem_of_app. right.
        apply list_elem_of_omap. exists cls. split; [apply every_class_is_grouped|].
        cbv zeta. fold ungrouped.
        destruct (List.filter _ ungrouped); [by apply elem_of_nil in Hin|done].
  - intros g [Hg|Hg]%elem_of_app ->.
    + apply list_elem_of_omap in Hg as (e & He & Hm).
      destruct e as [f0|[|] fs]; try discriminate. by injection Hm as ->.
    + apply list_elem_of_omap in Hg as (cls & _ & Hm). cbv zeta in Hm.
      destruct (List.filter _ _); simpl in Hm; discriminate.
  - rewrite length_app. apply Nat.add_le_mono; apply length_omap_le.
Qed.

(** *** The coverage guarantor *)

Lemma enable_unhandled_covered_noop (switches : list loc) (signals : list Signal) w :
  (forall signal, signal ∈ signals ->
     existsb (responds_at (heap w) signal) switches = true) ->
  enable_unhandled switches signals w = Returns tt w.
Proof.
  induction signals as [|signal rest IH]; intros Hcov; cbn [enable_unhandled]; [done|].
  unfold bind at 1. cbn [get].
  rewrite (Hcov signal) by (apply elem_of_cons; by left).
  rewrite (bind_returns _ _ w tt w) by done.
  apply IH. intros s Hs. apply Hcov, elem_of_cons. by right.
Qed.

Lemma enable_unhandled_elsewhere (switches : list loc) (signals : list Signal) w j :
  j ∉ switches ->
  heap (final_state (enable_unhandled switches signals w)) !! j = heap w !! j.
Proof.
  intros Hj. revert w. induction signals as [|signal rest IH]; intros w; [done|].
  cbn [enable_unhandled]. unfold bind at 1. cbn [get].
  destruct (existsb (responds_at (heap w) signal) switches).
  - rewrite (bind_returns _ _ w tt w) by done. apply IH.
  - destruct switches as [|i0 l] eqn:Hsw.
    + by rewrite (bind_raises _ _ w IndexError w).
    + rewrite <- Hsw in *.
      destruct (choice_run switches w) as (i & Hi & Hchoice); [by rewrite Hsw|].
      set (w1 := set_heap (alter (set_enabled signal true) i (heap w))
                   (set_rng_pos (S (rng_pos w)) w)).
      assert (Hstep : bind (choice switches)
                (fun i0 => modify (fun w' =>
                   set_heap (alter (set_enabled signal true) i0 (heap w')) w')) w
              = Returns tt w1).
      { by rewrite (bind_returns _ _ _ _ _ Hchoice). }
      rewrite (bind_returns _ _ _ _ _ Hstep), IH.
      subst w1. cbn [heap set_heap]. apply lookup_alter_ne.
      intros ->. by apply Hj.
Qed.

Lemma covered_existsb w signal :
  covered w signal ->
  existsb (responds_at (heap w) signal)
          (List.filter (is_signal_switch (heap w)) (interpreters w)) = true.
Proof.
  intros (i & o & Hi & Ho & Hs & Hr). apply existsb_exists. exists i. split.
  - apply filter_In. split; [by apply list_elem_of_In|].
    unfold is_signal_switch. by rewrite Ho.
  - unfold responds_at. by rewrite Ho.
Qed.

Lemma ensure_covered_noop w :
  all_covered w -> ensure_each_signal_is_enabled w = Returns tt w.
Proof.
  intros Hall. unfold ensure_each_signal_is_enabled, bind at 1. cbn [get].
  destruct (List.filter (is_signal_switch (heap w)) (interpreters w)) as [|i0 l] eqn:Hf;
    [done|].
  apply enable_unhandled_covered_noop. intros signal _.
  rewrite <- Hf. by apply covered_existsb.
Qed.

(** X13. [ensure_each_signal_is_enabled] always returns, and only ever
    enables: what an object responded to before it still responds to, the
    objects that are not signal switches of the list are left as they were,
    and so is the list.  When every signal is handled already it changes
    nothing and draws no random number; calling it a second time changes
    nothing. *)
Theorem ensure_each_signal_is_enabled_only_enables w :
  exists w',
    ensure_each_signal_is_enabled w = Returns tt w' /\
    interpreters w' = interpreters w /\
    (forall i signal, responds_at (heap w) signal i = true ->
                      responds_at (heap w') signal i = true) /\
    (forall i, i ∉ interpreters w \/ is_signal_switch (heap w) i = false ->
               heap w' !! i = heap w !! i) /\
    (all_covered w -> w' = w) /\
    ensure_each_signal_is_enabled w' = Returns tt w'.
Proof.
  destruct (ensure_run w) as (w' & Hrun & Hlist & Hsame & Hcov & Hnone).
  exists w'. split; [done|]. split; [done|]. split; [|split; [|split]].
  - intros i signal Hr. revert Hrun.
    unfold ensure_each_signal_is_enabled, bind at 1. cbn [get].
    destruct (List.filter (is_signal_switch (heap w)) (interpreters w)) as [|i0 l] eqn:Hf.
    + by intros [= <-].
    + destruct (enable_unhandled_run (i0 :: l) (enum Signal) w)
        as (w2 & Hrun2 & _ & Hmono & _); [done| |].
      { intros j Hj. rewrite <- Hf in Hj.
        by apply list_elem_of_In, filter_In in Hj as [_ Hj]. }
      rewrite Hrun2. intros [= <-]. by apply Hmono.
  - intros i Hi.
    assert (Hout : i ∉ List.filter (is_signal_switch (heap w)) (interpreters w)).
    { intros [Hin Hs]%list_elem_of_In%filter_In. apply list_elem_of_In in Hin.
      destruct Hi as [Hi|Hi]; [done|congruence]. }
    revert Hrun.
    unfold ensure_each_signal_is_enabled, bind at 1. cbn [get].
    destruct (List.filter (is_signal_switch (heap w)) (interpreters w)) as [|i0 l] eqn:Hf.
    + by intros [= <-].
    + intros Hrun.
      pose proof (enable_unhandled_elsewhere (i0 :: l) (enum Signal) w i Hout) as He.
      by rewrite Hrun in He.
  - intros Hall. rewrite (ensure_covered_noop w Hall) in Hrun. by injection Hrun.
  - destruct (List.filter (is_signal_switch (heap w)) (interpreters w)) as [|i0 l] eqn:Hf.
    + rewrite (Hnone ltac:(rewrite has_signal_switch_filter, Hf; by intros ?)).
      rewrite (Hnone ltac:(rewrite has_signal_switch_filter, Hf; by intros ?)) in Hrun.
      done.
    + apply ensure_covered_noop, Hcov, has_signal_switch_filter. by rewrite Hf.
Qed.

(** *** Colour schemes *)

(** X14. The two ways of changing the colour scheme.  On a theme without
    candidate schemes both raise IndexError and leave the Director as it
    was.  Otherwise both return, having pushed one scheme on the animator:
    [generate_color_scheme] a candidate of the theme, and
    [shift_color_scheme] the currently rendered scheme with exactly one of
    its three axes replaced by that axis of the candidate. *)
Theorem shift_color_scheme_splices_one_axis w :
  let candidates := color_scheme (theme (state w)) in
  let ct := lerp_render (scheme w) in
  (candidates = [] ->
     generate_color_scheme w = Raises IndexError w /\
     shift_color_scheme w = Raises IndexError w) /\
  (candidates <> [] ->
     exists s new,
       s ∈ candidates /\
       generate_color_scheme w =
         Returns tt (set_scheme (lerp_push (scheme w) s)
                       (set_rng_pos (S (rng_pos w)) w)) /\
       shift_color_scheme w =
         Returns tt (set_scheme (lerp_push (scheme w) new)
                       (set_rng_pos (S (S (rng_pos w))) w)) /\
       (new = (s.1.1, ct.1.2, ct.2) \/
        new = (ct.1.1, s.1.2, ct.2) \/
        new = (ct.1.1, ct.1.2, s.2))).
Proof.
  intros candidates ct. split.
  - intros Hnil. unfold generate_color_scheme, shift_color_scheme, bind, get.
    fold candidates. by rewrite Hnil.
  - intros Hne. destruct (choice_run candidates w Hne) as (s & Hs & Hchoice).
    set (w1 := set_rng_pos (S (rng_pos w)) w) in *.
    set (idx := (0 + Z.of_nat (rng_tape w1 (rng_pos w1)) mod (2 - 0 + 1))%Z).
    exists s, (splice idx s ct).
    split; [done|]. split; [|split].
    + unfold generate_color_scheme, bind at 1. cbn [get]. fold candidates.
      by rewrite (bind_returns _ _ _ _ _ Hchoice).
    + unfold shift_color_scheme, bind at 1. cbn [get]. fold candidates.
      rewrite (bind_returns _ _ _ _ _ Hchoice).
      by rewrite (bind_returns _ _ _ _ _ (randint_run 0 2 w1 ltac:(lia))).
    + unfold splice. destruct s as [[s0 s1] s2], ct as [[c0 c1] c2]. cbn [fst snd].
      destruct (idx =? 0)%Z; [by left|].
      destruct (idx =? 1)%Z; [right; by left|right; by right].
Qed.

(** *** Regeneration *)

Lemma vj_shift_director (threshold : Q) w :
  exists w',
    vj_shift threshold w = Returns tt w' /\
    vj_director w' = vj_shifted (clock_tape w (clock_pos w)) <$> vj_director w /\
    clock_pos w' = (clock_pos w + (if has_vj w then 1 else 0))%nat /\
    (vj_director w = None -> w' = w).
Proof.
  unfold vj_shift, bind, get, time_time, modify, has_vj.
  destruct (vj_director w) as [vj|] eqn:Hvj.
  - eexists. split; [reflexivity|]. cbn. split; [done|]. split; [lia|done].
  - exists w. split; [done|]. rewrite Hvj. split; [done|]. split; [lia|done].
Qed.

Lemma generate_all_run w :
  exists w',
    generate_all w = Returns tt w' /\
    interpreters w' = seq (next_loc w) (length (fixture_groups w)) /\
    registry_calls w' =
      registry_calls w ++
      imap (fun j group => (mode (state w), group, bucket_args (state w) j))
           (fixture_groups w) /\
    vj_director w' = vj_shifted (clock_tape w (clock_pos w)) <$> vj_director w /\
    clock_pos w' = (clock_pos w + (if has_vj w then 1 else 0))%nat /\
    rng_pos w' = (rng_pos w + length (fixture_groups w))%nat /\
    (forall j group, fixture_groups w !! j = Some group ->
       heap w' !! (next_loc w + j)%nat =
         Some (get_interpreter (mode (state w)) group (bucket_args (state w) j)
                 (rng_tape w (rng_pos w + j)%nat))).
Proof.
  destruct (generate_interpreters_run w)
    as (w1 & Hrun & Hbr & Hnext & Hrng & Hreg & Hold & Hnew).
  set (w2 := set_interpreters (seq (next_loc w) (length (fixture_groups w))) w1) in *.
  destruct (vj_shift_director 1 w2) as (w' & Hvj & Hdir & Hclk & _).
  pose proof (keeps_returns _ _ _ _ _
    (keeps_of_writes _ (fun w => (interpreters w, registry_calls w, rng_pos w, heap w))
       _ (writes_vj_shift 1) ltac:(ignores_solve)) Hvj) as Hkept.
  injection Hkept as Hi Hr Hp Hh.
  unfold beyond_registry in Hbr.
  assert (Hvj1 : vj_director w1 = vj_director w) by (by injection Hbr).
  assert (Hct : clock_tape w1 = clock_tape w) by (by injection Hbr).
  assert (Hcp : clock_pos w1 = clock_pos w) by (by injection Hbr).
  exists w'. split.
  { unfold generate_all. by rewrite (bind_returns _ _ _ _ _ Hrun). }
  split; [by rewrite Hi|]. split; [by rewrite Hr|].
  assert (Hhas : has_vj w2 = has_vj w).
  { unfold has_vj. subst w2. cbn [vj_director set_interpreters]. by rewrite Hvj1. }
  split.
  { rewrite Hdir. subst w2. cbn [vj_director set_interpreters clock_tape clock_pos].
    by rewrite Hvj1, Hct, Hcp. }
  split.
  { rewrite Hclk, Hhas. subst w2. cbn [clock_pos set_interpreters]. by rewrite Hcp. }
  split; [by rewrite Hp|].
  intros j group Hj. rewrite Hh. by apply Hnew.
Qed.

(** X15. [generate_all] and [shift_vj_only] always return.  [generate_all]
    replaces the interpreter list by one new object per fixture group, made
    by the registry for the current mode with the bucket arguments of the
    group's position, and shifts the VJ director exactly once when there is
    one: its shift count goes up by one and its shift time becomes the clock
    reading of that moment, while the latest frame data it holds is kept.
    [shift_vj_only] does the same to the VJ director and leaves the lighting
    alone; without a VJ director it changes nothing. *)
Theorem generate_all_regenerates_lighting_and_vj w :
  (exists w',
     generate_all w = Returns tt w' /\
     one_per_group w' /\
     interpreters w' = seq (next_loc w) (length (fixture_groups w)) /\
     (forall j group, fixture_groups w !! j = Some group ->
        heap w' !! (next_loc w + j)%nat =
          Some (get_interpreter (mode (state w)) group (bucket_args (state w) j)
                  (rng_tape w (rng_pos w + j)%nat))) /\
     vj_director w' = vj_shifted (clock_tape w (clock_pos w)) <$> vj_director w) /\
  (exists w',
     shift_vj_only w = Returns tt w' /\
     lighting w' = lighting w /\
     vj_director w' = vj_shifted (clock_tape w (clock_pos w)) <$> vj_director w /\
     (vj_director w = None -> w' = w)).
Proof.
  split.
  - destruct (generate_all_run w) as (w' & Hrun & Hi & _ & Hvj & _ & _ & Hh).
    exists w'. split; [done|]. split; [|done].
    pose proof (keeps_returns _ _ _ _ _
      (keeps_of_writes _ fixture_groups _ writes_generate_all ltac:(ignores_solve))
      Hrun) as Hg.
    unfold one_per_group. by rewrite Hi, length_seq, Hg.
  - destruct (vj_shift_director 1 w) as (w' & Hrun & Hvj & _ & Hnone).
    exists w'. split; [done|]. split; [|done].
    apply (keeps_returns _ _ _ _ _
      (keeps_of_writes _ lighting _ (writes_vj_shift 1) ltac:(ignores_solve)) Hrun).
Qed.

(** *** Construction *)

Lemma setup_patch_run w :
  exists groups w1,
    group_fixtures w = Returns tt (set_fixture_groups groups w) /\
    setup_patch w = Returns tt w1 /\
    fixture_groups w1 = groups /\
    interpreters w1 = seq (next_loc w) (length groups) /\
    registry_calls w1 =
      registry_calls w ++
      imap (fun j group => (mode (state w), group, bucket_args (state w) j)) groups /\
    vj_director w1 = vj_shifted (clock_tape w (clock_pos w)) <$> vj_director w /\
    clock_pos w1 = (clock_pos w + (if has_vj w then 1 else 0))%nat /\
    rng_pos w1 = (rng_pos w + length groups)%nat /\
    beyond_patch w1 = beyond_patch w.
Proof.
  destruct (group_fixtures_run w) as [groups Hg].
  destruct (generate_all_run (set_fixture_groups groups w))
    as (w1 & Hrun & Hi & Hr & Hvj & Hclk & Hrng & _).
  assert (Hsetup : setup_patch w = Returns tt w1).
  { unfold setup_patch. by rewrite (bind_returns _ _ _ _ _ Hg). }
  exists groups, w1. split; [done|]. split; [done|].
  split.
  { apply (keeps_returns _ _ _ _ _
      (keeps_of_writes _ fixture_groups _ writes_generate_all ltac:(ignores_solve))
      Hrun). }
  do 5 (split; [done|]).
  apply (keeps_returns _ _ _ _ _
    (keeps_of_writes _ beyond_patch _ writes_setup_patch ltac:(ignores_solve))
    Hsetup).
Qed.

Lemma generate_color_scheme_cases w :
  (color_scheme (theme (state w)) = [] ->
     generate_color_scheme w = Raises IndexError w) /\
  (color_scheme (theme (state w)) <> [] ->
     exists s, s ∈ color_scheme (theme (state w)) /\
       generate_color_scheme w =
         Returns tt (set_scheme (lerp_push (scheme w) s)
                       (set_rng_pos (S (rng_pos w)) w))).
Proof.
  split.
  - intros Hnil. unfold generate_color_scheme, bind, get. by rewrite Hnil.
  - intros Hne. destruct (choice_run _ w Hne) as (s & Hs & Hchoice).
    exists s. split; [done|].
    unfold generate_color_scheme, bind at 1. cbn [get].
    by rewrite (bind_returns _ _ _ _ _ Hchoice).
Qed.

(** X16. Constructing a Director.  [Director(state, vj_director)] raises
    exactly when the module's list of colour schemes or the theme's list of
    candidates is empty, and then it is IndexError.  Otherwise the new
    Director has counted no shift, is not warmed up, holds no frame and no
    [mode_machine], has issued no device call, took [last_shift_time] and
    [start_time] from the first two clock readings, has one new interpreter
    per fixture group of the venue's patch, has shifted the VJ director once
    when it was given one, and animates from one of the module's schemes to
    a candidate of the theme. *)
Theorem init_outcome (st : State) (vj : option VJDirector)
    (rng : nat -> nat) (clock : nat -> Q) :
  (init st vj rng clock = inl IndexError <->
   color_schemes = [] \/ color_scheme (theme st) = []) /\
  (forall e, init st vj rng clock = inl e -> e = IndexError) /\
  (forall w,
     init st vj rng clock = inr w ->
     shift_count w = 0%nat /\
     warmup_complete w = false /\
     last_frame w = None /\
     mode_machine w = None /\
     dmx_calls w = [] /\
     last_shift_time w = clock 0%nat /\
     start_time w = clock 1%nat /\
     state w = st /\
     interpreters w = seq 0 (length (fixture_groups w)) /\
     registry_calls w =
       imap (fun j group => (mode st, group, bucket_args st j)) (fixture_groups w) /\
     vj_director w = vj_shifted (clock 2%nat) <$> vj /\
     exists c s,
       c ∈ color_schemes /\ s ∈ color_scheme (theme st) /\
       scheme w = lerp_push (lerp_new c 4) s).
Proof.
  unfold init. destruct color_schemes as [|c l] eqn:Hcs.
  { split; [split; [by left|done]|]. split; [by intros e [= <-]|done]. }
  set (c0 := nth (rng 0%nat mod length (c :: l)) (c :: l) c).
  assert (Hc0 : c0 ∈ c :: l).
  { apply list_elem_of_In, nth_In, Nat.mod_upper_bound. simpl. lia. }
  set (w0 := Build_World _ _ _ _ _ _ _ _ _ _ _ _ _ _ _ _ _ _ _).
  destruct (setup_patch_run w0)
    as (groups & w1 & _ & Hsetup & Hg & Hi & Hr & Hvj & _ & _ & Hbp).
  unfold beyond_patch in Hbp. cbn in Hbp.
  injection Hbp as Hsch Hlst Hsc Hstart Hstate Hwc Hlf Hmm _ _ Hdmx.
  rewrite (bind_returns _ _ _ _ _ Hsetup). cbv beta.
  destruct (generate_color_scheme_cases w1) as [Hnil Hsome]. rewrite Hstate in Hnil, Hsome.
  destruct (color_scheme (theme st)) as [|s0 ss] eqn:Hth.
  { rewrite (bind_raises _ _ _ _ _ (Hnil eq_refl)).
    split; [split; [by right|done]|]. split; [by intros e [= <-]|done]. }
  destruct Hsome as (s & Hs & Hgen); [done|].
  rewrite (bind_returns _ _ _ _ _ Hgen). unfold modify.
  split; [split; [done|by intros [|]]|]. split; [done|].
  intros w [= <-]. cbn.
  rewrite Hsc, Hlf, Hmm, Hdmx, Hlst, Hstart, Hstate, Hg, Hi, Hr, Hvj, Hsch.
  do 11 (split; [done|]).
  by exists c0, s.
Qed.

End DirectorMoreFacts.

(** ** The manual dimmer routes *)

Section ManualDimmerFacts.
Import DmxUtils WebServer.
Context `{Domain} `{!Director.Collaborators}.

Lemma unit_clamp_value (x : PyFloat) :
  exists q, num_value (unit_clamp x) = Some q /\ (0 <= q <= 1)%Q.
Proof.
  unfold unit_clamp. destruct x as [| | |v]; cbn.
  - exists 1%Q. split; [done|]. split; discriminate.
  - exists 1%Q. split; [done|]. split; discriminate.
  - exists 0%Q. split; [done|]. split; discriminate.
  - destruct (Qltb v (inject_Z 1)) eqn:Hlt1; cbn.
    + destruct (Qltb (inject_Z 0) v) eqn:Hgt0; cbn.
      * exists v. split; [done|]. apply Qltb_lt in Hlt1, Hgt0.
        split; by apply Qlt_le_weak.
      * exists 0%Q. split; [done|]. split; discriminate.
    + exists 1%Q. split; [done|]. split; discriminate.
Qed.

(** X17. POST /api/manual_dimmer with a value that [float] accepts always
    answers success, and the value it stores and reports lies between 0 and
    1: it is the request's value when that is strictly between 0 and 1, the
    integer 0 when it is at most 0, and the integer 1 when it is at least 1
    or is NaN.  GET /api/manual_dimmer then answers that value, nothing else
    of the state changes, and the next [Director.render] hands the manual
    group of the venue exactly that value before it renders the patch and
    submits. *)
Theorem set_manual_dimmer_clamps_to_unit_interval
    (x : PyFloat) (supported : Venue -> bool) (g : Globals) (st : Director.State) :
  state_instance g = Some st ->
  exists r q g' st',
    set_manual_dimmer (Value x) g = Returns (DimmerSet r) g' /\
    num_value r = Some q /\ (0 <= q <= 1)%Q /\
    match x with
    | FNaN | FPosInf => r = PyInt 1
    | FNegInf => r = PyInt 0
    | FFinite v =>
        ((0 < v)%Q /\ (v < 1)%Q /\ r = PyFloatV x) \/
        ((v <= 0)%Q /\ r = PyInt 0) \/
        ((1 <= v)%Q /\ r = PyInt 1)
    end /\
    state_instance g' = Some st' /\
    Director.manual_dimmer st' = q /\
    get_manual_dimmer supported g' = DimmerValue q (supported (Director.venue st)) /\
    (Director.mode st', Director.vj_mode st', Director.venue st', Director.theme st',
     Director.hype st', Director.hype_limiter st') =
    (Director.mode st, Director.vj_mode st, Director.venue st, Director.theme st,
     Director.hype st, Director.hype_limiter st) /\
    last_hype_time g' = last_hype_time g /\
    (forall d, director_instance g = Some d ->
       exists d',
         director_instance g' = Some d' /\
         Director.manual_dimmer (Director.state d') = q /\
         Director.venue (Director.state d') = Director.venue (Director.state d) /\
         forall fixtures,
           Director.get_manual_group (Director.venue (Director.state d)) = Some fixtures ->
           exists d'',
             Director.render d' = Returns tt d'' /\
             Director.dmx_calls d'' =
               Director.dmx_calls d ++
               Director.ManualRender q fixtures
                 :: (Director.EntryRender <$>
                       Director.venue_patches (Director.venue (Director.state d)))
                 ++ [Director.Submit]).
Proof.
  intros Hst. destruct (unit_clamp_value x) as (q & Hq & Hrange).
  unfold set_manual_dimmer, get_manual_dimmer. rewrite Hst. cbv zeta.
  eexists (unit_clamp x), q, _, _. split; [reflexivity|].
  split; [done|]. split; [done|]. split.
  { unfold unit_clamp. destruct x as [| | |v]; cbn; try done.
    destruct (Qltb v (inject_Z 1)) eqn:Hlt1; cbn.
    - destruct (Qltb (inject_Z 0) v) eqn:Hgt0; cbn.
      + left. apply Qltb_lt in Hlt1, Hgt0. done.
      + right; left. apply Qltb_ge in Hgt0. done.
    - right; right. apply Qltb_ge in Hlt1. done. }
  cbn. rewrite Hq. cbn.
  do 5 (split; [done|]).
  intros d ->. eexists. split; [reflexivity|].
  cbn. split; [done|]. split; [done|].
  intros fixtures Hmg. eexists.
  unfold Director.render, Director.bind, Director.get, Director.modify. cbn.
  rewrite Hmg. split; reflexivity.
Qed.

End ManualDimmerFacts.

(** ** The hype route and the status query *)

Section HypeRouteMoreFacts.
Import WebServer.
Context `{Domain} `{!Director.Collaborators}.

(** X18. POST /api/hype on a Director the program can observe never starts a
    hype period: the call raises AttributeError out of
    [Director.deploy_hype], [last_hype_time] keeps its value, and GET
    /api/hype/status answers at every time what it answered before. *)
Theorem hype_route_never_starts_hype (now : Q) (g : Globals)
    (st : Director.State) (d : Director.World) :
  state_instance g = Some st ->
  director_instance g = Some d ->
  Director.reachable d ->
  exists g',
    deploy_hype now g = Raises AttributeError g' /\
    last_hype_time g' = last_hype_time g /\
    forall t, fst (get_hype_status t g') = fst (get_hype_status t g).
Proof.
  intros Hst Hd Hreach.
  destruct (deploy_hype_route_raises now g st d Hst Hd Hreach) as (g' & Hrun & Htime).
  exists g'. split; [done|]. split; [done|].
  intros t. unfold get_hype_status. rewrite Htime.
  by destruct (Qltb _ _).
Qed.

End HypeRouteMoreFacts.

(** * The further properties on the demo rig *)

Section MoreRuns.
Import DmxUtils Demo.

(** X1 on three values: below, inside and above the range. *)
Lemma dmx_clamp_list_agrees_with_dmx_clamp_witness :
  saturating clamp_minmax /\
  Forall (fun n => isnan n = false) [FFinite (-3); FFinite (1275 # 10); FPosInf] /\
  exists zs,
    dmx_clamp_list clamp_minmax [FFinite (-3); FFinite (1275 # 10); FPosInf] =
      Returns zs tt /\
    length zs = 3%nat.
Proof.
  split; [exact clamp_minmax_saturating|].
  assert (Hitems : Forall (fun n => isnan n = false)
                     [FFinite (-3); FFinite (1275 # 10); FPosInf])
    by (repeat constructor).
  split; [exact Hitems|].
  destruct (dmx_clamp_list_agrees_with_dmx_clamp clamp_minmax _
              clamp_minmax_saturating Hitems) as (zs & Hrun & Hlen & _).
  exists zs. split; [exact Hrun|exact Hlen].
Defined.

(** X2 with the chain of comparisons as clamp: NaN in second place. *)
Lemma dmx_clamp_list_raises_on_nan_witness :
  saturating clamp_chain /\
  clamp_chain FNaN 0%Z 255%Z = PyFloatV FNaN /\
  dmx_clamp_list clamp_chain [FFinite 12; FNaN; FFinite 3] = Raises ValueError tt /\
  dmx_clamp clamp_chain FNaN = Returns 0%Z tt.
Proof.
  split; [exact clamp_chain_saturating|]. split; [reflexivity|].
  exact (dmx_clamp_list_raises_on_nan clamp_chain [FFinite 12] [FFinite 3]
           clamp_chain_saturating eq_refl ltac:(repeat constructor)).
Defined.

(** X3 on a new Art-Net controller: channel 512 takes [int(255.9) = 255]. *)
Lemma artnet_set_channel_writes_one_slot_witness :
  length (ArtNetController.dmx_data (ArtNetController.init "127.0.0.1" 0)) = 512%nat /\
  exists self',
    ArtNetController.set_channel 512 (PyFloatV (FFinite (2559 # 10)))
      (ArtNetController.init "127.0.0.1" 0) = Returns tt self' /\
    ArtNetController.dmx_data self' !! 511%nat = Some 255%Z.
Proof.
  assert (Hlen : length (ArtNetController.dmx_data (ArtNetController.init "127.0.0.1" 0))
                 = 512%nat) by (vm_compute; reflexivity).
  split; [exact Hlen|].
  destruct (artnet_set_channel_writes_one_slot 512 (PyFloatV (FFinite (2559 # 10)))
              (ArtNetController.init "127.0.0.1" 0) Hlen) as (_ & _ & Hin).
  destruct (Hin ltac:(lia)) as [Hok _].
  destruct (Hok 255%Z ltac:(vm_compute; reflexivity)) as (self' & Hrun & Hslot & _).
  exists self'. split; [exact Hrun|exact Hslot].
Defined.

Lemma demo_switch_well_routed : well_routed demo_switch.
Proof.
  split; [|split].
  - cbn. apply NoDup_cons. split; [|apply NoDup_singleton].
    intros Hin%list_elem_of_singleton. discriminate.
  - intros u Hu. cbn in Hu. apply elem_of_singleton in Hu. subst u. by eexists.
  - intros u a. destruct u; cbn; intros [= <-]. vm_compute. reflexivity.
Qed.

(** X4 on the switch controller of mtn_lotus: a channel of the Art-Net
    universe is set, the default universe keeps its controller. *)
Lemma switch_set_channel_touches_one_universe_witness :
  well_routed demo_switch /\
  well_routed (final_state (SwitchController.set_channel 7 (PyInt 200) art1 demo_switch)) /\
  SwitchController.dict_get default
    (SwitchController.controller_map
       (final_state (SwitchController.set_channel 7 (PyInt 200) art1 demo_switch))) =
  SwitchController.dict_get default (SwitchController.controller_map demo_switch).
Proof.
  split; [exact demo_switch_well_routed|].
  destruct (switch_set_channel_touches_one_universe 7 (PyInt 200) art1 demo_switch
              demo_switch_well_routed) as (Hwr & _ & _ & Hother & _).
  split; [exact Hwr|]. apply Hother. discriminate.
Defined.

(** X6 on the same switch controller with the Enttec unplugged: [submit]
    returns, and the result is well routed. *)
Lemma switch_submit_contains_device_faults_witness :
  well_routed demo_switch /\
  exists s',
    SwitchController.submit unplugged_host serial_fault demo_switch =
      SwitchController.Submitted s' /\
    well_routed s'.
Proof.
  split; [exact demo_switch_well_routed|].
  destruct (switch_submit_contains_device_faults unplugged_host serial_fault demo_switch
              demo_switch_well_routed) as (Hwr & _ & _ & _ & Hret & _).
  destruct Hret as [s' Hs'].
  { intros u _. destruct u; discriminate. }
  exists s'. split; [exact Hs'|]. rewrite Hs' in Hwr. exact Hwr.
Defined.

(** X17 with NaN as the requested value: the dimmer is set to 1. *)
Lemma set_manual_dimmer_clamps_to_unit_interval_witness :
  WebServer.state_instance triggered_at_1000 = Some (demo_state SmallVenue) /\
  exists g',
    WebServer.set_manual_dimmer (WebServer.Value FNaN) triggered_at_1000 =
      Returns (WebServer.DimmerSet (PyInt 1)) g'.
Proof.
  split; [reflexivity|].
  destruct (set_manual_dimmer_clamps_to_unit_interval FNaN (fun _ => true)
              triggered_at_1000 (demo_state SmallVenue) eq_refl)
    as (r & q & g' & st' & Hrun & _ & _ & Hcase & _).
  exists g'. rewrite Hrun, Hcase. reflexivity.
Defined.

(** X18 on the small venue: the route raises and the trigger time stays. *)
Lemma hype_route_never_starts_hype_witness :
  Director.reachable (director_at demo_rig SmallVenue 0) /\
  exists g',
    WebServer.deploy_hype 2000 triggered_at_1000 = Raises AttributeError g' /\
    WebServer.last_hype_time g' = 1000%Q.
Proof.
  assert (Hr : Director.reachable (director_at demo_rig SmallVenue 0)).
  { apply director_at_reachable, small_venue_built. }
  split; [exact Hr|].
  destruct (hype_route_never_starts_hype 2000 triggered_at_1000
              (demo_state SmallVenue) (director_at demo_rig SmallVenue 0)
              eq_refl eq_refl Hr) as (g' & Hrun & Htime & _).
  exists g'. split; [exact Hrun|exact Htime].
Defined.

End MoreRuns.
